(** * xdcc-tui: the search aggregator, size parsing and size formatting

    A shallow embedding of [search/search.go] (the provider aggregator and
    [parseFileSize]) and of the two copies of [FormatSize] in the [tui]
    package, together with the properties the specification states about
    them.

    Conventions.  Go's [int] and [int64] are modelled as [Z]; a Go [error]
    is an [option] whose [None] is [nil]; a Go map is a [gmap]; a Go slice
    is a value that is either [nil] or a backing list with a capacity.
    The few values of [float64] the program computes are dyadic rationals
    [m * 2^e], and are represented exactly. *)

From Stdlib Require Import ZArith String Ascii Decimal DecimalString DecimalPos.
From stdpp Require Import base gmap list strings countable sorting.

Local Open Scope string_scope.
Local Open Scope list_scope.
Local Open Scope Z_scope.

(** ** Package [xdcc]: the locator *)

Module xdcc.

(** Modelled from the spec: the declaration of [xdcc.IRCFile] (package
    [xdcc] is imported by [search.go] but its file is not part of the
    sources at hand).  The specification lists its fields as the network
    address, the optional channel, the bot nickname and the pack number,
    and says that two locators are equal iff all fields are equal. *)
Record IRCFile : Type := mkIRCFile
  { Network : string;
    Channel : string;
    UserName : string;
    Slot : Z }.

#[global] Instance IRCFile_eq_dec : EqDecision IRCFile.
Proof. solve_decision. Defined.

Definition IRCFile_to_tuple (f : IRCFile) : string * string * string * Z :=
  (Network f, Channel f, UserName f, Slot f).

Definition IRCFile_of_tuple (t : string * string * string * Z) : IRCFile :=
  let '(n, c, u, s) := t in mkIRCFile n c u s.

#[global] Instance IRCFile_countable : Countable IRCFile.
Proof.
  apply (inj_countable' IRCFile_to_tuple IRCFile_of_tuple).
  intros []; reflexivity.
Defined.

End xdcc.

(** ** Go values used by package [search] *)

(** The dynamic values an [error] of this program can hold: the result of
    [errors.New], or the [*strconv.NumError] of a failed [ParseFloat]. *)
Inductive strconv_cause : Type := ErrSyntax | ErrRange.

Inductive error_value : Type :=
  | errors_New (msg : string)
  | NumError (func num : string) (cause : strconv_cause).

(** [error] is an interface: [None] is Go's [nil]. *)
Definition error : Type := option error_value.

(** A slice is [nil] or a backing array with live elements and a capacity. *)
Inductive slice (A : Type) : Type :=
  | nil_slice
  | Slice (elems : list A) (capacity : nat).
Arguments nil_slice {A}.
Arguments Slice {A} elems capacity.

Definition elems {A} (s : slice A) : list A :=
  match s with nil_slice => [] | Slice l _ => l end.

Definition len {A} (s : slice A) : nat := length (elems s).

Definition cap {A} (s : slice A) : nat :=
  match s with nil_slice => 0%nat | Slice _ c => c end.

(** [make([]T, 0, c)]. *)
Definition make_slice {A} (c : nat) : slice A := Slice [] c.

(** [append(s, x)].  While the capacity suffices the backing array is
    reused; otherwise the runtime allocates a larger one.  How much larger
    is a detail of the runtime, and only [len <= cap] is kept here: the
    new capacity is the least one that holds the elements. *)
Definition append {A} (s : slice A) (x : A) : slice A :=
  match s with
  | nil_slice => Slice [x] 1
  | Slice l c =>
      if (length l <? c)%nat then Slice (l ++ [x]) c
      else Slice (l ++ [x]) (S (length l))
  end.

(** ** Package [search]: data model *)

Record XdccFileInfo : Type := mkXdccFileInfo
  { URL : xdcc.IRCFile;
    Name : string;
    Size : Z;
    Slot : Z }.

#[export] Instance XdccFileInfo_eq_dec : EqDecision XdccFileInfo.
Proof. solve_decision. Defined.

(** The interface [XdccSearchProvider]: one method,
    [Search(keywords) ([]XdccFileInfo, error)]. *)
Record XdccSearchProvider : Type := mkProvider
  { provider_Search : list string → list XdccFileInfo * error }.

Record ProviderAggregator : Type := mkAggregator
  { providerList : list XdccSearchProvider }.

Definition MaxProviders : nat := 100.

Definition NewProviderAggregator (providers : list XdccSearchProvider)
  : ProviderAggregator :=
  {| providerList := providers |}.

(** [AddProvider] updates the receiver in place; the embedding returns the
    updated aggregator. *)
Definition AddProvider (registry : ProviderAggregator)
    (provider : XdccSearchProvider) : ProviderAggregator :=
  {| providerList := providerList registry ++ [provider] |}.

Definition MaxResults : nat := 1024.

Definition KiloByte : Z := 1024.
Definition MegaByte : Z := KiloByte * 1024.
Definition GigaByte : Z := MegaByte * 1024.

(** ** [ProviderAggregator.Search]

    The call starts one goroutine per provider and then waits until all
    of them are done or ten seconds have passed.  What the goroutines do
    to the shared variables depends on the scheduler; a [Schedule] records
    the choices that are not the program's own:
    - [arrival]: the providers (by index in [providerList]) whose
      goroutine ran to its end before the caller left [select], in the
      order in which they did so.  A goroutine writes to the map while it
      holds [mtx], so each of these writes its batch as one block;
    - [range_order]: the order in which [range] visits the keys of the
      map (Go leaves it unspecified);
    - [late]: after a timeout the goroutines that are not done go on
      running, and the caller reads the map without holding [mtx]
      ([for _, res := range allResults]).  [late] lists the writes that
      these goroutines make to the map before the call returns, in the
      order in which they are made, and says of each whether the caller's
      [range] sees it: it does when the write is made before the [range]
      reaches its key (of two such writes to one key it sees the later).
      A batch can so be read when only a part of it is written.

    A run in which the runtime notices that a goroutine writes to the map
    while the caller ranges over it, and stops the program ("concurrent
    map iteration and map write"), returns nothing to the caller; a
    [Schedule] describes the runs that return. *)

(** A write [allResults[res.URL] = res] of a goroutine that is not done:
    [res] is the record at [late_index] of the batch of the provider at
    [late_provider]. *)
Record late_write : Type := mkLateWrite
  { late_provider : nat;
    late_index : nat;
    late_seen : bool }.

Record Schedule : Type := mkRacySchedule
  { arrival : list nat;
    range_order : list xdcc.IRCFile;
    late : list late_write }.

(** A schedule without late writes: every goroutine that is not done
    leaves the map alone until the call has returned. *)
Definition mkSchedule (arrival : list nat) (range_order : list xdcc.IRCFile)
  : Schedule :=
  {| arrival := arrival; range_order := range_order; late := [] |}.

Definition wf_schedule (n : nat) (sch : Schedule) : Prop :=
  NoDup (arrival sch) ∧ ∀ i, i ∈ arrival sch → (i < n)%nat.

(** The variables shared by the goroutines: [allResults] and [errChan]
    (a buffered channel, here the queue of values sent to it). *)
Record Shared : Type := mkShared
  { allResults : gmap xdcc.IRCFile XdccFileInfo;
    errChan : list error_value }.

(** [for _, res := range resList { allResults[res.URL] = res }] *)
Definition merge_batch (m : gmap xdcc.IRCFile XdccFileInfo)
    (resList : list XdccFileInfo) : gmap xdcc.IRCFile XdccFileInfo :=
  foldl (λ m res, <[URL res := res]> m) m resList.

(** The body of the goroutine started for provider [p]. *)
Definition provider_task (keywords : list string) (p : XdccSearchProvider)
    (st : Shared) : Shared :=
  let '(resList, err) := provider_Search p keywords in
  match err with
  | Some e =>
      {| allResults := allResults st; errChan := errChan st ++ [e] |}
  | None =>
      {| allResults := merge_batch (allResults st) resList;
         errChan := errChan st |}
  end.

(** The goroutine of the provider at index [i]. *)
Definition goroutine (registry : ProviderAggregator) (keywords : list string)
    (st : Shared) (i : nat) : Shared :=
  match providerList registry !! i with
  | Some p => provider_task keywords p st
  | None => st
  end.

(** The batch that the goroutine of the provider at index [i] writes to
    the map: none if the provider returns an error. *)
Definition merged_batch (registry : ProviderAggregator)
    (keywords : list string) (i : nat) : option (list XdccFileInfo) :=
  match providerList registry !! i with
  | Some p =>
      match provider_Search p keywords with
      | (resList, None) => Some resList
      | (_, Some _) => None
      end
  | None => None
  end.

(** The record that a late write puts into the map.  The goroutines of
    [arrival] are done and write no more. *)
Definition late_record (sch : Schedule) (registry : ProviderAggregator)
    (keywords : list string) (w : late_write) : option XdccFileInfo :=
  if bool_decide (late_provider w ∈ arrival sch) then None
  else
    match merged_batch registry keywords (late_provider w) with
    | Some resList => resList !! late_index w
    | None => None
    end.

(** The late writes, and those of them that the caller's [range] sees. *)
Definition late_writes (sch : Schedule) (registry : ProviderAggregator)
    (keywords : list string) : list XdccFileInfo :=
  omap (late_record sch registry keywords) (late sch).

Definition seen_writes (sch : Schedule) (registry : ProviderAggregator)
    (keywords : list string) : list XdccFileInfo :=
  omap (late_record sch registry keywords)
    (filter (λ w, late_seen w = true) (late sch)).

(** The shared variables once the goroutines of [arrival] are done. *)
Definition finished (sch : Schedule) (registry : ProviderAggregator)
    (keywords : list string) : Shared :=
  foldl (goroutine registry keywords)
    {| allResults := ∅; errChan := [] |}
    (arrival sch).

(** The shared variables as the caller finds them when it collects the
    results: what the goroutines of [arrival] have left and, in the map,
    the late writes that the caller's [range] sees. *)
Definition run_providers (sch : Schedule) (registry : ProviderAggregator)
    (keywords : list string) : Shared :=
  let st := finished sch registry keywords in
  {| allResults := merge_batch (allResults st) (seen_writes sch registry keywords);
     errChan := errChan st |}.

(** The map when the call returns: every late write is in it. *)
Definition allResults_at_return (sch : Schedule) (registry : ProviderAggregator)
    (keywords : list string) : gmap xdcc.IRCFile XdccFileInfo :=
  merge_batch (allResults (finished sch registry keywords))
    (late_writes sch registry keywords).

(** The late writes are made as the code makes them: the goroutines that
    are not done take [mtx] one after the other, in some order [turns];
    each writes its batch from the first record to the last; and the
    call returns at some point of this. *)
Definition batch_writes (registry : ProviderAggregator) (keywords : list string)
    (i : nat) : list (nat * nat) :=
  match merged_batch registry keywords i with
  | Some resList => (λ j, (i, j)) <$> seq 0 (length resList)
  | None => []
  end.

Definition wf_late (sch : Schedule) (registry : ProviderAggregator)
    (keywords : list string) : Prop :=
  ∃ turns : list nat,
    NoDup turns
    ∧ (∀ i, i ∈ turns → i ∉ arrival sch)
    ∧ (λ w, (late_provider w, late_index w)) <$> late sch
      `prefix_of` concat (batch_writes registry keywords <$> turns).

(** [for _, res := range allResults]: the keys named by [range_order]
    first, in that order, then the others.  Every enumeration of the map
    is obtained from some [range_order]. *)
Definition range_keys (order : list xdcc.IRCFile)
    (m : gmap xdcc.IRCFile XdccFileInfo) : list xdcc.IRCFile :=
  let first := filter (λ k, is_Some (m !! k)) (remove_dups order) in
  first ++ filter (λ k, k ∉ first) (map_to_list m).*1.

Definition range_values (order : list xdcc.IRCFile)
    (m : gmap xdcc.IRCFile XdccFileInfo) : list XdccFileInfo :=
  omap (λ k, m !! k) (range_keys order m).

(** [sort.Slice(x, less)].  The library function is not stable.  On fewer
    than twelve elements it runs the insertion sort below
    ([for i { for j := i; j > a && less(j, j-1); j-- { swap(j, j-1) } }]);
    on longer slices it switches to a quicksort whose result is, as here,
    a permutation of the input ordered by [less].  Nothing beyond these two
    facts is used by the theorems. *)
Section sort.
Context {A : Type} (less : A → A → bool).

(** One run of the inner loop: [x] moves left past the elements it is
    less than.  [before] is the sorted prefix, last element first. *)
Fixpoint sink (x : A) (before : list A) : list A :=
  match before with
  | y :: ys => if less x y then y :: sink x ys else x :: y :: ys
  | [] => [x]
  end.

Definition insertionSort (l : list A) : list A :=
  rev (foldl (λ before x, sink x before) [] l).

Definition sort_Slice (s : slice A) : slice A :=
  match s with
  | nil_slice => nil_slice
  | Slice l c => Slice (insertionSort l) c
  end.
End sort.

(** The closure given to [sort.Slice]:
    [results[i].Size > results[j].Size]. *)
Definition less_by_Size (a b : XdccFileInfo) : bool := Size b <? Size a.

(** What the caller can observe of a run of [Search] besides the returned
    values: the timer it starts, the goroutines it starts, and where it
    blocks. *)
Inductive select_case : Type := case_doneChan | case_timeoutChan.

Inductive event : Type :=
  | ev_time_After (seconds : Z)
  | ev_go (provider_index : nat)
  | ev_select (woken_by : select_case).

Record SearchRun : Type := mkSearchRun
  { run_results : slice XdccFileInfo;
    run_err : error;
    run_events : list event }.

(** [doneChan] is closed once every goroutine is done; otherwise the
    caller is woken by the timer. *)
Definition select_outcome (n : nat) (sch : Schedule) : select_case :=
  if forallb (λ i, bool_decide (i ∈ arrival sch)) (seq 0 n)
  then case_doneChan else case_timeoutChan.

Definition Search (sch : Schedule) (registry : ProviderAggregator)
    (keywords : list string) : SearchRun :=
  let n := length (providerList registry) in
  if (n =? 0)%nat then
    {| run_results := Slice [] 0; run_err := None; run_events := [] |}
  else
    let st := run_providers sch registry keywords in
    let results :=
      foldl append (make_slice MaxResults)
        (range_values (range_order sch) (allResults st)) in
    let results := sort_Slice less_by_Size results in
    {| run_results := results;
       run_err := None;
       run_events :=
         ev_time_After 10 :: map ev_go (seq 0 n)
           ++ [ev_select (select_outcome n sch)] |}.

(** The batches that the goroutines of [arrival] have written, in the
    order in which they are written. *)
Definition merged_batches (sch : Schedule) (registry : ProviderAggregator)
    (keywords : list string) : list (list XdccFileInfo) :=
  omap (merged_batch registry keywords) (arrival sch).

(** The writes that the caller's [range] gets to see, in the order in
    which they are made. *)
Definition observed_writes (sch : Schedule) (registry : ProviderAggregator)
    (keywords : list string) : list XdccFileInfo :=
  concat (merged_batches sch registry keywords)
  ++ seen_writes sch registry keywords.

(** The last record written for locator [k] in a sequence of writes. *)
Definition last_write (k : xdcc.IRCFile) (writes : list XdccFileInfo)
  : option XdccFileInfo :=
  list.last (filter (λ w, URL w = k) writes).

(** ** Floating point

    [parseFileSize] and [FormatSize] compute with [float64].  A finite
    floating-point number is a dyadic rational; [Fin m e] is the number
    [m * 2^e].  The sign of zero is not represented (no operation of the
    program observes it).  Operations round to nearest, ties to even, as
    IEEE 754 prescribes; the rounding is computed on exact integers. *)
Module ieee.

Record format : Type := mkFormat
  { prec : Z;   (* bits of the significand *)
    emin : Z;   (* exponent of the least positive number *)
    emax : Z }. (* finite numbers are below 2^emax *)

Definition binary32 : format := {| prec := 24; emin := -149; emax := 128 |}.
Definition binary64 : format := {| prec := 53; emin := -1074; emax := 1024 |}.

(** [2^k] for [0 <= k], and [1] otherwise: [x * 2^k] is the fraction
    [(x * pow2 k) / pow2 (- k)]. *)
Definition pow2 (k : Z) : Z := 2 ^ Z.max 0 k.

(** For [0 < a] and [0 < b], the integer [l] with [2^l <= a/b < 2^(l+1)]. *)
Definition floor_log2 (a b : Z) : Z :=
  let l := Z.log2 a - Z.log2 b in
  if b * pow2 l <=? a * pow2 (- l) then l else l - 1.

(** The integer nearest to [a/b] ([0 <= a], [0 < b]), ties to even. *)
Definition round_half_even (a b : Z) : Z :=
  let q := a / b in
  let r := a mod b in
  if 2 * r <? b then q
  else if b <? 2 * r then q + 1
  else if Z.even q then q else q + 1.

(** The number of the format nearest to [a/b] ([0 <= a], [0 < b]), as
    [(m, e)] for [m * 2^e]; [None] when it is too large for the format. *)
Definition nearest (fmt : format) (a b : Z) : option (Z * Z) :=
  if a =? 0 then Some (0, 0)
  else
    let e := Z.max (floor_log2 a b - (prec fmt - 1)) (emin fmt) in
    let m := round_half_even (a * pow2 (- e)) (b * pow2 e) in
    if emax fmt <=? Z.log2 m + e then None else Some (m, e).

Inductive float64 : Type :=
  | NaN
  | Inf (negative : bool)
  | Fin (m e : Z).

Definition round_to (fmt : format) (negative : bool) (a b : Z) : float64 :=
  match nearest fmt a b with
  | Some (m, e) => Fin (if negative then - m else m) e
  | None => Inf negative
  end.

(** [x * y] on [float64]. *)
Definition mul (x y : float64) : float64 :=
  match x, y with
  | NaN, _ | _, NaN => NaN
  | Inf s, Inf t => Inf (xorb s t)
  | Inf s, Fin m _ | Fin m _, Inf s =>
      if m =? 0 then NaN else Inf (xorb s (m <? 0))
  | Fin m1 e1, Fin m2 e2 =>
      round_to binary64 (xorb (m1 <? 0) (m2 <? 0))
        (Z.abs (m1 * m2) * pow2 (e1 + e2)) (pow2 (- (e1 + e2)))
  end.

(** [x / y] on [float64] (a zero divisor counts as positive). *)
Definition div (x y : float64) : float64 :=
  match x, y with
  | NaN, _ | _, NaN => NaN
  | Inf _, Inf _ => NaN
  | Inf s, Fin m _ => Inf (xorb s (m <? 0))
  | Fin _ _, Inf _ => Fin 0 0
  | Fin m1 e1, Fin m2 e2 =>
      if m2 =? 0 then (if m1 =? 0 then NaN else Inf (m1 <? 0))
      else
        round_to binary64 (xorb (m1 <? 0) (m2 <? 0))
          (Z.abs m1 * pow2 (e1 - e2)) (Z.abs m2 * pow2 (e2 - e1))
  end.

(** The conversion [float64(n)] of an integer. *)
Definition of_int (n : Z) : float64 :=
  round_to binary64 (n <? 0) (Z.abs n) 1.

Definition int64_min : Z := - 2 ^ 63.
Definition int64_max : Z := 2 ^ 63 - 1.

(** [m * 2^e] with its fraction discarded. *)
Definition truncate (m e : Z) : Z :=
  if 0 <=? e then m * 2 ^ e else m ÷ 2 ^ (- e).

(** The conversion [int64(x)]: the fraction is discarded.  When the
    result does not fit (or [x] is not a number) the language leaves the
    value to the implementation; the value given here is the one of the
    amd64 port.  The theorems that rely on this conversion assume that
    the result fits. *)
Definition to_int64 (x : float64) : Z :=
  match x with
  | Fin m e =>
      let t := truncate m e in
      if (int64_min <=? t) && (t <=? int64_max) then t else int64_min
  | _ => int64_min
  end.

End ieee.

Import ieee.

(** ** [strconv.ParseFloat]

    The function belongs to Go's library.  The definitions below follow
    its reader ([special], [readFloat], [underscoreOK]) for the grammar of
    the accepted strings, and its documentation for the value: the nearest
    floating-point number of the requested size, ties to even, and a range
    error with an infinity when that number is too large. *)
Module strconv.

Definition byte (c : ascii) : Z := Z.of_N (N_of_ascii c).

Definition is_digit (c : ascii) : bool := (48 <=? byte c) && (byte c <=? 57).

(** [c | ('x' - 'X')] *)
Definition lower (c : ascii) : ascii :=
  ascii_of_N (N.lor (N_of_ascii c) 32).

Definition is_hex_letter (c : ascii) : bool :=
  (97 <=? byte (lower c)) && (byte (lower c) <=? 102).

Definition digit_value (c : ascii) : Z :=
  if is_digit c then byte c - 48 else byte (lower c) - 97 + 10.

(** [commonPrefixLenIgnoreCase(s, prefix)]; [prefix] is in lower case. *)
Fixpoint commonPrefixLenIgnoreCase (s prefix : string) : nat :=
  match s, prefix with
  | String c s', String p prefix' =>
      let c := if (65 <=? byte c) && (byte c <=? 90)
               then ascii_of_N (N_of_ascii c + 32) else c in
      if Ascii.eqb c p then S (commonPrefixLenIgnoreCase s' prefix') else O
  | _, _ => O
  end.

(** [special(s)]: the infinities and NaN, with the number of bytes read. *)
Definition special (s : string) : option (float64 * nat) :=
  let inf (negative : bool) (nsign : nat) (s : string) :=
    let n := commonPrefixLenIgnoreCase s "infinity" in
    let n := if (3 <? n)%nat && (n <? 8)%nat then 3%nat else n in
    if (n =? 3)%nat || (n =? 8)%nat then Some (Inf negative, (nsign + n)%nat)
    else None in
  match s with
  | String c s' =>
      if Ascii.eqb c "+" then inf false 1%nat s'
      else if Ascii.eqb c "-" then inf true 1%nat s'
      else if Ascii.eqb c "i" || Ascii.eqb c "I" then inf false 0%nat s
      else if Ascii.eqb c "n" || Ascii.eqb c "N" then
        if (commonPrefixLenIgnoreCase s "nan" =? 3)%nat then Some (NaN, 3%nat)
        else None
      else None
  | EmptyString => None
  end.

(** The scan of [underscoreOK] over the number proper; [saw] is the
    class of the last byte: ["0"] a digit or base prefix, ["_"] an
    underscore, ["!"] anything else, ["^"] the beginning. *)
Fixpoint underscore_scan (hex : bool) (saw : ascii) (s : string) : bool :=
  match s with
  | String c s' =>
      if is_digit c || (hex && is_hex_letter c) then underscore_scan hex "0" s'
      else if Ascii.eqb c "_" then
        if Ascii.eqb saw "0" then underscore_scan hex "_" s' else false
      else if Ascii.eqb saw "_" then false
      else underscore_scan hex "!" s'
  | EmptyString => negb (Ascii.eqb saw "_")
  end.

Definition underscoreOK (s : string) : bool :=
  let s := match s with
           | String c s' => if Ascii.eqb c "-" || Ascii.eqb c "+" then s' else s
           | EmptyString => s
           end in
  match s with
  | String c0 (String c1 s') =>
      if Ascii.eqb c0 "0"
         && (Ascii.eqb (lower c1) "b" || Ascii.eqb (lower c1) "o"
             || Ascii.eqb (lower c1) "x")
      then underscore_scan (Ascii.eqb (lower c1) "x") "0" s'
      else underscore_scan false "^" s
  | _ => underscore_scan false "^" s
  end.

(** What the digit loop of [readFloat] has read. *)
Record digits : Type := mkDigits
  { mantissa : Z;          (* all the digits, as an integer *)
    fraction_digits : Z;   (* digits after the point *)
    sawdot : bool;
    sawdigits : bool;
    underscores : bool }.

Fixpoint read_digits (hex : bool) (d : digits) (s : string) : digits * string :=
  match s with
  | String c s' =>
      if Ascii.eqb c "_" then
        read_digits hex
          (mkDigits (mantissa d) (fraction_digits d) (sawdot d) (sawdigits d) true) s'
      else if Ascii.eqb c "." then
        if sawdot d then (d, s)
        else
          read_digits hex
            (mkDigits (mantissa d) (fraction_digits d) true (sawdigits d)
               (underscores d)) s'
      else if is_digit c || (hex && is_hex_letter c) then
        read_digits hex
          (mkDigits (mantissa d * (if hex then 16 else 10) + digit_value c)
             (if sawdot d then fraction_digits d + 1 else fraction_digits d)
             (sawdot d) true (underscores d)) s'
      else (d, s)
  | EmptyString => (d, s)
  end.

(** The digits of the exponent: [if e < 10000 { e = e*10 + digit }]. *)
Fixpoint read_exponent (e : Z) (underscores : bool) (s : string)
  : Z * bool * string :=
  match s with
  | String c s' =>
      if Ascii.eqb c "_" then read_exponent e true s'
      else if is_digit c then
        read_exponent (if e <? 10000 then e * 10 + digit_value c else e)
          underscores s'
      else (e, underscores, s)
  | EmptyString => (e, underscores, s)
  end.

(** A number read by [readFloat]: it stands for
    [mant * base^(- frac) * (if hex then 2 else 10)^exp]. *)
Record number : Type := mkNumber
  { negative : bool;
    hex : bool;
    mant : Z;
    frac : Z;
    exp : Z }.

(** [readFloat(s)]: the number and the bytes left unread, or [None] when
    it reports [!ok]. *)
Definition readFloat (s : string) : option (number * string) :=
  match s with
  | EmptyString => None
  | String c0 s0 =>
      let '(neg, s1) :=
        if Ascii.eqb c0 "+" then (false, s0)
        else if Ascii.eqb c0 "-" then (true, s0)
        else (false, s) in
      let '(hex, s2) :=
        match s1 with
        | String z (String x (String c r)) =>
            if Ascii.eqb z "0" && Ascii.eqb (lower x) "x"
            then (true, String c r) else (false, s1)
        | _ => (false, s1)
        end in
      let '(d, s3) := read_digits hex (mkDigits 0 0 false false false) s2 in
      if negb (sawdigits d) then None
      else
        let finish (exp : Z) (us : bool) (rest : string) :=
          let read := substring 0 (String.length s - String.length rest) s in
          if us && negb (underscoreOK read) then None
          else Some (mkNumber neg hex (mantissa d) (fraction_digits d) exp, rest) in
        match s3 with
        | String c s4 =>
            if Ascii.eqb (lower c) (if hex then "p" else "e")%char then
              match s4 with
              | EmptyString => None
              | String c' s5 =>
                  let '(esign, s6) :=
                    if Ascii.eqb c' "+" then (1, s5)
                    else if Ascii.eqb c' "-" then (-1, s5)
                    else (1, s4) in
                  match s6 with
                  | String c'' _ =>
                      if is_digit c'' then
                        let '(e, us, rest) := read_exponent 0 (underscores d) s6 in
                        finish (e * esign) us rest
                      else None
                  | EmptyString => None
                  end
              end
            else if hex then None
            else finish 0 (underscores d) s3
        | EmptyString =>
            if hex then None else finish 0 (underscores d) s3
        end
  end.

(** The exact value of a number, as a fraction of non-negative integers. *)
Definition number_fraction (n : number) : Z * Z :=
  if hex n then
    let k := exp n - 4 * frac n in
    (mant n * pow2 k, pow2 (- k))
  else
    let k := exp n - frac n in
    (mant n * 10 ^ Z.max 0 k, 10 ^ Z.max 0 (- k)).

Definition syntaxError (s : string) : error :=
  Some (NumError "ParseFloat" s ErrSyntax).
Definition rangeError (s : string) : error :=
  Some (NumError "ParseFloat" s ErrRange).

(** [atof32(s)] followed by the conversion to [float64], which is exact. *)
Definition atof32 (s : string) : float64 * nat * error :=
  match special s with
  | Some (val, n) => (val, n, None)
  | None =>
      match readFloat s with
      | None => (Fin 0 0, 0%nat, syntaxError s)
      | Some (num, rest) =>
          let n := (String.length s - String.length rest)%nat in
          let '(a, b) := number_fraction num in
          match nearest binary32 a b with
          | Some (m, e) => (Fin (if negative num then - m else m) e, n, None)
          | None => (Inf (negative num), n, rangeError s)
          end
      end
  end.

(** [ParseFloat(s, 32)]. *)
Definition ParseFloat32 (s : string) : float64 * error :=
  let '(f, n, err) := atof32 s in
  if negb (n =? String.length s)%nat
     && match err with
        | None => true
        | Some (NumError _ _ ErrSyntax) => false
        | Some _ => true
        end
  then (Fin 0 0, syntaxError s)
  else (f, err).

End strconv.

(** ** [parseFileSize] *)

(** [sizeStr[len(sizeStr)-1]] and [sizeStr[:len(sizeStr)-1]], for a
    non-empty string. *)
Fixpoint split_last (c : ascii) (s : string) : string * ascii :=
  match s with
  | EmptyString => (EmptyString, c)
  | String c' s' => let '(init, l) := split_last c' s' in (String c init, l)
  end.

Definition parseFileSize (sizeStr : string) : Z * error :=
  match sizeStr with
  | EmptyString => (-1, Some (errors_New "empty string"))
  | String c s =>
      let '(sizePart, lastChar) := split_last c s in
      match strconv.ParseFloat32 sizePart with
      | (_, Some e) => (-1, Some e)
      | (size, None) =>
          if Ascii.eqb lastChar "G" then
            (to_int64 (mul size (of_int GigaByte)), None)
          else if Ascii.eqb lastChar "M" then
            (to_int64 (mul size (of_int MegaByte)), None)
          else if Ascii.eqb lastChar "K" then
            (to_int64 (mul size (of_int KiloByte)), None)
          else (-1, Some (errors_New ("unable to parse: " +:+ sizeStr)))
      end
  end.

(** ** [fmt.Sprintf], for the verbs the program uses *)
Module fmt.

(** [%d] *)
Definition verb_d (n : Z) : string := NilZero.string_of_int (Z.to_int n).

Definition digit_char (d : Z) : ascii := ascii_of_N (Z.to_N (48 + d)).

(** [%.2f]: the decimal with two digits after the point nearest to the
    exact value of the number, ties to even. *)
Definition verb_2f (x : float64) : string :=
  match x with
  | NaN => "NaN"
  | Inf false => "+Inf"
  | Inf true => "-Inf"
  | Fin m e =>
      let n := round_half_even (Z.abs m * 100 * pow2 e) (pow2 (- e)) in
      (if m <? 0 then "-" else "")
        +:+ verb_d (n / 100)
        +:+ String "." (String (digit_char (n mod 100 / 10))
                         (String (digit_char (n mod 10)) ""))
  end.

End fmt.

(** ** Package [tui]: [FormatSize] *)

(** The copy in [tui/utils.go]. *)
Module tui_utils.

Definition FormatSize (size : Z) : string :=
  if size <? 0 then "--"
  else
    let result :=
      if GigaByte <=? size then
        fmt.verb_2f (div (of_int size) (of_int GigaByte)) +:+ "GB"
      else if MegaByte <=? size then
        fmt.verb_2f (div (of_int size) (of_int MegaByte)) +:+ "MB"
      else if KiloByte <=? size then
        fmt.verb_2f (div (of_int size) (of_int KiloByte)) +:+ "KB"
      else fmt.verb_d size +:+ "B" in
    result.

End tui_utils.

(** The copy in [tui/model.go] ("utility copied from cmd/main.go"). *)
Module tui_model.

Definition FormatSize (size : Z) : string :=
  if size <? 0 then "--"
  else if GigaByte <=? size then
    fmt.verb_2f (div (of_int size) (of_int GigaByte)) +:+ "GB"
  else if MegaByte <=? size then
    fmt.verb_2f (div (of_int size) (of_int MegaByte)) +:+ "MB"
  else if KiloByte <=? size then
    fmt.verb_2f (div (of_int size) (of_int KiloByte)) +:+ "KB"
  else fmt.verb_d size +:+ "B".

End tui_model.

(** The suffix the thresholds select for a non-negative size. *)
Definition unit_suffix (size : Z) : string :=
  if GigaByte <=? size then "GB"
  else if MegaByte <=? size then "MB"
  else if KiloByte <=? size then "KB"
  else "B".

Fixpoint all_digits (s : string) : bool :=
  match s with
  | EmptyString => true
  | String c s' => strconv.is_digit c && all_digits s'
  end.

(** A string made of decimal digits and at most one point, with a digit
    on each side of the point if there is one. *)
Fixpoint is_number (s : string) : bool :=
  match s with
  | EmptyString => false
  | String c s' =>
      strconv.is_digit c
      && match s' with
         | EmptyString => true
         | String c' frac =>
             if Ascii.eqb c' "." then negb (String.eqb frac "") && all_digits frac
             else is_number s'
         end
  end.

(** ** Notions used to state the properties *)

(** The multiplier a unit letter stands for. *)
Definition unit_of_letter (c : ascii) : option Z :=
  if Ascii.eqb c "G" then Some GigaByte
  else if Ascii.eqb c "M" then Some MegaByte
  else if Ascii.eqb c "K" then Some KiloByte
  else None.

(** [r] is the number [m * 2^e] rounded toward zero: it has the sign of
    the number and [|r| <= |m * 2^e| < |r| + 1]. *)
Definition is_truncation (r m e : Z) : Prop :=
  0 <= r * m
  ∧ Z.abs r * pow2 (- e) <= Z.abs m * pow2 e < (Z.abs r + 1) * pow2 (- e).

(** The float fits [int64] once its fraction is discarded. *)
Definition fits_int64 (x : float64) : Prop :=
  match x with
  | Fin m e => int64_min <= truncate m e <= int64_max
  | _ => False
  end.

(** ** Sample data for the examples *)

Definition sample_locator (pack : Z) : xdcc.IRCFile :=
  xdcc.mkIRCFile "irc.example.net" "#packs" "bot" pack.

Definition sample_record (pack : Z) (name : string) (size : Z) : XdccFileInfo :=
  mkXdccFileInfo (sample_locator pack) name size pack.

(** A provider that answers every query with the same batch. *)
Definition provider_of (batch : list XdccFileInfo) : XdccSearchProvider :=
  mkProvider (λ _, (batch, None)).

(** A provider that fails, and returns a record along with its error. *)
Definition failing_provider (msg : string) : XdccSearchProvider :=
  mkProvider (λ _, ([sample_record 9 "lost" 99], Some (errors_New msg))).

Definition two_batches : ProviderAggregator :=
  NewProviderAggregator
    [ provider_of [sample_record 1 "a" 10; sample_record 2 "b" 30;
                   sample_record 1 "a'" 20];
      provider_of [sample_record 2 "b'" 30; sample_record 3 "c" 30];
      failing_provider "boom" ].

(** More distinct records than [MaxResults]. *)
Definition many_records : list XdccFileInfo :=
  (λ n, sample_record (Z.of_nat n) "pack" 1) <$> seq 0 (S MaxResults).

Definition big_provider : ProviderAggregator :=
  NewProviderAggregator [provider_of many_records].

(** One provider, which answers two records, and two calls that time out
    while its goroutine is writing them: in the first the caller's
    [range] sees the first record and returns before the second is
    written; in the second the first record is written when the [range]
    is over. *)
Definition slow_provider : ProviderAggregator :=
  NewProviderAggregator
    [provider_of [sample_record 1 "a" 10; sample_record 2 "b" 20]].

Definition half_written : Schedule :=
  {| arrival := []; range_order := []; late := [mkLateWrite 0 0 true] |}.

Definition written_after_range : Schedule :=
  {| arrival := []; range_order := []; late := [mkLateWrite 0 0 false] |}.

(** ** The sequential aggregator

    The second file of package [search] (marked [//go:build ignore]) holds
    an aggregator that asks the providers one after the other. *)
Module sequential.

Record SearchResult : Type := mkSearchResult
  { Name : string;
    Size : Z;
    URL : xdcc.IRCFile }.

Record Provider : Type := mkProvider
  { provider_Search : list string → list SearchResult * error }.

Record ProviderAggregator : Type := mkAggregator
  { providers : list Provider }.

Definition NewProviderAggregator (providers : list Provider)
  : ProviderAggregator :=
  {| providers := providers |}.

(** [append(s, xs...)]: with nothing to add the slice is returned as it
    is, [nil] included. *)
Definition append_all {A} (s : slice A) (xs : list A) : slice A :=
  match xs with
  | [] => s
  | _ :: _ =>
      match s with
      | nil_slice => Slice xs (length xs)
      | Slice l c =>
          if (length l + length xs <=? c)%nat then Slice (l ++ xs) c
          else Slice (l ++ xs) (length l + length xs)
      end
  end.

(** One turn of the loop over the providers. *)
Definition ask (keywords : list string) (results : slice SearchResult)
    (provider : Provider) : slice SearchResult :=
  match provider_Search provider keywords with
  | (_, Some _) => results
  | (providerResults, None) => append_all results providerResults
  end.

Definition Search (a : ProviderAggregator) (keywords : list string)
  : slice SearchResult * error :=
  (foldl (ask keywords) nil_slice (providers a), None).

(** The batches of the providers that returned a [nil] error, in the order
    of registration. *)
Definition batches (a : ProviderAggregator) (keywords : list string)
  : list (list SearchResult) :=
  omap
    (λ provider,
       match provider_Search provider keywords with
       | (providerResults, None) => Some providerResults
       | (_, Some _) => None
       end)
    (providers a).

End sequential.

(** ** Package [tui]: the list of results ([tui/model.go])

    The fields of [Model] that the keys of the result list read and write.
    The text input, the map of downloads and the aggregator are not
    represented: the code below does not touch them. *)
Module tui_list.

Inductive view : Type := viewSearch | viewDownloads.

Definition pageSize : Z := 20.

Record Model : Type := mkModel
  { results : list XdccFileInfo;
    cursor : Z;
    selected : gset Z;
    page : Z;
    status : string;
    busy : bool;
    searchDone : bool;
    currentView : view }.

(** Go's [int] is 64 bits wide here; sums and products wrap around. *)
Definition wrap (z : Z) : Z := (z + 2 ^ 63) mod 2 ^ 64 - 2 ^ 63.

Definition len_results (m : Model) : Z := Z.of_nat (length (results m)).

Definition set_cursor_page (m : Model) (cursor page : Z) : Model :=
  {| results := results m; cursor := cursor; selected := selected m;
     page := page; status := status m; busy := busy m;
     searchDone := searchDone m; currentView := currentView m |}.

Definition set_selected (m : Model) (selected : gset Z) : Model :=
  {| results := results m; cursor := cursor m; selected := selected;
     page := page m; status := status m; busy := busy m;
     searchDone := searchDone m; currentView := currentView m |}.

Definition set_currentView (m : Model) (v : view) : Model :=
  {| results := results m; cursor := cursor m; selected := selected m;
     page := page m; status := status m; busy := busy m;
     searchDone := searchDone m; currentView := v |}.

Definition is_viewSearch (v : view) : bool :=
  match v with viewSearch => true | viewDownloads => false end.

(** [case "tab"] *)
Definition key_tab (m : Model) : Model :=
  set_currentView m
    (if is_viewSearch (currentView m) then viewDownloads else viewSearch).

(** [case "left", "h"] *)
Definition key_left (m : Model) : Model :=
  if is_viewSearch (currentView m) && (0 <? cursor m) then
    let cursor' :=
      if pageSize <=? cursor m then wrap (cursor m - pageSize) else 0 in
    set_cursor_page m cursor' (cursor' ÷ pageSize)
  else m.

(** [case "right", "l"] *)
Definition key_right (m : Model) : Model :=
  if is_viewSearch (currentView m) && (cursor m <? wrap (len_results m - 1)) then
    let cursor' :=
      if wrap (cursor m + pageSize) <? len_results m
      then wrap (cursor m + pageSize)
      else wrap (len_results m - 1) in
    set_cursor_page m cursor' (cursor' ÷ pageSize)
  else m.

(** [case "up", "k"] *)
Definition key_up (m : Model) : Model :=
  if negb (is_viewSearch (currentView m)) then m
  else if len_results m =? 0 then m
  else
    let cursor' := if 0 <? cursor m then wrap (cursor m - 1) else cursor m in
    let page' :=
      if cursor' <? wrap (page m * pageSize) then wrap (page m - 1)
      else page m in
    set_cursor_page m cursor' page'.

(** [case "down", "j"] *)
Definition key_down (m : Model) : Model :=
  if negb (is_viewSearch (currentView m)) then m
  else if len_results m =? 0 then m
  else
    let cursor' :=
      if cursor m <? wrap (len_results m - 1) then wrap (cursor m + 1)
      else cursor m in
    let page' :=
      if wrap (wrap (page m + 1) * pageSize) <=? cursor'
      then wrap (page m + 1) else page m in
    set_cursor_page m cursor' page'.

(** [case " "]: the row under the cursor is selected, or deselected if it
    was selected. *)
Definition key_space (m : Model) : Model :=
  if negb (is_viewSearch (currentView m)) then m
  else if len_results m =? 0 then m
  else if decide (cursor m ∈ selected m)
       then set_selected m (selected m ∖ {[cursor m]})
       else set_selected m ({[cursor m]} ∪ selected m).

Inductive nav_key : Type :=
  | Tab | Left | Right | Up | Down | Space.

(** What [Update] does to these fields on one of the keys above (["h"],
    ["l"], ["k"], ["j"] are the same as the arrows).  While a search is
    running every key is ignored. *)
Definition Update_key (m : Model) (k : nav_key) : Model :=
  if busy m then m
  else
    match k with
    | Tab => key_tab m
    | Left => key_left m
    | Right => key_right m
    | Up => key_up m
    | Down => key_down m
    | Space => key_space m
    end.

(** [Update] on the message that carries the results of a search.
    [Error] is the text of an error, [Sprintf_d] the verb [%d]. *)
Definition Update_searchResults (Error : error_value → string)
    (m : Model) (msg_results : slice XdccFileInfo) (msg_err : error) : Model :=
  match msg_err with
  | Some e =>
      {| results := results m; cursor := cursor m; selected := selected m;
         page := page m; status := "search failed: " +:+ Error e;
         busy := false; searchDone := true; currentView := currentView m |}
  | None =>
      let sorted := sort_Slice less_by_Size msg_results in
      {| results := elems sorted; cursor := 0; selected := ∅;
         page := page m;
         status := "found " +:+ fmt.verb_d (Z.of_nat (len sorted)) +:+ " results";
         busy := false; searchDone := true; currentView := currentView m |}
  end.

(** [for idx := range m.selected]: the indices named by [order] first,
    then the others; Go leaves the order open. *)
Definition range_selected (order : list Z) (s : gset Z) : list Z :=
  let first := filter (λ i, i ∈ s) (remove_dups order) in
  first ++ filter (λ i, i ∉ first) (elements s).

(** [indicesToDownload]: [None] is the [nil] slice. *)
Definition indicesToDownload (order : list Z) (m : Model) : option (list Z) :=
  if len_results m =? 0 then None
  else if decide (size (selected m) = 0%nat) then Some [cursor m]
  else Some (range_selected order (selected m)).

(** The rows that [View] draws: from [page * pageSize], at most
    [pageSize] of them. *)
Definition visible_rows (m : Model) : Z * Z :=
  let start := wrap (page m * pageSize) in
  let end_ := wrap (start + pageSize) in
  (start, if len_results m <? end_ then len_results m else end_).

(** What holds of the list at every moment: the cursor is on a row (or at
    0 when there is none) and on the page that is shown, every selected
    index is a row, and the list is short enough for [int] not to wrap. *)
Definition list_ok (m : Model) : Prop :=
  len_results m + pageSize < 2 ^ 63
  ∧ 0 <= cursor m
  ∧ (cursor m < len_results m ∨ cursor m = 0)
  ∧ page m * pageSize <= cursor m < (page m + 1) * pageSize
  ∧ ∀ i, i ∈ selected m → 0 <= i < len_results m.

(** [NewModel]: nothing found yet, nothing selected. *)
Definition NewModel : Model :=
  {| results := []; cursor := 0; selected := ∅; page := 0;
     status := "Enter keywords and press <enter> to search | Tab: switch view";
     busy := false; searchDone := false; currentView := viewSearch |}.

End tui_list.

(** A list of 45 rows, the cursor on the last row of the second page. *)
Definition sample_list : tui_list.Model :=
  tui_list.mkModel
    ((λ n, sample_record (Z.of_nat n) "pack" (Z.of_nat n)) <$> seq 0 45)
    39 {[3; 41]} 1 "found 45 results" false true tui_list.viewSearch.

(** ** [ParseFloat(s, 64)] *)
Module strconv64.

(** [atof64(s)]: as [atof32], with the numbers of [float64]. *)
Definition atof64 (s : string) : float64 * nat * error :=
  match strconv.special s with
  | Some (val, n) => (val, n, None)
  | None =>
      match strconv.readFloat s with
      | None => (Fin 0 0, 0%nat, strconv.syntaxError s)
      | Some (num, rest) =>
          let n := (String.length s - String.length rest)%nat in
          let '(a, b) := strconv.number_fraction num in
          match nearest binary64 a b with
          | Some (m, e) =>
              (Fin (if strconv.negative num then - m else m) e, n, None)
          | None => (Inf (strconv.negative num), n, strconv.rangeError s)
          end
      end
  end.

Definition ParseFloat64 (s : string) : float64 * error :=
  let '(f, n, err) := atof64 s in
  if negb (n =? String.length s)%nat
     && match err with
        | None => true
        | Some (NumError _ _ ErrSyntax) => false
        | Some _ => true
        end
  then (Fin 0 0, strconv.syntaxError s)
  else (f, err).

End strconv64.

(** ** Package [strings]: the functions that compare bytes *)
Module strings.

Definition HasPrefix (s prefix : string) : bool := String.prefix prefix s.

Definition HasSuffix (s suffix : string) : bool :=
  (String.length suffix <=? String.length s)%nat
  && String.eqb
       (substring (String.length s - String.length suffix)
          (String.length suffix) s)
       suffix.

Fixpoint Contains (s substr : string) : bool :=
  HasPrefix s substr
  || match s with
     | String _ s' => Contains s' substr
     | EmptyString => false
     end.

(** [strings.ToLower] and [strings.TrimSpace] follow Unicode.  On strings
    of ASCII bytes they are the two functions below; the code that calls
    them is modelled for any two functions in their place. *)
Definition ascii_lower (c : ascii) : ascii :=
  if (65 <=? strconv.byte c) && (strconv.byte c <=? 90)
  then ascii_of_N (N_of_ascii c + 32) else c.

Fixpoint ascii_ToLower (s : string) : string :=
  match s with
  | String c s' => String (ascii_lower c) (ascii_ToLower s')
  | EmptyString => EmptyString
  end.

Definition ascii_space (c : ascii) : bool :=
  ((9 <=? strconv.byte c) && (strconv.byte c <=? 13)) || (strconv.byte c =? 32).

Fixpoint trim_left (s : string) : string :=
  match s with
  | String c s' => if ascii_space c then trim_left s' else s
  | EmptyString => EmptyString
  end.

Fixpoint trim_right (s : string) : string :=
  match s with
  | String c s' =>
      match trim_right s' with
      | EmptyString => if ascii_space c then EmptyString else String c EmptyString
      | t => String c t
      end
  | EmptyString => EmptyString
  end.

Definition ascii_TrimSpace (s : string) : string := trim_right (trim_left s).

End strings.

(** ** Package [tui]: the filter of the result list

    The later [tui/model.go] keeps, beside the results, the results that
    pass a filter typed by the user. *)
Module tui_filter.

(** What a function returns, unless it panics. *)
Inductive outcome (A : Type) : Type :=
  | panic
  | ret (a : A).
Arguments panic {A}.
Arguments ret {A} a.

Record Model : Type := mkModel
  { filterInput : string;   (* the value of the filter input *)
    results : list XdccFileInfo;
    filteredResults : list XdccFileInfo;
    cursor : Z;
    selected : gset Z;
    page : Z;
    status : string;
    busy : bool;
    searchDone : bool;
    filterMode : bool;
    currentView : tui_list.view }.

Definition len_of {A} (l : list A) : Z := Z.of_nat (length l).

(** [getCurrentResults]; the receiver is a pointer, [None] is [nil]. *)
Definition getCurrentResults (m : option Model) : list XdccFileInfo :=
  match m with
  | None => []
  | Some m =>
      if 0 <? len_of (filteredResults m) then filteredResults m
      else results m
  end.

(** [s[i] == '.' || s[i] >= '0' && s[i] <= '9'] *)
Definition is_number_byte (c : ascii) : bool :=
  Ascii.eqb c "." || ((48 <=? strconv.byte c) && (strconv.byte c <=? 57)).

(** The [i] that the loop of [parseSizeFilter] stops at. *)
Fixpoint number_length (s : string) : nat :=
  match s with
  | String c s' => if is_number_byte c then S (number_length s') else O
  | EmptyString => O
  end.

Section with_strings.
(** [strings.TrimSpace], [strings.ToLower], and the text of an error. *)
Variables (TrimSpace ToLower : string → string) (Error : error_value → string).

Definition parseSizeFilter (s : string) : Z * error :=
  let s := TrimSpace (ToLower s) in
  if String.eqb s "" then (0, Some (errors_New "empty size"))
  else
    let i := number_length s in
    if (i =? 0)%nat then (0, Some (errors_New "no number found"))
    else
      let numberStr := substring 0 i s in
      match strconv64.ParseFloat64 numberStr with
      | (_, Some err) =>
          (0, Some (errors_New ("invalid number: " +:+ Error err)))
      | (size, None) =>
          if (String.length s <=? i)%nat then (to_int64 size, None)
          else
            let unit := TrimSpace (substring i (String.length s - i) s) in
            if strings.HasPrefix unit "k" then
              (to_int64 (mul size (of_int 1024)), None)
            else if strings.HasPrefix unit "m" then
              (to_int64 (mul (mul size (of_int 1024)) (of_int 1024)), None)
            else if strings.HasPrefix unit "g" then
              (to_int64
                 (mul (mul (mul size (of_int 1024)) (of_int 1024)) (of_int 1024)),
               None)
            else (0, Some (errors_New ("unknown unit: " +:+ unit)))
      end.

(** The records that a filter keeps.  [filter] is not empty. *)
Definition filtered_by (filter : string) (results : list XdccFileInfo)
  : list XdccFileInfo :=
  match filter with
  | String c rest =>
      if Ascii.eqb c ">" || Ascii.eqb c "<" then
        let compareFunc (a b : Z) : bool :=
          if Ascii.eqb c "<" then a <? b else b <? a in
        match parseSizeFilter (TrimSpace rest) with
        | (size, None) => List.filter (λ r, compareFunc (Size r) size) results
        | (_, Some _) => []
        end
      else if strings.HasPrefix filter "." then
        let ext := ToLower filter in
        List.filter (λ r, strings.HasSuffix (ToLower (Name r)) ext) results
      else
        let filterLower := ToLower filter in
        List.filter (λ r, strings.Contains (ToLower (Name r)) filterLower) results
  | EmptyString => []
  end.

Definition applyFilter (m : Model) : Model :=
  let filter := TrimSpace (filterInput m) in
  if String.eqb filter "" then
    {| filterInput := filterInput m; results := results m;
       filteredResults := []; cursor := 0; selected := selected m;
       page := 0; status := "Filter cleared"; busy := busy m;
       searchDone := searchDone m; filterMode := filterMode m;
       currentView := currentView m |}
  else
    let filtered := filtered_by filter (results m) in
    {| filterInput := filterInput m; results := results m;
       filteredResults := filtered; cursor := 0; selected := selected m;
       page := 0;
       status := "Filter: " +:+ filter +:+ " (" +:+ fmt.verb_d (len_of filtered)
                 +:+ " results)";
       busy := busy m; searchDone := searchDone m; filterMode := filterMode m;
       currentView := currentView m |}.

End with_strings.

(** [r.Name == row.Name && r.Size == row.Size] *)
Definition same_file (row r : XdccFileInfo) : Prop :=
  Name r = Name row ∧ Size r = Size row.

#[global] Instance same_file_dec (row r : XdccFileInfo) : Decision (same_file row r).
Proof. unfold same_file. apply _. Defined.

(** [indicesToDownload]: [None] is the [nil] slice.  With a filter and
    nothing selected, the row under the cursor is looked up by name and
    size among all the results; [m.filteredResults[m.cursor]] is read at
    each turn of that loop. *)
Definition indicesToDownload (order : list Z) (m : Model)
  : outcome (option (list Z)) :=
  if len_of (getCurrentResults (Some m)) =? 0 then ret None
  else if decide (size (selected m) = 0%nat) then
    if (0 <? len_of (filteredResults m))
       && (cursor m <? len_of (filteredResults m)) then
      match results m with
      | [] => ret (Some [])
      | _ :: _ =>
          if cursor m <? 0 then panic
          else
            match filteredResults m !! Z.to_nat (cursor m) with
            | None => panic
            | Some row =>
                match list_find (same_file row) (results m) with
                | Some (i, _) => ret (Some [Z.of_nat i])
                | None => ret (Some [])
                end
            end
      end
    else if cursor m <? len_of (results m) then ret (Some [cursor m])
    else ret (Some [])
  else ret (Some (tui_list.range_selected order (selected m))).

Definition set_filter (m : Model) (filterInput : string)
    (filteredResults : list XdccFileInfo) (cursor page : Z) (status : string)
    (filterMode : bool) : Model :=
  {| filterInput := filterInput; results := results m;
     filteredResults := filteredResults; cursor := cursor;
     selected := selected m; page := page; status := status; busy := busy m;
     searchDone := searchDone m; filterMode := filterMode;
     currentView := currentView m |}.

Definition set_cursor_page (m : Model) (cursor page : Z) : Model :=
  set_filter m (filterInput m) (filteredResults m) cursor page (status m)
    (filterMode m).

Definition set_selected (m : Model) (selected : gset Z) : Model :=
  {| filterInput := filterInput m; results := results m;
     filteredResults := filteredResults m; cursor := cursor m;
     selected := selected; page := page m; status := status m; busy := busy m;
     searchDone := searchDone m; filterMode := filterMode m;
     currentView := currentView m |}.

Definition pageSize : Z := 20.

Section Update.
Variables (TrimSpace ToLower : string → string) (Error : error_value → string).
(** What the filter input holds after it has handled a key. *)
Variable filterInput_Update : string → string → string.

(** [Update] on a key while the filter is being typed. *)
Definition Update_filter_key (m : Model) (key : string) : Model :=
  if String.eqb key "enter" then
    applyFilter TrimSpace ToLower Error
      (set_filter m (filterInput m) (filteredResults m) (cursor m) (page m)
         (status m) false)
  else if String.eqb key "esc" then
    set_filter m (filterInput m) [] 0 0 "Filter cleared" false
  else if String.eqb key "backspace" && String.eqb (filterInput m) "" then
    set_filter m (filterInput m) [] (cursor m) (page m) "Filter cleared" false
  else if String.eqb key "/" then m
  else
    applyFilter TrimSpace ToLower Error
      (set_filter m (filterInput_Update (filterInput m) key) (filteredResults m)
         (cursor m) (page m) (status m) (filterMode m)).

Definition is_key (key a b : string) : bool := String.eqb key a || String.eqb key b.

(** [Update] on a key of the list.  The keys that start a search or a
    download ([enter], [d]) are not covered: [None]. *)
Definition Update_list_key (m : Model) (key : string) : option Model :=
  let viewSearch := tui_list.is_viewSearch (currentView m) in
  let len_results := len_of (results m) in
  if String.eqb key "tab" then
    Some
      {| filterInput := filterInput m; results := results m;
         filteredResults := filteredResults m; cursor := cursor m;
         selected := selected m; page := page m; status := status m;
         busy := busy m; searchDone := searchDone m; filterMode := filterMode m;
         currentView :=
           if viewSearch then tui_list.viewDownloads else tui_list.viewSearch |}
  else if is_key key "ctrl+c" "q" then Some m
  else if String.eqb key "enter" then None
  else if is_key key "left" "h" then
    if viewSearch && (0 <? cursor m) then
      let cursor' :=
        if pageSize <=? cursor m then tui_list.wrap (cursor m - pageSize)
        else 0 in
      Some (set_cursor_page m cursor' (cursor' ÷ pageSize))
    else Some m
  else if is_key key "right" "l" then
    if viewSearch && (cursor m <? tui_list.wrap (len_results - 1)) then
      let cursor' :=
        if tui_list.wrap (cursor m + pageSize) <? len_results
        then tui_list.wrap (cursor m + pageSize)
        else tui_list.wrap (len_results - 1) in
      Some (set_cursor_page m cursor' (cursor' ÷ pageSize))
    else Some m
  else if String.eqb key "/" then
    if viewSearch && searchDone m && negb (filterMode m) then
      Some (set_filter m "" (filteredResults m) (cursor m) (page m)
              ("Filter: " +:+ "") true)
    else Some m
  else if String.eqb key "esc" then
    if filterMode m then
      Some (applyFilter TrimSpace ToLower Error
              (set_filter m (filterInput m) (filteredResults m) (cursor m)
                 (page m) ("Filter cleared | " +:+ status m) false))
    else if searchDone m then
      Some
        {| filterInput := filterInput m; results := [];
           filteredResults := []; cursor := 0; selected := selected m;
           page := 0; status := "Enter search query"; busy := busy m;
           searchDone := false; filterMode := filterMode m;
           currentView := currentView m |}
    else Some m
  else if is_key key "up" "k" then
    if negb viewSearch || filterMode m then Some m
    else if searchDone m then
      if len_of (getCurrentResults (Some m)) =? 0 then Some m
      else
        let cursor' :=
          if 0 <? cursor m then tui_list.wrap (cursor m - 1) else cursor m in
        let page' :=
          if cursor' <? tui_list.wrap (page m * pageSize)
          then tui_list.wrap (page m - 1) else page m in
        Some (set_cursor_page m cursor' page')
    else Some m
  else if is_key key "down" "j" then
    if negb viewSearch || filterMode m then Some m
    else if len_of (getCurrentResults (Some m)) =? 0 then Some m
    else
      let cursor' :=
        if cursor m <? tui_list.wrap (len_of (getCurrentResults (Some m)) - 1)
        then tui_list.wrap (cursor m + 1) else cursor m in
      let page' :=
        if tui_list.wrap (tui_list.wrap (page m + 1) * pageSize) <=? cursor'
        then tui_list.wrap (page m + 1) else page m in
      Some (set_cursor_page m cursor' page')
  else if String.eqb key " " then
    if negb viewSearch then Some m
    else if len_results =? 0 then Some m
    else if decide (cursor m ∈ selected m)
         then Some (set_selected m (selected m ∖ {[cursor m]}))
         else Some (set_selected m ({[cursor m]} ∪ selected m))
  else if String.eqb key "d" then None
  else Some m.

(** [Update] on a key; [key] is [msg.String()]. *)
Definition Update_key (m : Model) (key : string) : option Model :=
  if busy m then Some m
  else if filterMode m then Some (Update_filter_key m key)
  else Update_list_key m key.

(** [Update] on the message that carries the results of a search. *)
Definition Update_searchResults (m : Model) (msg_results : slice XdccFileInfo)
    (msg_err : error) : Model :=
  match msg_err with
  | Some e =>
      {| filterInput := filterInput m; results := results m;
         filteredResults := filteredResults m; cursor := cursor m;
         selected := selected m; page := page m;
         status := "search failed: " +:+ Error e; busy := false;
         searchDone := true; filterMode := filterMode m;
         currentView := currentView m |}
  | None =>
      let sorted := sort_Slice less_by_Size msg_results in
      {| filterInput := filterInput m; results := elems sorted;
         filteredResults := []; cursor := 0; selected := ∅; page := 0;
         status := "found " +:+ fmt.verb_d (Z.of_nat (len sorted))
                   +:+ " results | / to filter";
         busy := false; searchDone := true; filterMode := filterMode m;
         currentView := currentView m |}
  end.

End Update.

(** The rows that [View] draws, out of the current results. *)
Definition visible_rows (m : Model) : Z * Z :=
  let results := getCurrentResults (Some m) in
  let start := tui_list.wrap (page m * pageSize) in
  let end_ := tui_list.wrap (start + pageSize) in
  (start, if len_of results <? end_ then len_of results else end_).

(** What holds of the list at every moment: the cursor is on a row of
    the results (or at 0) and on the page that is shown, the filtered
    results are results, and while there are results every selected index
    is a row of them. *)
Definition list_ok (m : Model) : Prop :=
  len_of (results m) + pageSize < 2 ^ 63
  ∧ 0 <= cursor m
  ∧ (cursor m < len_of (results m) ∨ cursor m = 0)
  ∧ page m * pageSize <= cursor m < (page m + 1) * pageSize
  ∧ sublist (filteredResults m) (results m)
  ∧ (results m ≠ [] → ∀ i, i ∈ selected m → 0 <= i < len_of (results m)).

(** The unit that [parseSizeFilter] reads off the text after the number. *)
Definition unit_of_prefix (unit : string) : option Z :=
  if strings.HasPrefix unit "k" then Some KiloByte
  else if strings.HasPrefix unit "m" then Some MegaByte
  else if strings.HasPrefix unit "g" then Some GigaByte
  else None.

End tui_filter.

(** A number that is not negative, or the positive infinity. *)
Definition nonneg_float (x : float64) : Prop :=
  match x with
  | Fin m _ => 0 <= m
  | Inf negative => negative = false
  | NaN => False
  end.

(** ** Package [tui]: the list of [FileItem]s ([tui/selection.go],
    [tui/filter.go])

    The fields of the [Model] of these files that the two functions below
    read and write; [url] is a pointer, [None] is [nil]. *)
Module tui_items.

Record FileItem : Type := mkFileItem
  { name : string;
    size : Z;
    url : option xdcc.IRCFile;
    selected : bool }.

Record Model : Type := mkModel
  { filterInput : string;   (* the value of the filter input *)
    searchResults : list FileItem;
    filteredResults : list FileItem;
    cursor : Z;
    page : Z;
    itemsPerPage : Z;
    status : string;
    downloadQueue : list (option xdcc.IRCFile) }.

Definition set_queue (m : Model) (queue : list (option xdcc.IRCFile))
    (status : string) : Model :=
  {| filterInput := filterInput m; searchResults := searchResults m;
     filteredResults := filteredResults m; cursor := cursor m; page := page m;
     itemsPerPage := itemsPerPage m; status := status;
     downloadQueue := queue |}.

(** The first loop: [selectedCount]. *)
Definition selectedCount (items : list FileItem) : Z :=
  foldl (λ count item, if selected item then tui_list.wrap (count + 1) else count)
    0 items.

(** The second loop: the queue and the lines printed. *)
Definition add_selected (acc : list (option xdcc.IRCFile) * list string)
    (item : FileItem) : list (option xdcc.IRCFile) * list string :=
  match url item with
  | Some u =>
      if selected item
      then (acc.1 ++ [Some u], acc.2 ++ ["Adding to queue: " +:+ name item])
      else acc
  | None => acc
  end.

(** [AddSelectedFilesToQueue]: the model afterwards and the lines printed
    on the standard output, unless the index under the cursor is negative,
    which panics. *)
Definition AddSelectedFilesToQueue (m : Model)
  : tui_filter.outcome (Model * list string) :=
  let count := selectedCount (filteredResults m) in
  let line :=
    "Selection check: found " +:+ fmt.verb_d count
      +:+ " explicitly selected files" in
  if 0 <? count then
    let '(queue, lines) := foldl add_selected ([], [line]) (filteredResults m) in
    tui_filter.ret
      (set_queue m queue
         ("Selected " +:+ fmt.verb_d (Z.of_nat (length queue))
            +:+ " files for download"),
       lines)
  else
    let startIdx := tui_list.wrap (page m * itemsPerPage m) in
    let cursorIdx := tui_list.wrap (startIdx + cursor m) in
    if cursorIdx <? Z.of_nat (length (filteredResults m)) then
      if cursorIdx <? 0 then tui_filter.panic
      else
        match filteredResults m !! Z.to_nat cursorIdx with
        | None => tui_filter.panic
        | Some cursorItem =>
            match url cursorItem with
            | Some u =>
                tui_filter.ret
                  (set_queue m [Some u]
                     ("Downloading file at cursor: " +:+ name cursorItem),
                   [line])
            | None => tui_filter.ret (set_queue m [] (status m), [line])
            end
        end
    else tui_filter.ret (set_queue m [] (status m), [line]).

(** [applyFilter] of [tui/filter.go]; [ToLower] is [strings.ToLower]. *)
Definition applyFilter (ToLower : string → string) (m : Model) : Model :=
  let filterText := ToLower (filterInput m) in
  if String.eqb filterText "" then
    {| filterInput := filterInput m; searchResults := searchResults m;
       filteredResults := searchResults m; cursor := cursor m; page := 0;
       itemsPerPage := itemsPerPage m;
       status := "Showing all "
                 +:+ fmt.verb_d (Z.of_nat (length (searchResults m)))
                 +:+ " results";
       downloadQueue := downloadQueue m |}
  else
    let filtered :=
      List.filter (λ item, strings.Contains (ToLower (name item)) filterText)
        (searchResults m) in
    {| filterInput := filterInput m; searchResults := searchResults m;
       filteredResults := filtered; cursor := cursor m; page := 0;
       itemsPerPage := itemsPerPage m;
       status := "Found " +:+ fmt.verb_d (Z.of_nat (length filtered))
                 +:+ " results containing '" +:+ filterText +:+ "'";
       downloadQueue := downloadQueue m |}.

(** The items that are queued when some item is selected. *)
Definition queued (item : FileItem) : Prop :=
  selected item = true ∧ url item ≠ None.

#[global] Instance queued_dec (item : FileItem) : Decision (queued item).
Proof. unfold queued. apply _. Defined.

End tui_items.

(** Three results, two of them with the same name and size, filtered by
    [.mkv]; the cursor is on the second row shown. *)
Definition sample_filtered : tui_filter.Model :=
  let a := sample_record 1 "clip.mkv" 700 in
  let b := sample_record 2 "song.mp3" 5 in
  let c := sample_record 3 "clip.mkv" 700 in
  tui_filter.mkModel ".mkv" [a; b; c] [a; c] 1 ∅ 0 "Filter: .mkv (2 results)"
    false true false tui_list.viewSearch.

(** Three items, two selected, one of these without a locator; the queue
    holds a locator from before. *)
Definition sample_items : tui_items.Model :=
  let items :=
    [ tui_items.mkFileItem "a" 10 (Some (sample_locator 1)) true;
      tui_items.mkFileItem "b" 20 None true;
      tui_items.mkFileItem "c" 30 (Some (sample_locator 3)) false ] in
  tui_items.mkModel "" items items 0 0 15 "" [Some (sample_locator 9)].

(** * Properties *)

(** ** Slices *)

Lemma elems_foldl_append {A} (l : list A) (s : slice A) :
  elems (foldl append s l) = elems s ++ l.
Proof.
  revert s. induction l as [|x l IH]; intros s; simpl.
  - by rewrite app_nil_r.
  - rewrite IH. destruct s as [|l0 c]; simpl; [done|].
    destruct (length l0 <? c)%nat; simpl; by rewrite <- app_assoc.
Qed.

Lemma append_not_nil {A} (s : slice A) (x : A) : append s x ≠ nil_slice.
Proof. destruct s as [|l c]; simpl; [done|]. by destruct (length l <? c)%nat. Qed.

Lemma foldl_append_not_nil {A} (l : list A) (s : slice A) :
  s ≠ nil_slice → foldl append s l ≠ nil_slice.
Proof.
  revert s. induction l as [|x l IH]; intros s Hs; simpl; [done|].
  apply IH, append_not_nil.
Qed.

Lemma cap_foldl_append {A} (l l0 : list A) (c : nat) :
  (length l0 + length l ≤ c)%nat → cap (foldl append (Slice l0 c) l) = c.
Proof.
  revert l0. induction l as [|x l IH]; intros l0 Hc; simpl in *; [done|].
  destruct (Nat.ltb_spec (length l0) c) as [_|?]; [|lia].
  apply IH. rewrite length_app. simpl. lia.
Qed.

Lemma sort_Slice_not_nil {A} (less : A → A → bool) (s : slice A) :
  s ≠ nil_slice → sort_Slice less s ≠ nil_slice.
Proof. by destruct s. Qed.

Lemma elems_sort_Slice {A} (less : A → A → bool) (s : slice A) :
  elems (sort_Slice less s) = insertionSort less (elems s).
Proof. by destruct s. Qed.

Lemma cap_sort_Slice {A} (less : A → A → bool) (s : slice A) :
  cap (sort_Slice less s) = cap s.
Proof. by destruct s. Qed.

(** ** [sort.Slice] returns a permutation, ordered by [less] *)

Section sort_facts.
Context {A : Type} (less : A → A → bool).

Lemma sink_Permutation (x : A) (before : list A) :
  sink less x before ≡ₚ x :: before.
Proof.
  induction before as [|y ys IH]; simpl; [done|].
  destruct (less x y); [|done].
  rewrite IH. apply perm_swap.
Qed.

Lemma insertionSort_Permutation (l : list A) : insertionSort less l ≡ₚ l.
Proof.
  unfold insertionSort. rewrite <- Permutation_rev.
  induction l as [|x l IH] using rev_ind; simpl; [done|].
  rewrite foldl_snoc, sink_Permutation, IH.
  by rewrite Permutation_app_comm.
Qed.
End sort_facts.

Definition ascending_Size : relation XdccFileInfo := λ a b, Size a ≤ Size b.
Definition descending_Size : relation XdccFileInfo := λ a b, Size b ≤ Size a.

Lemma sink_ascending (x : XdccFileInfo) (before : list XdccFileInfo) :
  StronglySorted ascending_Size before →
  StronglySorted ascending_Size (sink less_by_Size x before).
Proof.
  induction 1 as [|y ys Hys IH Hall]; simpl.
  - repeat constructor.
  - unfold less_by_Size at 1. destruct (Z.ltb_spec (Size y) (Size x)) as [Hlt|Hge].
    + constructor; [done|].
      rewrite sink_Permutation. constructor; [unfold ascending_Size; lia|done].
    + constructor; [by constructor|].
      constructor; [done|].
      eapply Forall_impl; [exact Hall|].
      unfold ascending_Size. intros z ?. lia.
Qed.

Lemma StronglySorted_rev_flip {A} (R : relation A) (l : list A) :
  StronglySorted R l → StronglySorted (flip R) (rev l).
Proof.
  induction 1 as [|x l Hl IH Hall]; simpl; [constructor|].
  apply StronglySorted_app_2.
  - intros a b Ha Hb. apply list_elem_of_singleton in Hb as ->.
    rewrite Forall_forall in Hall. apply Hall.
    apply list_elem_of_In, in_rev in Ha. by apply list_elem_of_In.
  - exact IH.
  - repeat constructor.
Qed.

Lemma insertionSort_descending (l : list XdccFileInfo) :
  StronglySorted descending_Size (insertionSort less_by_Size l).
Proof.
  unfold insertionSort.
  apply (StronglySorted_rev_flip ascending_Size).
  induction l as [|x l IH] using rev_ind; simpl; [constructor|].
  rewrite foldl_snoc. by apply sink_ascending.
Qed.

Lemma StronglySorted_lookup {A} (R : relation A) (l : list A) (i j : nat) (a b : A) :
  StronglySorted R l → (i < j)%nat → l !! i = Some a → l !! j = Some b → R a b.
Proof.
  intros Hl. revert i j. induction Hl as [|x l Hl IH Hall]; intros i j Hij Hi Hj.
  - by rewrite lookup_nil in Hi.
  - destruct j as [|j]; [lia|]. simpl in Hj.
    destruct i as [|i]; simpl in Hi.
    + injection Hi as ->. rewrite Forall_forall in Hall.
      apply Hall. by eapply list_elem_of_lookup_2.
    + eapply (IH i j); [lia|done..].
Qed.

(** ** The merge step *)

Lemma merge_batch_app (m : gmap xdcc.IRCFile XdccFileInfo) (l1 l2 : list XdccFileInfo) :
  merge_batch m (l1 ++ l2) = merge_batch (merge_batch m l1) l2.
Proof. apply foldl_app. Qed.

Lemma last_write_snoc (k : xdcc.IRCFile) (ws : list XdccFileInfo) (w : XdccFileInfo) :
  last_write k (ws ++ [w]) =
  if decide (URL w = k) then Some w else last_write k ws.
Proof.
  unfold last_write. rewrite filter_app, last_app.
  rewrite filter_cons, filter_nil. by destruct (decide (URL w = k)).
Qed.

(** After a sequence of writes, a locator holds the last record written
    for it, or what it held before if there was none. *)
Lemma lookup_merge_batch (m : gmap xdcc.IRCFile XdccFileInfo)
    (ws : list XdccFileInfo) (k : xdcc.IRCFile) :
  merge_batch m ws !! k =
  match last_write k ws with Some r => Some r | None => m !! k end.
Proof.
  induction ws as [|w ws IH] using rev_ind; [done|].
  unfold merge_batch in *. rewrite foldl_snoc, last_write_snoc.
  destruct (decide (URL w = k)) as [<-|Hne].
  - by rewrite lookup_insert_eq.
  - by rewrite lookup_insert_ne.
Qed.

Lemma last_write_URL (k : xdcc.IRCFile) (ws : list XdccFileInfo) (r : XdccFileInfo) :
  last_write k ws = Some r → URL r = k ∧ r ∈ ws.
Proof.
  intros H%last_Some_elem_of. by apply list_elem_of_filter in H.
Qed.


(** The goroutines leave in [allResults] the merge of the batches that
    [merged_batches] lists. *)
Lemma allResults_goroutines (registry : ProviderAggregator)
    (keywords : list string) (l : list nat) (st : Shared) :
  allResults (foldl (goroutine registry keywords) st l) =
  merge_batch (allResults st) (concat (omap (merged_batch registry keywords) l)).
Proof.
  revert st. induction l as [|i l IH]; intros st; simpl; [done|].
  rewrite IH. unfold goroutine, merged_batch.
  destruct (providerList registry !! i) as [p|]; [|done].
  unfold provider_task.
  destruct (provider_Search p keywords) as [resList [e|]]; simpl; [done|].
  by rewrite merge_batch_app.
Qed.

Lemma allResults_finished (sch : Schedule) (registry : ProviderAggregator)
    (keywords : list string) :
  allResults (finished sch registry keywords) =
  merge_batch ∅ (concat (merged_batches sch registry keywords)).
Proof. apply allResults_goroutines. Qed.

(** The map that the caller collects is the merge of the writes that its
    [range] sees. *)
Lemma allResults_run_providers (sch : Schedule) (registry : ProviderAggregator)
    (keywords : list string) :
  allResults (run_providers sch registry keywords) =
  merge_batch ∅ (observed_writes sch registry keywords).
Proof.
  unfold run_providers, observed_writes. simpl.
  by rewrite allResults_finished, merge_batch_app.
Qed.

(** Without a provider there is no late write. *)
Lemma late_record_no_provider (sch : Schedule) (registry : ProviderAggregator)
    (keywords : list string) (w : late_write) :
  providerList registry = [] → late_record sch registry keywords w = None.
Proof.
  intros Hnil. unfold late_record, merged_batch.
  rewrite Hnil, lookup_nil. by destruct (bool_decide _).
Qed.

Lemma omap_None {A B} (f : A → option B) (l : list A) :
  (∀ x, f x = None) → omap f l = [].
Proof.
  intros Hf. induction l as [|x l IH]; simpl; [done|]. by rewrite Hf.
Qed.

(** A schedule without late writes: the caller sees the batches of the
    goroutines that are done and nothing else. *)
Lemma observed_writes_no_late (sch : Schedule) (registry : ProviderAggregator)
    (keywords : list string) :
  late sch = [] →
  observed_writes sch registry keywords
  = concat (merged_batches sch registry keywords).
Proof.
  intros Hlate. unfold observed_writes, seen_writes.
  by rewrite Hlate, app_nil_r.
Qed.

(** ** [range] over the map visits every entry once *)

Lemma range_keys_Permutation (order : list xdcc.IRCFile)
    (m : gmap xdcc.IRCFile XdccFileInfo) :
  range_keys order m ≡ₚ (map_to_list m).*1.
Proof.
  unfold range_keys.
  set (first := filter (λ k, is_Some (m !! k)) (remove_dups order)).
  assert (NoDup first) as Hfirst
    by apply NoDup_filter, NoDup_remove_dups.
  apply NoDup_Permutation.
  - apply NoDup_app. split_and!; [done| |].
    + intros k Hk [Hnot _]%list_elem_of_filter. done.
    + apply NoDup_filter, NoDup_fst_map_to_list.
  - apply NoDup_fst_map_to_list.
  - intros k. rewrite elem_of_app, list_elem_of_filter. split.
    + intros [Hk|[_ Hk]]; [|done].
      apply list_elem_of_filter in Hk as [[v Hv] _].
      apply list_elem_of_fmap. exists (k, v). split; [done|].
      by apply elem_of_map_to_list.
    + intros Hk. destruct (decide (k ∈ first)); [by left|by right].
Qed.

Lemma omap_lookup_map_to_list (m : gmap xdcc.IRCFile XdccFileInfo)
    (l : list (xdcc.IRCFile * XdccFileInfo)) :
  (∀ k v, (k, v) ∈ l → m !! k = Some v) →
  omap (λ k, m !! k) l.*1 = l.*2.
Proof.
  induction l as [|[k v] l IH]; intros Hl; simpl; [done|].
  rewrite (Hl k v) by left. simpl. f_equal.
  apply IH. intros k' v' ?. apply Hl. by right.
Qed.

Lemma range_values_Permutation (order : list xdcc.IRCFile)
    (m : gmap xdcc.IRCFile XdccFileInfo) :
  range_values order m ≡ₚ (map_to_list m).*2.
Proof.
  unfold range_values. rewrite range_keys_Permutation.
  rewrite omap_lookup_map_to_list; [done|].
  intros k v. apply elem_of_map_to_list.
Qed.

(** ** Schedules *)

(** The schedule in which only the first provider is done is well formed
    for every aggregator that has a provider. *)
Lemma wf_schedule_first (n : nat) (order : list xdcc.IRCFile) :
  wf_schedule (S n) (mkSchedule [0%nat] order).
Proof.
  split; simpl.
  - apply NoDup_singleton.
  - intros i ->%list_elem_of_singleton. lia.
Qed.

(** [errChan] has room for one error per provider: a goroutine never
    blocks on it. *)
Lemma errChan_goroutines (registry : ProviderAggregator)
    (keywords : list string) (l : list nat) (st : Shared) :
  (length (errChan (foldl (goroutine registry keywords) st l))
   ≤ length (errChan st) + length l)%nat.
Proof.
  revert st. induction l as [|i l IH]; intros st; simpl; [lia|].
  etrans; [apply IH|]. unfold goroutine.
  destruct (providerList registry !! i) as [p|]; [|lia].
  unfold provider_task.
  destruct (provider_Search p keywords) as [resList [e|]]; simpl; [|lia].
  rewrite length_app. simpl. lia.
Qed.

Lemma errChan_within_capacity (sch : Schedule) (registry : ProviderAggregator)
    (keywords : list string) :
  wf_schedule (length (providerList registry)) sch →
  (length (errChan (run_providers sch registry keywords))
   ≤ length (providerList registry))%nat.
Proof.
  intros [Hnd Hlt]. unfold run_providers, finished. simpl.
  etrans; [apply errChan_goroutines|]. simpl.
  assert (arrival sch ⊆+ seq 0 (length (providerList registry))) as Hsub.
  { apply NoDup_submseteq; [done|].
    intros i Hi. apply elem_of_seq. specialize (Hlt i Hi). lia. }
  apply submseteq_length in Hsub. by rewrite length_seq in Hsub.
Qed.

(** The caller is woken by [doneChan] exactly when every goroutine is
    done. *)
Lemma select_outcome_done (n : nat) (sch : Schedule) :
  select_outcome n sch = case_doneChan ↔
  ∀ i, (i < n)%nat → i ∈ arrival sch.
Proof.
  unfold select_outcome.
  destruct (forallb _ _) eqn:Hall.
  - split; [|done]. intros _ i Hi.
    rewrite forallb_forall in Hall.
    specialize (Hall i). rewrite bool_decide_eq_true in Hall.
    apply Hall, in_seq. lia.
  - split; [done|]. intros Hin. exfalso.
    assert (forallb (λ i, bool_decide (i ∈ arrival sch)) (seq 0 n) = true);
      [|congruence].
    apply forallb_forall. intros i Hi%in_seq.
    apply bool_decide_eq_true, Hin. lia.
Qed.

(** ** What [Search] returns *)

Lemma run_providers_no_provider (sch : Schedule) (registry : ProviderAggregator)
    (keywords : list string) :
  providerList registry = [] →
  run_providers sch registry keywords = {| allResults := ∅; errChan := [] |}.
Proof.
  intros Hnil.
  assert (finished sch registry keywords = {| allResults := ∅; errChan := [] |})
    as Hfin.
  { unfold finished.
    induction (arrival sch) as [|i l IH] using rev_ind; [done|].
    rewrite foldl_snoc, IH. unfold goroutine. by rewrite Hnil, lookup_nil. }
  unfold run_providers, seen_writes. rewrite Hfin.
  rewrite omap_None by (intros w; by apply late_record_no_provider). done.
Qed.

(** The returned elements are the values of the merge map, in some order. *)
Lemma Search_elems (sch : Schedule) (registry : ProviderAggregator)
    (keywords : list string) :
  elems (run_results (Search sch registry keywords))
  ≡ₚ (map_to_list (allResults (run_providers sch registry keywords))).*2.
Proof.
  unfold Search.
  destruct (Nat.eqb_spec (length (providerList registry)) 0) as [Hlen|_].
  - apply length_zero_iff_nil in Hlen.
    rewrite run_providers_no_provider by done. simpl.
    by rewrite map_to_list_empty.
  - cbn [run_results].
    rewrite elems_sort_Slice, insertionSort_Permutation, elems_foldl_append.
    cbn [make_slice elems app]. apply range_values_Permutation.
Qed.

Lemma Search_elem_of (sch : Schedule) (registry : ProviderAggregator)
    (keywords : list string) (r : XdccFileInfo) :
  r ∈ elems (run_results (Search sch registry keywords)) ↔
  ∃ k, allResults (run_providers sch registry keywords) !! k = Some r.
Proof.
  rewrite Search_elems, list_elem_of_fmap. split.
  - intros ([k v] & -> & Hkv). exists k. by apply elem_of_map_to_list.
  - intros [k Hk]. exists (k, r). split; [done|]. by apply elem_of_map_to_list.
Qed.



(** C1.  The goroutines write to the map under [mtx], but the caller
    collects it without taking [mtx]; after a timeout it can therefore
    read a batch of which only a part is written.  With one provider that
    answers two records with two locators, in a call that times out when
    the first record is written and returns before the second is, [Search]
    returns one record: fewer than the batch has locators. *)
Theorem Search_reads_half_written_batch :
  wf_late half_written slow_provider ["x"]
  ∧ select_outcome 1 half_written = case_timeoutChan
  ∧ merged_batch slow_provider ["x"] 0
    = Some [sample_record 1 "a" 10; sample_record 2 "b" 20]
  ∧ length (remove_dups
              (URL <$> [sample_record 1 "a" 10; sample_record 2 "b" 20]))
    = 2%nat
  ∧ elems (run_results (Search half_written slow_provider ["x"]))
    = [sample_record 1 "a" 10].
Proof.
  split; [|by vm_compute].
  exists [0%nat]. split; [apply NoDup_singleton|]. split.
  - intros i _ Hi. by apply elem_of_nil in Hi.
  - by exists [(0%nat, 1%nat)].
Qed.

Lemma Search_length (sch : Schedule) (registry : ProviderAggregator)
    (keywords : list string) :
  len (run_results (Search sch registry keywords)) =
  size (allResults (run_providers sch registry keywords)).
Proof.
  unfold len. rewrite Search_elems, length_fmap. apply length_map_to_list.
Qed.

Lemma Search_descending (sch : Schedule) (registry : ProviderAggregator)
    (keywords : list string) :
  StronglySorted descending_Size
    (elems (run_results (Search sch registry keywords))).
Proof.
  unfold Search.
  destruct (length (providerList registry) =? 0)%nat; simpl; [constructor|].
  rewrite elems_sort_Slice. apply insertionSort_descending.
Qed.

(** C2.  In every slice returned by [Search] the size at an index is at
    least the size at the next index.  Records of equal size come in no
    fixed order: the same providers, answering the same, can be returned
    in either order. *)
Theorem Search_sorted_by_Size :
  (∀ sch registry keywords i a b,
     elems (run_results (Search sch registry keywords)) !! i = Some a →
     elems (run_results (Search sch registry keywords)) !! S i = Some b →
     Size b ≤ Size a)
  ∧ (∃ registry keywords sch1 sch2 a b,
       wf_schedule (length (providerList registry)) sch1
       ∧ wf_schedule (length (providerList registry)) sch2
       ∧ arrival sch1 = arrival sch2 ∧ Size a = Size b ∧ a ≠ b
       ∧ elems (run_results (Search sch1 registry keywords)) = [a; b]
       ∧ elems (run_results (Search sch2 registry keywords)) = [b; a]).
Proof.
  split.
  - intros sch registry keywords i a b Ha Hb.
    eapply (StronglySorted_lookup descending_Size _ i (S i) a b);
      [apply Search_descending|lia|done..].
  - exists (NewProviderAggregator
              [provider_of [sample_record 2 "b" 30; sample_record 3 "c" 30]]),
      ["x"],
      (mkSchedule [0%nat] [sample_locator 2; sample_locator 3]),
      (mkSchedule [0%nat] [sample_locator 3; sample_locator 2]),
      (sample_record 2 "b" 30), (sample_record 3 "c" 30).
    split_and!;
      [apply wf_schedule_first|apply wf_schedule_first|done|done
      |discriminate|by vm_compute|by vm_compute].
Qed.

Lemma Search_sorted_by_Size_witness :
  Size (sample_record 1 "a'" 20) ≤ Size (sample_record 2 "b'" 30).
Proof.
  apply (proj1 Search_sorted_by_Size
           (mkSchedule [0; 1; 2]%nat []) two_batches ["x"] 1%nat);
    by vm_compute.
Defined.

(** C4.  Whatever the providers answer, errors included, and whichever of
    them are done in time, [Search] returns a [nil] error and a slice that
    is not [nil]; the errors of the providers go to [errChan], which is
    never read. *)
Theorem Search_isolates_failures (sch : Schedule) (registry : ProviderAggregator)
    (keywords : list string) :
  run_err (Search sch registry keywords) = None
  ∧ run_results (Search sch registry keywords) ≠ nil_slice.
Proof.
  unfold Search.
  destruct (length (providerList registry) =? 0)%nat; simpl; [done|].
  split; [done|]. by apply sort_Slice_not_nil, foldl_append_not_nil.
Qed.

(** C5.  With no provider registered [Search] returns the empty slice and
    a [nil] error at once: it starts no timer and no goroutine and does
    not reach the [select] at which a call with providers blocks. *)
Theorem Search_no_provider (sch : Schedule) (registry : ProviderAggregator)
    (keywords : list string) :
  providerList registry = [] →
  Search sch registry keywords =
  {| run_results := Slice [] 0; run_err := None; run_events := [] |}.
Proof. intros Hnil. unfold Search. by rewrite Hnil. Qed.

Lemma Search_no_provider_witness :
  Search (mkSchedule [] []) (NewProviderAggregator []) ["ubuntu"; "iso"] =
  {| run_results := Slice [] 0; run_err := None; run_events := [] |}.
Proof. apply Search_no_provider. reflexivity. Defined.

(** ** Registration *)

Lemma length_AddProvider (registry : ProviderAggregator) (p : XdccSearchProvider) :
  length (providerList (AddProvider registry p)) =
  S (length (providerList registry)).
Proof. unfold AddProvider. simpl. rewrite length_app. simpl. lia. Qed.

(** C7, as the code has it.  No registration is rejected or ignored:
    [NewProviderAggregator] keeps all the providers it is given and each
    call of [AddProvider] adds one, so the list has as many providers as
    were registered.  [MaxProviders] is not consulted. *)
Theorem AddProvider_never_rejects (providers added : list XdccSearchProvider) :
  length (providerList (foldl AddProvider (NewProviderAggregator providers) added))
  = (length providers + length added)%nat.
Proof.
  induction added as [|p added IH] using rev_ind; simpl; [lia|].
  rewrite foldl_snoc, length_AddProvider, IH, length_app. simpl. lia.
Qed.

(** C7, as stated, fails: one hundred providers and one more registration
    give a list of a hundred and one. *)
Lemma provider_cap_not_enforced :
  ¬ (∀ providers added : list XdccSearchProvider,
       (length (providerList
                  (foldl AddProvider (NewProviderAggregator providers) added))
        ≤ MaxProviders)%nat).
Proof.
  intros H.
  specialize (H (replicate MaxProviders (provider_of [])) [provider_of []]).
  vm_compute in H. lia.
Qed.

(** ** The result cap *)

Lemma size_merge_batch (l : list XdccFileInfo) :
  NoDup (URL <$> l) → size (merge_batch ∅ l) = length l.
Proof.
  induction l as [|w l IH] using rev_ind; intros Hnd; [done|].
  rewrite fmap_app in Hnd. apply NoDup_app in Hnd as (Hl & Hw & _).
  unfold merge_batch in *. rewrite foldl_snoc, length_app. simpl.
  rewrite map_size_insert_None; [rewrite IH by done; lia|].
  pose proof (lookup_merge_batch ∅ l (URL w)) as Hlook.
  unfold merge_batch in Hlook. rewrite Hlook, lookup_empty.
  destruct (last_write (URL w) l) as [r|] eqn:Hr; [|done].
  apply last_write_URL in Hr as [Hk Hin].
  exfalso. apply (Hw (URL w)); [|simpl; left].
  rewrite <- Hk. by apply list_elem_of_fmap_2.
Qed.

Lemma NoDup_many_records : NoDup (URL <$> many_records).
Proof.
  unfold many_records. rewrite <- list_fmap_compose.
  apply NoDup_fmap_2; [|apply NoDup_seq].
  intros n1 n2 [= H]. lia.
Qed.

Lemma cap_Search (sch : Schedule) (registry : ProviderAggregator)
    (keywords : list string) :
  providerList registry ≠ [] →
  (size (allResults (run_providers sch registry keywords)) ≤ MaxResults)%nat →
  cap (run_results (Search sch registry keywords)) = MaxResults.
Proof.
  intros Hne Hsize. unfold Search.
  destruct (Nat.eqb_spec (length (providerList registry)) 0) as [Hlen|_].
  { by apply length_zero_iff_nil in Hlen. }
  simpl. rewrite cap_sort_Slice. apply cap_foldl_append. simpl.
  by rewrite range_values_Permutation, length_fmap, length_map_to_list.
Qed.

(** A record that a goroutine writes after the caller's [range] is over is
    in the map before the call returns, and not in the returned slice:
    here the call times out, and the provider's goroutine writes its first
    record when the caller has collected the map. *)
Lemma late_record_not_returned :
  wf_late written_after_range slow_provider ["x"]
  ∧ select_outcome 1 written_after_range = case_timeoutChan
  ∧ allResults_at_return written_after_range slow_provider ["x"]
      !! sample_locator 1 = Some (sample_record 1 "a" 10)
  ∧ sample_record 1 "a" 10
    ∉ elems (run_results (Search written_after_range slow_provider ["x"])).
Proof.
  split.
  { exists [0%nat]. split; [apply NoDup_singleton|]. split.
    - intros i _ Hi. by apply elem_of_nil in Hi.
    - by exists [(0%nat, 1%nat)]. }
  split; [by vm_compute|]. split; [by vm_compute|].
  change (elems (run_results (Search written_after_range slow_provider ["x"])))
    with (@nil XdccFileInfo).
  apply not_elem_of_nil.
Qed.

(** C8.  [MaxResults] is the capacity the result slice is allocated with
    and nothing more: every record that is in the map as the caller's
    [range] finds it is in the returned slice, which has as many elements
    as that map has entries; while these are at most [MaxResults] the
    slice keeps the capacity [MaxResults]; and a call can return more than
    [MaxResults] records. *)
Theorem Search_cap_is_capacity_only :
  (∀ sch registry keywords k r,
     allResults (run_providers sch registry keywords) !! k = Some r →
     r ∈ elems (run_results (Search sch registry keywords)))
  ∧ (∀ sch registry keywords,
       len (run_results (Search sch registry keywords)) =
       size (allResults (run_providers sch registry keywords)))
  ∧ (∀ sch registry keywords,
       providerList registry ≠ [] →
       (size (allResults (run_providers sch registry keywords)) ≤ MaxResults)%nat →
       cap (run_results (Search sch registry keywords)) = MaxResults)
  ∧ (∃ sch registry keywords,
       wf_schedule (length (providerList registry)) sch
       ∧ (MaxResults < len (run_results (Search sch registry keywords)))%nat).
Proof.
  split_and!.
  - intros sch registry keywords k r Hk. apply Search_elem_of. by exists k.
  - apply Search_length.
  - apply cap_Search.
  - exists (mkSchedule [0%nat] []), big_provider, [].
    split; [apply wf_schedule_first|].
    rewrite Search_length, allResults_run_providers.
    rewrite observed_writes_no_late by done.
    change (merged_batches _ big_provider []) with [many_records].
    rewrite concat_cons, concat_nil, app_nil_r.
    rewrite size_merge_batch by apply NoDup_many_records.
    unfold many_records. rewrite length_fmap, length_seq. lia.
Qed.

Lemma Search_cap_is_capacity_only_witness :
  sample_record 3 "c" 30
  ∈ elems (run_results (Search (mkSchedule [1; 0]%nat []) two_batches ["x"])).
Proof.
  apply (proj1 Search_cap_is_capacity_only _ _ _ (sample_locator 3)).
  by vm_compute.
Defined.

(** ** Floating-point arithmetic *)

Lemma pow2_pos (k : Z) : 0 < pow2 k.
Proof. unfold pow2. apply Z.pow_pos_nonneg; lia. Qed.

Lemma pow2_nonneg_exp (k : Z) : 0 <= k → pow2 k = 2 ^ k ∧ pow2 (- k) = 1.
Proof.
  intros Hk. unfold pow2. split.
  - by rewrite Z.max_r by lia.
  - by rewrite Z.max_l by lia.
Qed.

Lemma pow2_neg_exp (k : Z) : k < 0 → pow2 k = 1 ∧ pow2 (- k) = 2 ^ (- k).
Proof.
  intros Hk. unfold pow2. split.
  - by rewrite Z.max_l by lia.
  - by rewrite Z.max_r by lia.
Qed.

Lemma log2_mul_pow2 (a k : Z) : 0 < a → Z.log2 (a * pow2 k) = Z.log2 a + Z.max 0 k.
Proof.
  intros Ha. unfold pow2. rewrite Z.log2_mul_pow2 by lia. lia.
Qed.

Lemma round_half_even_bounds (a b : Z) :
  0 <= a → 0 < b → a / b <= round_half_even a b <= a / b + 1.
Proof.
  intros Ha Hb. unfold round_half_even.
  destruct (2 * (a mod b) <? b); [lia|].
  destruct (b <? 2 * (a mod b)); [lia|].
  destruct (Z.even (a / b)); lia.
Qed.

Lemma round_half_even_nonneg (a b : Z) :
  0 <= a → 0 < b → 0 <= round_half_even a b.
Proof.
  intros Ha Hb. pose proof (round_half_even_bounds a b Ha Hb).
  pose proof (Z.div_pos a b Ha Hb). lia.
Qed.

Lemma floor_log2_bounds (a b : Z) :
  Z.log2 a - Z.log2 b - 1 <= floor_log2 a b <= Z.log2 a - Z.log2 b.
Proof. unfold floor_log2. destruct (_ <=? _); lia. Qed.

(** What [nearest] returns for a positive fraction. *)
Lemma nearest_bounds (fmt : format) (a b m e : Z) :
  0 < a → 0 < b → nearest fmt a b = Some (m, e) →
  0 <= m ∧ m <= a * pow2 (- e) + 1
  ∧ Z.max (Z.log2 a - Z.log2 b - prec fmt) (emin fmt) <= e
  ∧ e <= Z.max (Z.log2 a - Z.log2 b - (prec fmt - 1)) (emin fmt)
  ∧ Z.log2 m + e < emax fmt.
Proof.
  intros Ha Hb. unfold nearest.
  destruct (Z.eqb_spec a 0) as [?|_]; [lia|].
  set (e0 := Z.max (floor_log2 a b - (prec fmt - 1)) (emin fmt)).
  set (m0 := round_half_even (a * pow2 (- e0)) (b * pow2 e0)).
  destruct (Z.leb_spec (emax fmt) (Z.log2 m0 + e0)) as [|Hlt]; [done|].
  intros [= <- <-].
  pose proof (pow2_pos e0). pose proof (pow2_pos (- e0)).
  pose proof (floor_log2_bounds a b).
  assert (0 <= a * pow2 (- e0)) by nia.
  assert (0 < b * pow2 e0) by nia.
  pose proof (round_half_even_bounds (a * pow2 (- e0)) (b * pow2 e0)) as Hr.
  fold m0 in Hr.
  assert (0 <= a * pow2 (- e0) / (b * pow2 e0) <= a * pow2 (- e0)).
  { split; [by apply Z.div_pos|]. apply Z.div_le_upper_bound; [done|nia]. }
  split_and!; lia.
Qed.

(** [nearest] does not overflow on a fraction whose numerator is small
    for the format. *)
Lemma nearest_is_Some (fmt : format) (a b : Z) :
  0 <= a → 0 < b →
  Z.log2 a + 1 + Z.max 0 (Z.max (Z.log2 a - (prec fmt - 1)) (emin fmt)) < emax fmt →
  ∃ m e, nearest fmt a b = Some (m, e).
Proof.
  intros Ha Hb Hsmall. unfold nearest.
  destruct (Z.eqb_spec a 0) as [?|Hne]; [by eauto|].
  set (e0 := Z.max (floor_log2 a b - (prec fmt - 1)) (emin fmt)).
  set (m0 := round_half_even (a * pow2 (- e0)) (b * pow2 e0)).
  destruct (Z.leb_spec (emax fmt) (Z.log2 m0 + e0)) as [Hge|]; [|by eauto].
  exfalso.
  pose proof (pow2_pos e0). pose proof (pow2_pos (- e0)).
  pose proof (floor_log2_bounds a b). pose proof (Z.log2_nonneg b).
  assert (0 < a * pow2 (- e0)) by nia.
  assert (0 < b * pow2 e0) by nia.
  pose proof (round_half_even_bounds (a * pow2 (- e0)) (b * pow2 e0)) as Hr.
  fold m0 in Hr.
  assert (a * pow2 (- e0) / (b * pow2 e0) <= a * pow2 (- e0)).
  { apply Z.div_le_upper_bound; [done|nia]. }
  assert (Z.log2 m0 <= Z.log2 a + Z.max 0 (- e0) + 1) as Hlog.
  { etrans; [apply (Z.log2_le_mono _ (Z.succ (a * pow2 (- e0)))); lia|].
    etrans; [apply Z.log2_succ_le|]. rewrite log2_mul_pow2 by lia. lia. }
  lia.
Qed.

(** [round_half_even a b] is an integer nearest to [a/b]. *)
Lemma round_half_even_nearest (a b : Z) :
  0 <= a → 0 < b → Z.abs (2 * (a - round_half_even a b * b)) <= b.
Proof.
  intros Ha Hb. unfold round_half_even.
  pose proof (Z.div_mod a b ltac:(lia)) as Hdm.
  pose proof (Z.mod_pos_bound a b Hb).
  destruct (Z.ltb_spec (2 * (a mod b)) b); [lia|].
  destruct (Z.ltb_spec b (2 * (a mod b))); [lia|].
  destruct (Z.even (a / b)); lia.
Qed.

(** [2^floor_log2 <= a/b < 2^(floor_log2 + 1)]. *)
Lemma floor_log2_spec (a b : Z) :
  0 < a → 0 < b →
  b * pow2 (floor_log2 a b) <= a * pow2 (- floor_log2 a b)
  ∧ a * pow2 (- (floor_log2 a b + 1)) < b * pow2 (floor_log2 a b + 1).
Proof.
  intros Ha Hb.
  pose proof (Z.log2_spec a Ha) as [Ha1 Ha2].
  pose proof (Z.log2_spec b Hb) as [Hb1 Hb2].
  pose proof (Z.log2_nonneg a). pose proof (Z.log2_nonneg b).
  set (la := Z.log2 a) in *. set (lb := Z.log2 b) in *.
  assert (a * pow2 (- (la - lb + 1)) < b * pow2 (la - lb + 1)) as Hup.
  { destruct (Z.le_gt_cases 0 (la - lb + 1)) as [Hl|Hl].
    - destruct (pow2_nonneg_exp _ Hl) as [-> ->].
      replace (Z.succ la) with (lb + (la - lb + 1)) in Ha2 by lia.
      rewrite Z.pow_add_r in Ha2 by lia.
      assert (0 < 2 ^ (la - lb + 1)) by (apply Z.pow_pos_nonneg; lia). nia.
    - destruct (pow2_neg_exp _ Hl) as [-> ->].
      replace lb with (Z.succ la + - (la - lb + 1)) in Hb1 by lia.
      rewrite Z.pow_add_r in Hb1 by lia.
      assert (0 < 2 ^ (- (la - lb + 1))) by (apply Z.pow_pos_nonneg; lia). nia. }
  assert (b * pow2 (la - lb - 1) <= a * pow2 (- (la - lb - 1))) as Hlow.
  { destruct (Z.le_gt_cases 0 (la - lb - 1)) as [Hl|Hl].
    - destruct (pow2_nonneg_exp _ Hl) as [-> ->].
      replace la with (Z.succ lb + (la - lb - 1)) in Ha1 by lia.
      rewrite Z.pow_add_r in Ha1 by lia.
      assert (0 < 2 ^ (la - lb - 1)) by (apply Z.pow_pos_nonneg; lia). nia.
    - destruct (pow2_neg_exp _ Hl) as [-> ->].
      replace (Z.succ lb) with (la + - (la - lb - 1)) in Hb2 by lia.
      rewrite Z.pow_add_r in Hb2 by lia.
      assert (0 < 2 ^ (- (la - lb - 1))) by (apply Z.pow_pos_nonneg; lia). nia. }
  unfold floor_log2. fold la lb.
  destruct (Z.leb_spec (b * pow2 (la - lb)) (a * pow2 (- (la - lb)))) as [Hge|Hlt].
  - split; [done|]. exact Hup.
  - split; [exact Hlow|]. by replace (la - lb - 1 + 1) with (la - lb) by lia.
Qed.

Lemma pow2_shift (k p : Z) :
  0 <= p → pow2 (k + p) * pow2 (- k) = 2 ^ p * pow2 k * pow2 (- (k + p)).
Proof.
  intros Hp.
  destruct (Z.le_gt_cases 0 k) as [Hk|Hk].
  - destruct (pow2_nonneg_exp k Hk) as [-> ->].
    destruct (pow2_nonneg_exp (k + p) ltac:(lia)) as [-> ->].
    rewrite Z.pow_add_r by lia. ring.
  - destruct (pow2_neg_exp k Hk) as [-> ->].
    destruct (Z.le_gt_cases 0 (k + p)) as [Hkp|Hkp].
    + destruct (pow2_nonneg_exp (k + p) Hkp) as [-> ->].
      rewrite <- Z.pow_add_r by lia. replace (k + p + - k) with p by lia. ring.
    + destruct (pow2_neg_exp (k + p) Hkp) as [-> ->].
      rewrite Z.mul_1_r, Z.mul_1_l, <- Z.pow_add_r by lia. f_equal. lia.
Qed.

(** If [a/b < 2^k] then [a/b < 2^(k+p)]. *)
Lemma below_pow2_mono (a b k p : Z) :
  0 < a → 0 < b → 0 <= p →
  a * pow2 (- k) < b * pow2 k →
  a * pow2 (- (k + p)) < b * pow2 (k + p).
Proof.
  intros Ha Hb Hp Hk.
  pose proof (pow2_shift k p Hp) as Hs.
  pose proof (pow2_pos k). pose proof (pow2_pos (- k)).
  pose proof (pow2_pos (k + p)). pose proof (pow2_pos (- (k + p))).
  assert (1 <= 2 ^ p) by (pose proof (Z.pow_pos_nonneg 2 p); lia).
  apply (Z.mul_lt_mono_pos_r (pow2 (- k))); [done|].
  apply Z.le_lt_trans with (a * pow2 (- k) * (2 ^ p * pow2 (- (k + p)))); [nia|].
  assert (b * pow2 (k + p) * pow2 (- k) =
          b * pow2 k * (2 ^ p * pow2 (- (k + p)))) as ->
    by (rewrite <- Z.mul_assoc, Hs; ring).
  apply Z.mul_lt_mono_pos_r; [nia|done].
Qed.

(** [nearest] returns a number of the format, [m * 2^e] with [m] of at
    most [prec] bits ([2^prec] itself is [2^(prec-1) * 2^(e+1)]), at most
    half a unit in the last place away from [a/b]. *)
Lemma nearest_correct (fmt : format) (a b m e : Z) :
  0 < a → 0 < b → 0 < prec fmt →
  nearest fmt a b = Some (m, e) →
  Z.abs (2 * (a * pow2 (- e) - m * (b * pow2 e))) <= b * pow2 e
  ∧ 0 <= m <= 2 ^ prec fmt
  ∧ emin fmt <= e.
Proof.
  intros Ha Hb Hprec. unfold nearest.
  destruct (Z.eqb_spec a 0) as [?|_]; [lia|].
  set (e0 := Z.max (floor_log2 a b - (prec fmt - 1)) (emin fmt)).
  set (m0 := round_half_even (a * pow2 (- e0)) (b * pow2 e0)).
  destruct (Z.leb_spec (emax fmt) (Z.log2 m0 + e0)) as [|_]; [done|].
  intros [= <- <-].
  pose proof (pow2_pos e0). pose proof (pow2_pos (- e0)).
  assert (0 <= a * pow2 (- e0)) as HA by nia.
  assert (0 < b * pow2 e0) as HB by nia.
  pose proof (round_half_even_nearest _ _ HA HB) as Hnear. fold m0 in Hnear.
  pose proof (round_half_even_bounds _ _ HA HB) as Hbnd. fold m0 in Hbnd.
  pose proof (Z.div_pos _ _ HA HB).
  split_and!; [done|lia| |lia].
  destruct (floor_log2_spec a b Ha Hb) as [_ Hup].
  apply (below_pow2_mono a b _ (e0 + prec fmt - (floor_log2 a b + 1))) in Hup;
    [|lia..].
  replace (floor_log2 a b + 1 + (e0 + prec fmt - (floor_log2 a b + 1)))
    with (e0 + prec fmt) in Hup by lia.
  pose proof (pow2_shift e0 (prec fmt) ltac:(lia)) as Hs.
  pose proof (pow2_pos (e0 + prec fmt)). pose proof (pow2_pos (- (e0 + prec fmt))).
  assert (a * pow2 (- e0) < 2 ^ prec fmt * (b * pow2 e0)) as Hlt.
  { apply (Z.mul_lt_mono_pos_r (pow2 (- (e0 + prec fmt)))); [done|].
    assert (2 ^ prec fmt * (b * pow2 e0) * pow2 (- (e0 + prec fmt)) =
            b * pow2 (e0 + prec fmt) * pow2 (- e0)) as ->
      by (rewrite <- (Z.mul_assoc b), Hs; ring).
    assert (a * pow2 (- e0) * pow2 (- (e0 + prec fmt)) =
            a * pow2 (- (e0 + prec fmt)) * pow2 (- e0)) as -> by ring.
    by apply Z.mul_lt_mono_pos_r. }
  assert (a * pow2 (- e0) / (b * pow2 e0) < 2 ^ prec fmt).
  { apply Z.div_lt_upper_bound; [done|]. lia. }
  lia.
Qed.

Lemma truncate_is_truncation (m e : Z) : is_truncation (truncate m e) m e.
Proof.
  unfold is_truncation, truncate.
  destruct (Z.leb_spec 0 e) as [He|He].
  - destruct (pow2_nonneg_exp e He) as [-> ->].
    assert (0 < 2 ^ e) by (apply Z.pow_pos_nonneg; lia).
    rewrite Z.abs_mul, (Z.abs_eq (2 ^ e)) by lia. nia.
  - destruct (pow2_neg_exp e He) as [-> ->].
    assert (0 < 2 ^ (- e)) as Hd by (apply Z.pow_pos_nonneg; lia).
    pose proof (Z.quot_rem' m (2 ^ (- e))) as Hqr.
    destruct (Z.le_gt_cases 0 m) as [Hm|Hm].
    + pose proof (Z.rem_bound_pos m (2 ^ (- e)) Hm Hd).
      assert (0 <= m ÷ 2 ^ (- e)) by (apply Z.quot_pos; lia).
      rewrite !Z.abs_eq by lia. nia.
    + pose proof (Z.rem_bound_pos_neg m (2 ^ (- e)) Hd ltac:(lia)).
      assert (m ÷ 2 ^ (- e) <= 0) by (apply Z.quot_le_upper_bound; lia).
      rewrite !Z.abs_neq by lia. nia.
Qed.

Lemma to_int64_fits (x : float64) :
  fits_int64 x → ∃ m e, x = Fin m e ∧ to_int64 x = truncate m e.
Proof.
  destruct x as [| |m e]; simpl; [done..|]. intros [Hlo Hhi].
  exists m, e. split; [done|].
  destruct (Z.leb_spec int64_min (truncate m e)); [|lia].
  destruct (Z.leb_spec (truncate m e) int64_max); [done|lia].
Qed.

(** ** [parseFileSize] *)

Lemma split_last_snoc (s : string) (c0 c : ascii) :
  split_last c0 (s +:+ String c "") = (String c0 s, c).
Proof.
  revert c0. induction s as [|c1 s IH]; intros c0; simpl; [done|].
  by rewrite IH.
Qed.

(** [parseFileSize] on a string that ends with the byte [c]. *)
Lemma parseFileSize_snoc (sizePart : string) (c : ascii) :
  parseFileSize (sizePart +:+ String c "") =
  match strconv.ParseFloat32 sizePart with
  | (_, Some e) => (-1, Some e)
  | (size, None) =>
      match unit_of_letter c with
      | Some unit => (to_int64 (mul size (of_int unit)), None)
      | None =>
          (-1, Some (errors_New ("unable to parse: " +:+ sizePart +:+ String c "")))
      end
  end.
Proof.
  assert (∀ c0 s,
            split_last c0 (s +:+ String c "") = (String c0 s, c)) as Hsplit
    by (intros; apply split_last_snoc).
  unfold parseFileSize, unit_of_letter.
  destruct sizePart as [|c0 s]; simpl.
  - destruct (strconv.ParseFloat32 "") as [size [e|]]; [done|].
    by repeat destruct (Ascii.eqb c _).
  - rewrite Hsplit.
    destruct (strconv.ParseFloat32 (String c0 s)) as [size [e|]]; [done|].
    by repeat destruct (Ascii.eqb c _).
Qed.

(** C3.  The three sizes and the three errors of the specification, the
    error for any last byte that is not a unit letter, and truncation: when
    [ParseFloat(_, 32)] accepts the number before the unit letter, and the
    product of the number it returns with the unit fits [int64], the
    result is that product with its fraction discarded. *)
Theorem parseFileSize_units_and_truncation :
  parseFileSize "1.5G" = (1610612736, None)
  ∧ parseFileSize "500M" = (524288000, None)
  ∧ parseFileSize "10K" = (10240, None)
  ∧ parseFileSize "100" = (-1, Some (errors_New "unable to parse: 100"))
  ∧ parseFileSize "" = (-1, Some (errors_New "empty string"))
  ∧ parseFileSize "3X" = (-1, Some (errors_New "unable to parse: 3X"))
  ∧ (∀ sizePart c,
       unit_of_letter c = None →
       ∃ err, parseFileSize (sizePart +:+ String c "") = (-1, Some err))
  ∧ (∀ sizePart c unit size,
       unit_of_letter c = Some unit →
       strconv.ParseFloat32 sizePart = (size, None) →
       fits_int64 (mul size (of_int unit)) →
       ∃ r m e,
         mul size (of_int unit) = Fin m e
         ∧ parseFileSize (sizePart +:+ String c "") = (r, None)
         ∧ is_truncation r m e).
Proof.
  do 6 (split; [by vm_compute|]). split.
  - intros sizePart c Hc. rewrite parseFileSize_snoc, Hc.
    destruct (strconv.ParseFloat32 sizePart) as [size [e|]]; eauto.
  - intros sizePart c unit size Hc Hparse Hfits.
    rewrite parseFileSize_snoc, Hparse, Hc.
    destruct (to_int64_fits _ Hfits) as (m & e & Hmul & Hto).
    exists (truncate m e), m, e. rewrite Hto.
    split_and!; [done|done|apply truncate_is_truncation].
Qed.

Lemma parseFileSize_units_and_truncation_witness :
  ∃ r m e,
    mul (Fin 10066330 (-25)) (of_int KiloByte) = Fin m e
    ∧ parseFileSize "0.3K" = (r, None)
    ∧ is_truncation r m e.
Proof.
  apply (proj2 (proj2 (proj2 (proj2 (proj2 (proj2 (proj2
           parseFileSize_units_and_truncation)))))) "0.3" "K"%char KiloByte);
    by vm_compute.
Defined.

(** The number before the unit letter is rounded to [binary32] before it
    is scaled, so the result is not always the scaled decimal with its
    fraction discarded: [1.1 * 2^30] is [11 * 2^30 / 10 = 1181116006.4],
    which truncates to [1181116006], and ["1.1G"] gives
    [float32(1.1) * 2^30 = 1181116032]. *)
Lemma parseFileSize_not_decimal_truncation :
  parseFileSize "1.1G" = (1181116032, None)
  ∧ 11 * GigaByte ÷ 10 = 1181116006
  ∧ fst (parseFileSize "1.1G") ≠ 11 * GigaByte ÷ 10.
Proof. by vm_compute. Qed.

(** ** What [ParseFloat] returns without an error *)

Lemma nearest_nonneg (fmt : format) (a b m e : Z) :
  0 <= a → 0 < b → nearest fmt a b = Some (m, e) → 0 <= m.
Proof.
  intros Ha Hb Hn. destruct (Z.eq_dec a 0) as [->|Hne].
  - unfold nearest in Hn. simpl in Hn. by injection Hn as <- <-.
  - by apply (nearest_bounds fmt a b m e) in Hn as [? _]; [|lia|].
Qed.

Lemma special_not_finite (s : string) (v : float64) (n : nat) (m e : Z) :
  strconv.special s = Some (v, n) → v ≠ Fin m e.
Proof.
  unfold strconv.special. intros H ->.
  repeat case_match; simplify_eq.
Qed.

Lemma digit_value_nonneg (hex : bool) (c : ascii) :
  strconv.is_digit c || (hex && strconv.is_hex_letter c) = true →
  0 <= strconv.digit_value c.
Proof.
  unfold strconv.digit_value, strconv.is_digit, strconv.is_hex_letter.
  intros H. destruct (Z.leb_spec 48 (strconv.byte c)); simpl in *.
  - destruct (Z.leb_spec (strconv.byte c) 57); simpl in *; [lia|].
    apply andb_prop in H as [_ H]. apply andb_prop in H as [H _].
    apply Z.leb_le in H. lia.
  - apply andb_prop in H as [_ H]. apply andb_prop in H as [H _].
    apply Z.leb_le in H. lia.
Qed.

Lemma read_digits_nonneg (hex : bool) (s rest : string) (d d' : strconv.digits) :
  0 <= strconv.mantissa d →
  strconv.read_digits hex d s = (d', rest) →
  0 <= strconv.mantissa d'.
Proof.
  revert d. induction s as [|c s IH]; intros d Hd; simpl.
  - by intros [= <- _].
  - destruct (Ascii.eqb c "_"); [by apply IH|].
    destruct (Ascii.eqb c ".").
    { destruct (strconv.sawdot d); [by intros [= <- _]|by apply IH]. }
    destruct (strconv.is_digit c || hex && strconv.is_hex_letter c) eqn:Hc;
      [|by intros [= <- _]].
    apply IH. simpl. apply (digit_value_nonneg hex) in Hc.
    destruct hex; lia.
Qed.

Lemma readFloat_fraction (s rest : string) (num : strconv.number) :
  strconv.readFloat s = Some (num, rest) →
  0 <= fst (strconv.number_fraction num) ∧ 0 < snd (strconv.number_fraction num).
Proof.
  intros H.
  assert (0 <= strconv.mant num) as Hmant.
  { unfold strconv.readFloat in H.
    repeat case_match; simplify_eq; simpl;
      (eapply read_digits_nonneg; [|eassumption]; simpl; lia). }
  unfold strconv.number_fraction. destruct (strconv.hex num); simpl.
  - pose proof (pow2_pos (strconv.exp num - 4 * strconv.frac num)).
    pose proof (pow2_pos (- (strconv.exp num - 4 * strconv.frac num))). nia.
  - assert (∀ k, 0 < 10 ^ Z.max 0 k) as Hpow
      by (intros; apply Z.pow_pos_nonneg; lia).
    pose proof (Hpow (strconv.exp num - strconv.frac num)).
    pose proof (Hpow (- (strconv.exp num - strconv.frac num))). nia.
Qed.

(** A finite result of [ParseFloat(s, 32)] is a number of [binary32]. *)
Lemma ParseFloat32_finite (s : string) (m e : Z) :
  strconv.ParseFloat32 s = (Fin m e, None) →
  -149 <= e < 128 ∧ Z.log2 (Z.abs m) + e < 128.
Proof.
  unfold strconv.ParseFloat32, strconv.atof32.
  destruct (strconv.special s) as [[v n]|] eqn:Hsp.
  { destruct (negb (n =? String.length s)%nat); simpl; [done|].
    intros [= -> ]. by eapply special_not_finite in Hsp. }
  destruct (strconv.readFloat s) as [[num rest]|] eqn:Hread; [|by case_match].
  apply readFloat_fraction in Hread as [Ha Hb].
  destruct (strconv.number_fraction num) as [a b]. simpl in Ha, Hb.
  destruct (nearest binary32 a b) as [[m0 e0]|] eqn:Hn;
    [|by destruct (negb _)].
  destruct (negb _); simpl; [done|]. intros [= <- <-].
  assert (Z.abs (if strconv.negative num then - m0 else m0) = m0) as ->.
  { pose proof (nearest_nonneg _ _ _ _ _ Ha Hb Hn).
    destruct (strconv.negative num); lia. }
  destruct (Z.eq_dec a 0) as [->|Hne].
  - unfold nearest in Hn. simpl in Hn. injection Hn as <- <-. simpl. lia.
  - apply nearest_bounds in Hn as (? & _ & Hlo & _ & Hhi); [|lia..].
    simpl in *. pose proof (Z.log2_nonneg m0). lia.
Qed.

Lemma of_int_unit (c : ascii) (unit : Z) :
  unit_of_letter c = Some unit →
  ∃ eu, of_int unit = Fin (2 ^ 52) eu ∧ -42 <= eu <= -22.
Proof.
  unfold unit_of_letter.
  repeat case_match; intros [= <-]; eexists; (split; [by vm_compute|lia]).
Qed.

(** The product of a [binary32] number and a unit is finite, and has the
    sign of the number. *)
Lemma mul_unit_finite (m e eu : Z) :
  -149 <= e < 128 → Z.log2 (Z.abs m) + e < 128 → -42 <= eu <= -22 →
  ∃ m' e', mul (Fin m e) (Fin (2 ^ 52) eu) = Fin m' e'
           ∧ (m < 0 → m' <= 0) ∧ (0 <= m → 0 <= m').
Proof.
  intros He Hm Heu. unfold mul, round_to.
  set (a := Z.abs (m * 2 ^ 52) * pow2 (e + eu)).
  set (b := pow2 (- (e + eu))).
  assert (0 < b) by apply pow2_pos.
  assert (0 <= a) by (pose proof (pow2_pos (e + eu)); subst a; nia).
  assert (Z.log2 a <= 400) as Hlog.
  { destruct (Z.eq_dec m 0) as [->|Hne]; [by vm_compute|].
    subst a. rewrite log2_mul_pow2 by lia.
    rewrite Z.abs_mul, (Z.abs_eq (2 ^ 52)) by lia.
    rewrite Z.log2_mul_pow2 by lia. lia. }
  destruct (nearest_is_Some binary64 a b) as (m0 & e0 & Hn); [done..|simpl; lia|].
  rewrite Hn. pose proof (nearest_nonneg _ _ _ _ _ ltac:(done) ltac:(done) Hn).
  eexists _, _. split; [done|].
  change (2 ^ 52 <? 0) with false. rewrite xorb_false_r.
  destruct (Z.ltb_spec m 0); split; lia.
Qed.

(** ** Negative sizes *)

(** C9, as the code has it.  [parseFileSize] does not look at the sign:
    when the number before the unit letter parses to a negative number, it
    returns a [nil] error with the product of the number and the unit,
    fraction discarded.  That product is finite and not positive; when it
    fits [int64] the result is negative if the product is [-1] or less,
    and zero otherwise. *)
Theorem parseFileSize_no_sign_check (sizePart : string) (c : ascii)
    (unit m e : Z) :
  unit_of_letter c = Some unit →
  strconv.ParseFloat32 sizePart = (Fin m e, None) →
  m < 0 →
  ∃ m' e',
    mul (Fin m e) (of_int unit) = Fin m' e' ∧ m' <= 0
    ∧ parseFileSize (sizePart +:+ String c "") = (to_int64 (Fin m' e'), None)
    ∧ (int64_min <= truncate m' e' →
       to_int64 (Fin m' e') = truncate m' e'
       ∧ is_truncation (truncate m' e') m' e'
       ∧ truncate m' e' <= 0
       ∧ (truncate m' e' < 0 ↔ pow2 (- e') <= - m' * pow2 e')).
Proof.
  intros Hc Hparse Hneg.
  destruct (of_int_unit c unit Hc) as (eu & Hunit & Heu).
  destruct (ParseFloat32_finite _ _ _ Hparse) as [He Hm].
  destruct (mul_unit_finite m e eu He Hm Heu) as (m' & e' & Hmul & Hsign & _).
  exists m', e'. rewrite parseFileSize_snoc, Hparse, Hc, Hunit, Hmul.
  split_and!; [done|lia|done|]. intros Hlo.
  pose proof (truncate_is_truncation m' e') as Htr.
  pose proof (pow2_pos e'). pose proof (pow2_pos (- e')).
  assert (truncate m' e' <= 0) as Hle.
  { destruct Htr as [Hs Hb]. destruct (Z.eq_dec m' 0) as [->|]; nia. }
  split_and!; [|done|done|].
  - destruct (to_int64_fits (Fin m' e')) as (? & ? & [= <- <-] & ->); [|done].
    simpl. unfold int64_max. split; [done|]. lia.
  - destruct Htr as [Hs Hb]. rewrite (Z.abs_neq m'), (Z.abs_neq (truncate m' e')) in Hb by lia.
    split; intros; nia.
Qed.

Lemma parseFileSize_no_sign_check_witness :
  ∃ m' e',
    mul (Fin (-10485760) (-21)) (of_int KiloByte) = Fin m' e' ∧ m' <= 0
    ∧ parseFileSize "-5K" = (to_int64 (Fin m' e'), None)
    ∧ (int64_min <= truncate m' e' →
       to_int64 (Fin m' e') = truncate m' e'
       ∧ is_truncation (truncate m' e') m' e'
       ∧ truncate m' e' <= 0
       ∧ (truncate m' e' < 0 ↔ pow2 (- e') <= - m' * pow2 e')).
Proof.
  apply (parseFileSize_no_sign_check "-5" "K"%char KiloByte); by vm_compute.
Defined.

(** C9, as stated, fails: a negative number whose product with the unit
    is above [-1] gives zero, not a negative count. *)
Lemma parseFileSize_negative_gives_zero :
  ¬ (∀ (sizePart : string) (c : ascii) (unit m e : Z),
       unit_of_letter c = Some unit →
       strconv.ParseFloat32 sizePart = (Fin m e, None) →
       m < 0 →
       ∃ n, parseFileSize (sizePart +:+ String c "") = (n, None) ∧ n < 0).
Proof.
  intros H.
  destruct (H "-0.0001" "K"%char KiloByte (-13743895) (-37))
    as (n & Hn & Hneg); [by vm_compute..|].
  vm_compute in Hn. injection Hn as <-. lia.
Qed.

(** ** Formatting *)

Lemma all_digits_string_of_uint (d : Decimal.uint) :
  all_digits (NilEmpty.string_of_uint d) = true.
Proof. induction d; simpl; done. Qed.

Lemma verb_d_digits (n : Z) :
  0 <= n → all_digits (fmt.verb_d n) = true ∧ fmt.verb_d n ≠ "".
Proof.
  intros Hn. unfold fmt.verb_d.
  destruct n as [|p|p]; [done| |lia]. simpl.
  destruct (Pos.to_uint p) eqn:Hp; simpl;
    try (split; [apply all_digits_string_of_uint|done]).
  done.
Qed.

Lemma is_digit_not_point (c : ascii) :
  strconv.is_digit c = true → Ascii.eqb c "." = false.
Proof.
  intros Hc. destruct (Ascii.eqb_spec c ".") as [->|]; [|done].
  by vm_compute in Hc.
Qed.

Lemma is_number_digits (s : string) :
  s ≠ "" → all_digits s = true → is_number s = true.
Proof.
  induction s as [|c s IH]; [done|]. intros _ [Hc Hs]%andb_prop.
  simpl. rewrite Hc. simpl. destruct s as [|c' s]; [done|].
  pose proof Hs as [Hc' _]%andb_prop.
  rewrite (is_digit_not_point c' Hc'). by apply IH.
Qed.

Lemma is_number_point (int frac : string) :
  int ≠ "" → all_digits int = true →
  frac ≠ "" → all_digits frac = true →
  is_number (int +:+ String "." frac) = true.
Proof.
  intros Hne Hint Hfne Hfrac.
  induction int as [|c int IH]; [done|].
  apply andb_prop in Hint as [Hc Hint].
  simpl. rewrite Hc. simpl. destruct int as [|c' int]; simpl.
  - rewrite Hfrac. by destruct frac.
  - pose proof Hint as [Hc' _]%andb_prop.
    rewrite (is_digit_not_point c' Hc'). by apply IH.
Qed.

Lemma is_digit_digit_char (d : Z) :
  0 <= d <= 9 → strconv.is_digit (fmt.digit_char d) = true.
Proof.
  intros Hd.
  assert (d = 0 ∨ d = 1 ∨ d = 2 ∨ d = 3 ∨ d = 4 ∨ d = 5 ∨ d = 6 ∨ d = 7
          ∨ d = 8 ∨ d = 9) as Hcases by lia.
  repeat destruct Hcases as [->|Hcases]; try subst d; by vm_compute.
Qed.

(** [%.2f] of a finite number that is not negative is a run of digits, a
    point and two digits. *)
Lemma verb_2f_is_number (m e : Z) :
  0 <= m → is_number (fmt.verb_2f (Fin m e)) = true.
Proof.
  intros Hm. unfold fmt.verb_2f.
  destruct (Z.ltb_spec m 0) as [|_]; [lia|]. simpl.
  set (n := round_half_even (Z.abs m * 100 * pow2 e) (pow2 (- e))).
  assert (0 <= n) as Hn.
  { apply round_half_even_nonneg; [|apply pow2_pos].
    pose proof (pow2_pos e). lia. }
  destruct (verb_d_digits (n / 100)) as [Hd Hne]; [by apply Z.div_pos|].
  apply is_number_point; [done..|]. simpl.
  rewrite !is_digit_digit_char; [done| |].
  - pose proof (Z.mod_pos_bound n 10). lia.
  - pose proof (Z.mod_pos_bound n 100).
    assert (0 <= n mod 100 / 10 < 10); [|lia].
    split; [apply Z.div_pos; lia|apply Z.div_lt_upper_bound; lia].
Qed.

(** [float64(size)] for a size of [int64] that is not negative. *)
Lemma of_int_finite (size : Z) :
  0 <= size <= int64_max →
  ∃ m e, of_int size = Fin m e ∧ 0 <= m < 2 ^ 118 ∧ -53 <= e <= 11.
Proof.
  intros [Hlo Hhi]. unfold int64_max in Hhi.
  destruct (Z.eq_dec size 0) as [->|Hne]; [exists 0, 0; by vm_compute|].
  unfold of_int, round_to. rewrite Z.abs_eq by lia.
  assert (Z.log2 size < 63) as Hlog by (apply Z.log2_lt_pow2; lia).
  destruct (nearest_is_Some binary64 size 1) as (m & e & Hn); [lia..|simpl; lia|].
  rewrite Hn. exists (if size <? 0 then - m else m), e.
  apply nearest_bounds in Hn as (Hm0 & Hm1 & He0 & He1 & _); [|lia..].
  simpl in *. change (Z.log2 1) with 0 in *.
  pose proof (Z.log2_nonneg size).
  destruct (Z.ltb_spec size 0); [lia|].
  split_and!; [done|lia| |lia..].
  assert (pow2 (- e) <= 2 ^ 53).
  { unfold pow2. apply Z.pow_le_mono_r; lia. }
  pose proof (pow2_pos (- e)).
  assert (size * pow2 (- e) <= (2 ^ 63 - 1) * 2 ^ 53) by nia. lia.
Qed.

(** The quotient of such a number by a unit is finite and not negative. *)
Lemma div_unit_finite (m e eu : Z) :
  0 <= m < 2 ^ 118 → -53 <= e <= 11 → -42 <= eu <= -22 →
  ∃ m' e', div (Fin m e) (Fin (2 ^ 52) eu) = Fin m' e' ∧ 0 <= m'.
Proof.
  intros Hm He Heu. unfold div, round_to.
  change (2 ^ 52 =? 0) with false. cbv iota.
  set (a := Z.abs m * pow2 (e - eu)).
  set (b := Z.abs (2 ^ 52) * pow2 (eu - e)).
  assert (0 < b) by (pose proof (pow2_pos (eu - e)); subst b; lia).
  assert (0 <= a) by (pose proof (pow2_pos (e - eu)); subst a; nia).
  assert (Z.log2 a <= 400) as Hlog.
  { destruct (Z.eq_dec m 0) as [->|Hne]; [by vm_compute|].
    subst a. rewrite log2_mul_pow2, Z.abs_eq by lia.
    assert (Z.log2 m < 118) by (apply Z.log2_lt_pow2; lia). lia. }
  destruct (nearest_is_Some binary64 a b) as (m0 & e0 & Hn); [done..|simpl; lia|].
  rewrite Hn. pose proof (nearest_nonneg _ _ _ _ _ ltac:(done) ltac:(done) Hn).
  eexists _, _. split; [done|].
  change (2 ^ 52 <? 0) with false. rewrite xorb_false_r.
  destruct (Z.ltb_spec m 0); lia.
Qed.

Lemma Sprintf_2f_unit (size : Z) (c : ascii) (unit : Z) :
  unit_of_letter c = Some unit →
  0 <= size <= int64_max →
  is_number (fmt.verb_2f (div (of_int size) (of_int unit))) = true.
Proof.
  intros Hc Hsize.
  destruct (of_int_unit c unit Hc) as (eu & -> & Heu).
  destruct (of_int_finite size Hsize) as (m & e & -> & Hm & He).
  destruct (div_unit_finite m e eu Hm He Heu) as (m' & e' & -> & Hm').
  by apply verb_2f_is_number.
Qed.

(** ** [FormatSize] *)

Lemma FormatSize_copies (size : Z) :
  tui_model.FormatSize size = tui_utils.FormatSize size.
Proof. reflexivity. Qed.

(** C10.  The two copies of [FormatSize] agree.  A negative size gives
    ["--"].  A size of [int64] that is not negative gives a number (digits,
    with a point and two more digits unless the unit is bytes) followed by
    one suffix: ["GB"] from [1024^3], else ["MB"] from [1024^2], else
    ["KB"] from [1024], else ["B"]. *)
Theorem FormatSize_sentinel_and_units (size : Z) :
  tui_model.FormatSize size = tui_utils.FormatSize size
  ∧ (size < 0 → tui_utils.FormatSize size = "--")
  ∧ (0 <= size <= int64_max →
     ∃ number,
       is_number number = true
       ∧ tui_utils.FormatSize size = number +:+ unit_suffix size).
Proof.
  split; [reflexivity|]. unfold tui_utils.FormatSize, unit_suffix. split.
  - intros Hneg. by destruct (Z.ltb_spec size 0); [|lia].
  - intros Hsize. destruct (Z.ltb_spec size 0); [lia|].
    destruct (GigaByte <=? size).
    { eexists. split; [|done]. by apply (Sprintf_2f_unit size "G"). }
    destruct (MegaByte <=? size).
    { eexists. split; [|done]. by apply (Sprintf_2f_unit size "M"). }
    destruct (Z.leb_spec KiloByte size).
    { eexists. split; [|done]. by apply (Sprintf_2f_unit size "K"). }
    eexists. split; [|done].
    destruct (verb_d_digits size) as [Hd Hne]; [lia|].
    by apply is_number_digits.
Qed.

Lemma FormatSize_sentinel_and_units_witness :
  tui_utils.FormatSize (fst (parseFileSize "")) = "--"
  ∧ ∃ number,
      is_number number = true
      ∧ tui_utils.FormatSize 1610612736 = number +:+ unit_suffix 1610612736.
Proof.
  split.
  - apply (proj1 (proj2 (FormatSize_sentinel_and_units (fst (parseFileSize ""))))).
    by vm_compute.
  - apply (proj2 (proj2 (FormatSize_sentinel_and_units 1610612736))).
    by vm_compute.
Defined.

(** * Further properties of the code *)

(** ** [Search] under different schedules *)













(** X3.  [errChan] is made with room for one error per provider, and each
    goroutine sends at most one: however many providers fail, no send to
    [errChan] finds it full, so no goroutine blocks on it. *)
Theorem errChan_never_full (sch : Schedule) (registry : ProviderAggregator)
    (keywords : list string) :
  wf_schedule (length (providerList registry)) sch →
  (length (errChan (run_providers sch registry keywords))
   ≤ length (providerList registry))%nat.
Proof. apply errChan_within_capacity. Qed.

Lemma errChan_never_full_witness :
  (length (errChan (run_providers (mkSchedule [2; 0; 1]%nat []) two_batches ["x"]))
   ≤ length (providerList two_batches))%nat.
Proof.
  apply errChan_never_full. split; simpl.
  - apply (bool_decide_unpack _). by vm_compute.
  - apply Forall_forall, (bool_decide_unpack _). by vm_compute.
Defined.

(** ** [parseFileSize]: when it succeeds *)

Lemma split_last_spec (c0 : ascii) (s0 : string) :
  String c0 s0 = fst (split_last c0 s0) +:+ String (snd (split_last c0 s0)) "".
Proof.
  revert c0. induction s0 as [|c1 s1 IH]; intros c0; simpl; [done|].
  specialize (IH c1). destruct (split_last c1 s1) as [init l]. simpl in *.
  by rewrite IH.
Qed.

Lemma string_snoc_inv (s : string) :
  s = "" ∨ ∃ sizePart c, s = sizePart +:+ String c "".
Proof.
  destruct s as [|c0 s0]; [by left|]. right.
  eexists _, _. apply split_last_spec.
Qed.

(** X4.  [parseFileSize] succeeds exactly on the strings made of a number
    that [ParseFloat] accepts followed by one of the bytes [G], [M], [K]
    (in upper case), and then returns the product converted to [int64];
    whenever it fails, the size it returns beside the error is [-1]. *)
Theorem parseFileSize_success_iff (sizeStr : string) (n : Z) :
  (parseFileSize sizeStr = (n, None) ↔
   ∃ sizePart c unit size,
     sizeStr = sizePart +:+ String c ""
     ∧ unit_of_letter c = Some unit
     ∧ strconv.ParseFloat32 sizePart = (size, None)
     ∧ n = to_int64 (mul size (of_int unit)))
  ∧ (∀ err, parseFileSize sizeStr = (n, Some err) → n = -1).
Proof.
  split; [split|].
  - intros Hok. destruct (string_snoc_inv sizeStr) as [->|(sizePart & c & ->)].
    { by vm_compute in Hok. }
    exists sizePart, c. rewrite parseFileSize_snoc in Hok.
    destruct (strconv.ParseFloat32 sizePart) as [size [e|]]; [done|].
    destruct (unit_of_letter c) as [unit|]; [|done].
    injection Hok as <-. by exists unit, size.
  - intros (sizePart & c & unit & size & -> & Hc & Hparse & ->).
    by rewrite parseFileSize_snoc, Hparse, Hc.
  - intros err Herr.
    destruct (string_snoc_inv sizeStr) as [->|(sizePart & c & ->)].
    { vm_compute in Herr. congruence. }
    rewrite parseFileSize_snoc in Herr.
    destruct (strconv.ParseFloat32 sizePart) as [size [e|]]; [congruence|].
    destruct (unit_of_letter c); congruence.
Qed.

(** X5.  The sign of the number is kept: when the number before the unit
    letter parses to a number that is not negative and the product fits
    [int64], the size returned is not negative. *)
Theorem parseFileSize_nonnegative (sizePart : string) (c : ascii)
    (unit m e : Z) :
  unit_of_letter c = Some unit →
  strconv.ParseFloat32 sizePart = (Fin m e, None) →
  0 <= m →
  fits_int64 (mul (Fin m e) (of_int unit)) →
  ∃ n, parseFileSize (sizePart +:+ String c "") = (n, None) ∧ 0 <= n.
Proof.
  intros Hc Hparse Hm Hfits.
  destruct (of_int_unit c unit Hc) as (eu & Hunit & Heu).
  destruct (ParseFloat32_finite _ _ _ Hparse) as [He Hlog].
  destruct (mul_unit_finite m e eu He Hlog Heu) as (m' & e' & Hmul & _ & Hsign).
  rewrite parseFileSize_snoc, Hparse, Hc. eexists. split; [done|].
  rewrite Hunit, Hmul in Hfits |- *.
  destruct (to_int64_fits _ Hfits) as (? & ? & [= <- <-] & ->).
  pose proof (truncate_is_truncation m' e') as [Hs Hb].
  pose proof (pow2_pos e'). pose proof (pow2_pos (- e')).
  specialize (Hsign Hm). destruct (Z.eq_dec m' 0) as [->|]; nia.
Qed.

Lemma parseFileSize_nonnegative_witness :
  ∃ n, parseFileSize "0.3K" = (n, None) ∧ 0 <= n.
Proof.
  apply (parseFileSize_nonnegative "0.3" "K"%char KiloByte 10066330 (-25));
    by vm_compute.
Defined.

(** ** [parseFileSize] and [FormatSize] together *)

Lemma is_number_starts_with_digit (s : string) :
  is_number s = true → ∃ c s', s = String c s' ∧ strconv.is_digit c = true.
Proof.
  destruct s as [|c s']; [done|]. simpl. intros [Hc _]%andb_prop. eauto.
Qed.

(** X6.  ["--"] stands for a negative size and for nothing else: for a size
    of [int64], [FormatSize] returns ["--"] exactly when the size is
    negative. *)
Theorem FormatSize_sentinel_iff (size : Z) :
  size <= int64_max →
  (tui_utils.FormatSize size = "--" ↔ size < 0).
Proof.
  intros Hmax. split.
  - intros Hfmt. destruct (Z.lt_ge_cases size 0) as [|Hge]; [done|exfalso].
    assert (∃ number, is_number number = true
                      ∧ tui_utils.FormatSize size = number +:+ unit_suffix size)
      as (number & Hnum & Heq).
    { unfold tui_utils.FormatSize, unit_suffix.
      destruct (Z.ltb_spec size 0); [lia|].
      destruct (GigaByte <=? size).
      { eexists. split; [|done]. by apply (Sprintf_2f_unit size "G"). }
      destruct (MegaByte <=? size).
      { eexists. split; [|done]. by apply (Sprintf_2f_unit size "M"). }
      destruct (Z.leb_spec KiloByte size).
      { eexists. split; [|done]. by apply (Sprintf_2f_unit size "K"). }
      eexists. split; [|done].
      destruct (verb_d_digits size) as [Hd Hne]; [lia|].
      by apply is_number_digits. }
    apply is_number_starts_with_digit in Hnum as (c & s' & -> & Hc).
    rewrite Hfmt in Heq. simpl in Heq. injection Heq as <- _.
    by vm_compute in Hc.
  - intros Hneg. unfold tui_utils.FormatSize.
    by destruct (Z.ltb_spec size 0); [|lia].
Qed.

Lemma FormatSize_sentinel_iff_witness :
  tui_utils.FormatSize (-1) = "--" ↔ -1 < 0.
Proof. apply FormatSize_sentinel_iff. by vm_compute. Defined.

(** X7.  A size string that [parseFileSize] rejects is displayed as ["--"]:
    the [-1] returned with every error is formatted as the unknown size. *)
Theorem FormatSize_of_failed_parse (sizeStr : string) (n : Z) (err : error_value) :
  parseFileSize sizeStr = (n, Some err) →
  tui_utils.FormatSize n = "--" ∧ tui_model.FormatSize n = "--".
Proof.
  intros Herr.
  assert (n = -1) as ->; [|done].
  destruct (string_snoc_inv sizeStr) as [->|(sizePart & c & ->)].
  { vm_compute in Herr. congruence. }
  rewrite parseFileSize_snoc in Herr.
  destruct (strconv.ParseFloat32 sizePart) as [size [e|]]; [congruence|].
  destruct (unit_of_letter c); congruence.
Qed.

Lemma FormatSize_of_failed_parse_witness :
  tui_utils.FormatSize (-1) = "--" ∧ tui_model.FormatSize (-1) = "--".
Proof.
  apply (FormatSize_of_failed_parse "12 MB" (-1)
           (NumError "ParseFloat" "12 M" ErrSyntax)).
  by vm_compute.
Defined.

(** ** Whole numbers are exact *)

Lemma round_half_even_exact (x b : Z) :
  0 < b → round_half_even (x * b) b = x.
Proof.
  intros Hb. unfold round_half_even. cbv zeta.
  rewrite Z.div_mul by lia. rewrite Z.mod_mul by lia.
  by destruct (Z.ltb_spec (2 * 0) b); [|lia].
Qed.

(** A number [M * 2^E] of the format is its own nearest number. *)
Lemma nearest_exact (fmt : format) (a b M E : Z) :
  0 < b → 0 < M → Z.log2 M < prec fmt →
  emin fmt <= E → Z.log2 M + E < emax fmt →
  a * pow2 (- E) = M * pow2 E * b →
  ∃ e, e <= E ∧ nearest fmt a b = Some (M * 2 ^ (E - e), e).
Proof.
  intros Hb HM Hprec Hemin Hemax Heq.
  pose proof (pow2_pos E) as HpE. pose proof (pow2_pos (- E)) as HpnE.
  assert (0 < a) as Ha by nia.
  destruct (floor_log2_spec a b Ha Hb) as [Hfl _].
  pose proof (Z.log2_nonneg M) as HlogM.
  assert (floor_log2 a b <= Z.log2 M + E) as Hfl_le.
  { destruct (Z.le_gt_cases (floor_log2 a b) (Z.log2 M + E)) as [|Hgt]; [done|].
    exfalso.
    set (p := Z.log2 M + 1).
    assert (M < 2 ^ p) as HMp.
    { pose proof (Z.log2_spec M HM) as [_ H]. by rewrite <- Z.add_1_r in H. }
    pose proof (pow2_shift E p ltac:(lia)) as Hs.
    pose proof (pow2_pos (E + p)). pose proof (pow2_pos (- (E + p))).
    assert (a * pow2 (- (E + p)) < b * pow2 (E + p)) as Hlt.
    { apply (Z.mul_lt_mono_pos_r (pow2 (- E))); [done|].
      assert (a * pow2 (- (E + p)) * pow2 (- E) =
              M * (pow2 E * b * pow2 (- (E + p)))) as ->
        by (rewrite (Z.mul_comm a), <- Z.mul_assoc, Heq; ring).
      assert (b * pow2 (E + p) * pow2 (- E) =
              2 ^ p * (pow2 E * b * pow2 (- (E + p)))) as ->
        by (rewrite <- Z.mul_assoc, Hs; ring).
      apply Z.mul_lt_mono_pos_r; [nia|done]. }
    apply (below_pow2_mono a b _ (floor_log2 a b - (E + p))) in Hlt;
      [|lia..].
    replace (E + p + (floor_log2 a b - (E + p))) with (floor_log2 a b) in Hlt
      by lia.
    lia. }
  unfold nearest. destruct (Z.eqb_spec a 0) as [?|_]; [lia|].
  set (e0 := Z.max (floor_log2 a b - (prec fmt - 1)) (emin fmt)).
  assert (e0 <= E) as He0 by lia.
  exists e0. split; [done|].
  pose proof (pow2_pos e0). pose proof (pow2_pos (- e0)).
  assert (0 < 2 ^ (E - e0)) by (apply Z.pow_pos_nonneg; lia).
  assert (a * pow2 (- e0) = M * 2 ^ (E - e0) * (b * pow2 e0)) as ->.
  { apply (Z.mul_cancel_r _ _ (pow2 (- E))); [lia|].
    pose proof (pow2_shift e0 (E - e0) ltac:(lia)) as Hs.
    replace (e0 + (E - e0)) with E in Hs by lia.
    assert (a * pow2 (- e0) * pow2 (- E) = M * b * (pow2 E * pow2 (- e0))) as ->
      by (rewrite (Z.mul_comm a), <- Z.mul_assoc, Heq; ring).
    rewrite Hs. ring. }
  rewrite round_half_even_exact by nia.
  rewrite Z.log2_mul_pow2 by lia.
  by destruct (Z.leb_spec (emax fmt) (E - e0 + Z.log2 M + e0)); [lia|].
Qed.

(** Discarding the fraction of a whole number changes nothing. *)
Lemma truncate_exact (n E e : Z) :
  0 <= E → e <= E → truncate (n * 2 ^ (E - e)) e = n * 2 ^ E.
Proof.
  intros HE He. unfold truncate.
  destruct (Z.leb_spec 0 e).
  - rewrite <- Z.mul_assoc, <- Z.pow_add_r by lia. do 2 f_equal. lia.
  - replace (E - e) with (E + - e) by lia.
    rewrite Z.pow_add_r, Z.mul_assoc by lia.
    apply Z.quot_mul. apply Z.pow_nonzero; lia.
Qed.


(** [float64(n)] is [n] itself for a whole number below [2^53]. *)
Lemma of_int_exact (n : Z) :
  0 < n → Z.log2 n < 53 → ∃ e, e <= 0 ∧ of_int n = Fin (n * 2 ^ (0 - e)) e.
Proof.
  intros Hn Hlog. unfold of_int, round_to. rewrite Z.abs_eq by lia.
  destruct (nearest_exact binary64 n 1 n 0) as (e & He & ->);
    [lia|lia|simpl; lia|simpl; lia|simpl; lia| |].
  { change (pow2 (- 0)) with 1. change (pow2 0) with 1. lia. }
  exists e. split; [done|]. by destruct (Z.ltb_spec n 0); [lia|].
Qed.

(** The product of a whole number below [2^24] and a unit is exact. *)
Lemma mul_unit_exact (n e eu : Z) :
  0 < n → Z.log2 n < 24 → e <= 0 → -42 <= eu <= -22 →
  to_int64 (mul (Fin (n * 2 ^ (0 - e)) e) (Fin (2 ^ 52) eu)) = n * 2 ^ (52 + eu).
Proof.
  intros Hn Hlog He Heu. unfold mul, round_to.
  assert (0 < 2 ^ (0 - e)) by (apply Z.pow_pos_nonneg; lia).
  assert (0 < n * 2 ^ (0 - e)) by lia.
  destruct (nearest_exact binary64
              (Z.abs (n * 2 ^ (0 - e) * 2 ^ 52) * pow2 (e + eu))
              (pow2 (- (e + eu))) n (52 + eu)) as (e' & He' & ->);
    [apply pow2_pos|lia|simpl; lia|simpl; lia|simpl; lia| |].
  { rewrite Z.abs_eq by lia.
    destruct (pow2_nonneg_exp (52 + eu) ltac:(lia)) as [-> ->].
    destruct (Z.le_gt_cases 0 (e + eu)) as [Hs|Hs].
    - destruct (pow2_nonneg_exp _ Hs) as [-> ->].
      rewrite !Z.mul_1_r, <- !Z.mul_assoc. f_equal.
      rewrite <- !Z.pow_add_r by lia. f_equal. lia.
    - destruct (pow2_neg_exp _ Hs) as [-> ->].
      rewrite !Z.mul_1_r, <- !Z.mul_assoc. f_equal.
      rewrite <- !Z.pow_add_r by lia. f_equal. lia. }
  replace (xorb (n * 2 ^ (0 - e) <? 0) (2 ^ 52 <? 0)) with false
    by (by destruct (Z.ltb_spec (n * 2 ^ (0 - e)) 0); [lia|]).
  unfold to_int64. rewrite truncate_exact by lia.
  assert (n < 2 ^ 24) by (apply Z.log2_lt_pow2; lia).
  assert (0 < 2 ^ (52 + eu) <= 2 ^ 30).
  { split; [apply Z.pow_pos_nonneg; lia|apply Z.pow_le_mono_r; lia]. }
  unfold int64_min, int64_max.
  destruct (Z.leb_spec (- 2 ^ 63) (n * 2 ^ (52 + eu))); [|nia].
  destruct (Z.leb_spec (n * 2 ^ (52 + eu)) (2 ^ 63 - 1)); [done|nia].
Qed.

(** The quotient of a whole multiple of a unit by the unit is exact. *)
Lemma div_unit_exact (q eu : Z) :
  0 < q → Z.log2 q + (52 + eu) < 53 → -42 <= eu <= -22 →
  ∃ e, e <= 0
       ∧ div (of_int (q * 2 ^ (52 + eu))) (Fin (2 ^ 52) eu) = Fin (q * 2 ^ (0 - e)) e.
Proof.
  intros Hq Hlog Heu.
  assert (0 < 2 ^ (52 + eu)) by (apply Z.pow_pos_nonneg; lia).
  destruct (of_int_exact (q * 2 ^ (52 + eu))) as (e1 & He1 & ->); [lia| |].
  { rewrite Z.log2_mul_pow2 by lia. lia. }
  unfold div, round_to. change (2 ^ 52 =? 0) with false. cbv iota.
  assert (0 < 2 ^ (0 - e1)) by (apply Z.pow_pos_nonneg; lia).
  destruct (nearest_exact binary64
              (Z.abs (q * 2 ^ (52 + eu) * 2 ^ (0 - e1)) * pow2 (e1 - eu))
              (Z.abs (2 ^ 52) * pow2 (eu - e1)) q 0) as (e & He & ->);
    [pose proof (pow2_pos (eu - e1)); lia|lia|simpl; lia|simpl; lia|simpl; lia| |].
  { rewrite !Z.abs_eq by nia. change (pow2 (- 0)) with 1. change (pow2 0) with 1.
    rewrite !Z.mul_1_r.
    destruct (Z.le_gt_cases 0 (e1 - eu)) as [Hs|Hs].
    - destruct (pow2_nonneg_exp _ Hs) as [-> Hn].
      replace (eu - e1) with (- (e1 - eu)) by lia. rewrite Hn.
      rewrite !Z.mul_1_r, <- !Z.mul_assoc. f_equal.
      rewrite <- !Z.pow_add_r by lia. f_equal. lia.
    - destruct (pow2_neg_exp _ Hs) as [-> Hn].
      replace (eu - e1) with (- (e1 - eu)) by lia. rewrite Hn.
      rewrite !Z.mul_1_r, <- !Z.mul_assoc. f_equal.
      rewrite <- !Z.pow_add_r by lia. f_equal. lia. }
  exists e. split; [done|].
  replace (xorb (q * 2 ^ (52 + eu) * 2 ^ (0 - e1) <? 0) (2 ^ 52 <? 0)) with false;
    [done|].
  by destruct (Z.ltb_spec (q * 2 ^ (52 + eu) * 2 ^ (0 - e1)) 0); [nia|].
Qed.

(** [%.2f] of a whole number is its decimal followed by [.00]. *)
Lemma verb_2f_whole (q e : Z) :
  0 <= q → e <= 0 →
  fmt.verb_2f (Fin (q * 2 ^ (0 - e)) e) = fmt.verb_d q +:+ ".00".
Proof.
  intros Hq He. unfold fmt.verb_2f.
  assert (0 < 2 ^ (0 - e)) by (apply Z.pow_pos_nonneg; lia).
  destruct (Z.ltb_spec (q * 2 ^ (0 - e)) 0); [nia|].
  assert (pow2 e = 1 ∧ pow2 (- e) = 2 ^ (0 - e)) as [-> ->].
  { unfold pow2. rewrite Z.max_l, Z.max_r by lia. split; [done|f_equal; lia]. }
  rewrite Z.abs_eq, Z.mul_1_r by nia.
  replace (q * 2 ^ (0 - e) * 100) with (q * 100 * 2 ^ (0 - e)) by ring.
  rewrite round_half_even_exact by done.
  rewrite Z.div_mul by lia.
  replace (q * 100 mod 100) with 0 by (by rewrite Z.mod_mul).
  replace (q * 100 mod 10) with 0.
  2:{ replace (q * 100) with (q * 10 * 10) by ring. by rewrite Z.mod_mul. }
  done.
Qed.


(** ** Decimal strings and [ParseFloat] *)

Lemma is_digit_cases (c : ascii) :
  strconv.is_digit c = true →
  Ascii.eqb c "+" = false ∧ Ascii.eqb c "-" = false ∧ Ascii.eqb c "_" = false
  ∧ Ascii.eqb c "." = false ∧ Ascii.eqb c "i" = false ∧ Ascii.eqb c "I" = false
  ∧ Ascii.eqb c "n" = false ∧ Ascii.eqb c "N" = false
  ∧ Ascii.eqb (strconv.lower c) "x" = false
  ∧ Ascii.eqb (strconv.lower c) "e" = false.
Proof.
  destruct c as [[] [] [] [] [] [] [] []]; intros H; try done;
    by vm_compute in H.
Qed.

(** The digit loop of [readFloat] on a decimal digit. *)
Lemma read_digits_digit (c : ascii) (s : string) (d : strconv.digits) :
  strconv.is_digit c = true →
  strconv.read_digits false d (String c s) =
  strconv.read_digits false
    (strconv.mkDigits (strconv.mantissa d * 10 + strconv.digit_value c)
       (if strconv.sawdot d then strconv.fraction_digits d + 1
        else strconv.fraction_digits d)
       (strconv.sawdot d) true (strconv.underscores d)) s.
Proof.
  intros Hc. destruct (is_digit_cases c Hc) as (_ & _ & H1 & H2 & _).
  cbn [strconv.read_digits]. by rewrite H1, H2, Hc.
Qed.

Ltac read_digit IH :=
  rewrite read_digits_digit by reflexivity;
  cbn [strconv.mantissa strconv.fraction_digits strconv.sawdot
       strconv.underscores];
  match goal with
  | |- context [strconv.digit_value ?c] =>
      let v := eval vm_compute in (strconv.digit_value c) in
      change (strconv.digit_value c) with v
  end.

Lemma read_digits_acc (u : Decimal.uint) (acc : positive) (f : Z) (sd us : bool) :
  strconv.read_digits false (strconv.mkDigits (Z.pos acc) f false sd us)
    (NilEmpty.string_of_uint u) =
  (strconv.mkDigits (Z.pos (Pos.of_uint_acc u acc)) f false
     (match u with Nil => sd | _ => true end) us, "").
Proof.
  revert acc sd.
  induction u as [|u IH|u IH|u IH|u IH|u IH|u IH|u IH|u IH|u IH|u IH];
    intros acc sd; [done|..];
    cbn [NilEmpty.string_of_uint Pos.of_uint_acc]; read_digit IH;
    match goal with
    | |- context [Z.pos acc * 10 + ?k] =>
        first [ replace (Z.pos acc * 10 + k) with (Z.pos (10 * acc)) by lia
              | replace (Z.pos acc * 10 + k)
                  with (Z.pos (Z.to_pos k + 10 * acc)) by lia ]
    end;
    rewrite IH; by destruct u.
Qed.

Lemma read_digits_uint (u : Decimal.uint) (f : Z) (sd us : bool) :
  strconv.read_digits false (strconv.mkDigits 0 f false sd us)
    (NilEmpty.string_of_uint u) =
  (strconv.mkDigits (Z.of_uint u) f false
     (match u with Nil => sd | _ => true end) us, "").
Proof.
  revert sd.
  induction u as [|u IH|u IH|u IH|u IH|u IH|u IH|u IH|u IH|u IH|u IH];
    intros sd; [done|..];
    cbn [NilEmpty.string_of_uint]; read_digit IH;
    rewrite Z.mul_0_l, Z.add_0_l; cbn [Z.of_uint Pos.of_uint Z.of_N].
  - rewrite IH. by destruct u.
  - rewrite read_digits_acc. by destruct u.
  - rewrite read_digits_acc. by destruct u.
  - rewrite read_digits_acc. by destruct u.
  - rewrite read_digits_acc. by destruct u.
  - rewrite read_digits_acc. by destruct u.
  - rewrite read_digits_acc. by destruct u.
  - rewrite read_digits_acc. by destruct u.
  - rewrite read_digits_acc. by destruct u.
  - rewrite read_digits_acc. by destruct u.
Qed.

(** The decimal that [%d] prints for a number that is not negative. *)
Lemma verb_d_uint (n : Z) :
  0 <= n →
  ∃ u, u ≠ Nil ∧ fmt.verb_d n = NilEmpty.string_of_uint u ∧ Z.of_uint u = n.
Proof.
  intros Hn. unfold fmt.verb_d. destruct n as [|p|p]; [| |lia].
  - by exists (D0 Nil).
  - exists (Pos.to_uint p). pose proof (Unsigned.to_uint_nonnil p) as Hne.
    split_and!; [done| |].
    + simpl. by destruct (Pos.to_uint p).
    + unfold Z.of_uint. by rewrite DecimalPos.Unsigned.of_to.
Qed.

Lemma special_digit (c : ascii) (s : string) :
  strconv.is_digit c = true → strconv.special (String c s) = None.
Proof.
  intros Hc. destruct (is_digit_cases c Hc) as (H1 & H2 & _ & _ & H3 & H4 & H5 & H6 & _).
  unfold strconv.special. by rewrite H1, H2, H3, H4, H5, H6.
Qed.

(** [readFloat] on a run of decimal digits. *)
Lemma readFloat_digits (c : ascii) (s : string) (n : Z) :
  strconv.is_digit c = true → all_digits s = true →
  strconv.read_digits false (strconv.mkDigits 0 0 false false false) (String c s)
  = (strconv.mkDigits n 0 false true false, "") →
  strconv.readFloat (String c s) = Some (strconv.mkNumber false false n 0 0, "").
Proof.
  intros Hc Hs Hread.
  destruct (is_digit_cases c Hc) as (H1 & H2 & _).
  unfold strconv.readFloat. rewrite H1, H2.
  assert (match String c s with
          | String z (String x (String c' r)) =>
              if Ascii.eqb z "0" && Ascii.eqb (strconv.lower x) "x"
              then (true, String c' r) else (false, String c s)
          | _ => (false, String c s)
          end = (false, String c s)) as ->.
  { destruct s as [|x [|c' r]]; [done..|].
    apply andb_prop in Hs as [Hx _].
    destruct (is_digit_cases x Hx) as (_ & _ & _ & _ & _ & _ & _ & _ & -> & _).
    by rewrite andb_false_r. }
  rewrite Hread. done.
Qed.

(** [ParseFloat(s, 32)] on the decimal of a whole number below [2^24]
    returns that number. *)
Lemma ParseFloat32_decimal (n : Z) :
  0 <= n → Z.log2 n < 24 →
  ∃ e, e <= 0 ∧ strconv.ParseFloat32 (fmt.verb_d n) = (Fin (n * 2 ^ (0 - e)) e, None).
Proof.
  intros Hn Hlog.
  destruct (verb_d_uint n Hn) as (u & Hu & -> & Hval).
  pose proof (all_digits_string_of_uint u) as Hall.
  pose proof (read_digits_uint u 0 false false) as Hread. rewrite Hval in Hread.
  destruct (NilEmpty.string_of_uint u) as [|c s] eqn:Hstr.
  { by destruct u. }
  apply andb_prop in Hall as [Hc Hs].
  assert (match u with Nil => false | _ => true end = true) as Htrue
    by by destruct u.
  rewrite Htrue in Hread.
  unfold strconv.ParseFloat32, strconv.atof32.
  rewrite (special_digit c s Hc), (readFloat_digits c s n Hc Hs Hread).
  change (strconv.number_fraction (strconv.mkNumber false false n 0 0))
    with (n * 1, 1).
  rewrite Z.mul_1_r.
  destruct (Z.eq_dec n 0) as [->|Hne].
  - exists 0. change (nearest binary32 0 1) with (Some (0, 0)).
    cbv beta iota zeta. by rewrite Nat.sub_0_r, Nat.eqb_refl.
  - destruct (nearest_exact binary32 n 1 n 0) as (e & He & ->);
      [lia|lia|simpl; lia|simpl; lia|simpl; lia| |].
    { change (pow2 (- 0)) with 1. change (pow2 0) with 1. lia. }
    exists e. split; [done|].
    cbv beta iota zeta. by rewrite Nat.sub_0_r, Nat.eqb_refl.
Qed.

Lemma of_int_unit_value (c : ascii) (unit : Z) :
  unit_of_letter c = Some unit →
  ∃ eu, of_int unit = Fin (2 ^ 52) eu ∧ -42 <= eu <= -22 ∧ unit = 2 ^ (52 + eu).
Proof.
  unfold unit_of_letter.
  repeat case_match; intros [= <-]; eexists;
    (split; [by vm_compute|split; [lia|by vm_compute]]).
Qed.

Lemma parseFileSize_decimal (n : Z) (c : ascii) (unit : Z) :
  0 <= n < 2 ^ 24 → unit_of_letter c = Some unit →
  parseFileSize (fmt.verb_d n +:+ String c "") = (n * unit, None).
Proof.
  intros [Hn Hlt] Hc.
  assert (Z.log2 n < 24) as Hlog.
  { destruct (Z.eq_dec n 0) as [->|]; [done|]. apply Z.log2_lt_pow2; lia. }
  destruct (ParseFloat32_decimal n Hn Hlog) as (e & He & Hparse).
  destruct (of_int_unit_value c unit Hc) as (eu & Hunit & Heu & Hval).
  rewrite parseFileSize_snoc, Hparse, Hc, Hunit. f_equal.
  destruct (Z.eq_dec n 0) as [->|Hne].
  - rewrite Z.mul_0_l. unfold mul, round_to. rewrite !Z.mul_0_l. done.
  - rewrite mul_unit_exact by (done || lia). by rewrite Hval.
Qed.

Lemma FormatSize_multiple (q : Z) (c : ascii) (unit : Z) :
  unit_of_letter c = Some unit → 1 <= q → q * unit < 2 ^ 53 →
  fmt.verb_2f (div (of_int (q * unit)) (of_int unit)) = fmt.verb_d q +:+ ".00".
Proof.
  intros Hc Hq Hlt.
  destruct (of_int_unit_value c unit Hc) as (eu & Hunit & Heu & Hval).
  rewrite Hunit. rewrite Hval at 1.
  assert (0 < 2 ^ (52 + eu)) by (apply Z.pow_pos_nonneg; lia).
  destruct (div_unit_exact q eu) as (e & He & ->); [lia| |done|].
  { assert (Z.log2 (q * 2 ^ (52 + eu)) < 53) as Hl
      by (apply Z.log2_lt_pow2; [nia|by rewrite <- Hval]).
    rewrite Z.log2_mul_pow2 in Hl by lia. lia. }
  apply verb_2f_whole; lia.
Qed.

Lemma string_append_assoc (s1 s2 s3 : string) :
  (s1 +:+ s2) +:+ s3 = s1 +:+ (s2 +:+ s3).
Proof.
  induction s1 as [|c s1 IH]; [done|].
  change (String c ((s1 +:+ s2) +:+ s3) = String c (s1 +:+ (s2 +:+ s3))).
  by rewrite IH.
Qed.

Lemma FormatSize_unit_multiple (q : Z) (c : ascii) (unit : Z) :
  unit_of_letter c = Some unit →
  1 <= q → q < 1024 ∨ (c = "G"%char ∧ q < 2 ^ 23) →
  tui_utils.FormatSize (q * unit) = fmt.verb_d q +:+ ".00" +:+ String c "B".
Proof.
  intros Hc Hq Hlt. pose proof Hc as Hunit.
  unfold unit_of_letter in Hunit. rewrite <- string_append_assoc.
  assert (KiloByte = 2 ^ 10) as HK by done.
  assert (MegaByte = 2 ^ 20) as HM by done.
  assert (GigaByte = 2 ^ 30) as HG by done.
  destruct (Ascii.eqb_spec c "G") as [->|HnG].
  { injection Hunit as <-.
    rewrite <- (FormatSize_multiple q "G" GigaByte Hc Hq) by lia.
    unfold tui_utils.FormatSize.
    destruct (Z.ltb_spec (q * GigaByte) 0); [lia|].
    by destruct (Z.leb_spec GigaByte (q * GigaByte)); [|lia]. }
  destruct Hlt as [Hlt|[? _]]; [|done].
  destruct (Ascii.eqb_spec c "M") as [->|HnM].
  { injection Hunit as <-.
    rewrite <- (FormatSize_multiple q "M" MegaByte Hc Hq) by lia.
    unfold tui_utils.FormatSize.
    destruct (Z.ltb_spec (q * MegaByte) 0); [lia|].
    destruct (Z.leb_spec GigaByte (q * MegaByte)); [lia|].
    by destruct (Z.leb_spec MegaByte (q * MegaByte)); [|lia]. }
  destruct (Ascii.eqb_spec c "K") as [->|HnK]; [|done].
  injection Hunit as <-.
  rewrite <- (FormatSize_multiple q "K" KiloByte Hc Hq) by lia.
  unfold tui_utils.FormatSize.
  destruct (Z.ltb_spec (q * KiloByte) 0); [lia|].
  destruct (Z.leb_spec GigaByte (q * KiloByte)); [lia|].
  destruct (Z.leb_spec MegaByte (q * KiloByte)); [lia|].
  by destruct (Z.leb_spec KiloByte (q * KiloByte)); [|lia].
Qed.

(** X8.  A whole number of kilobytes, megabytes or gigabytes is parsed
    exactly: for every whole number below [2^24], [parseFileSize] of its
    decimal followed by [K], [M] or [G] returns the number times [1024],
    [1024^2] or [1024^3], with no error. *)
Theorem parseFileSize_whole_number (n : Z) (c : ascii) (unit : Z) :
  0 <= n < 2 ^ 24 → unit_of_letter c = Some unit →
  parseFileSize (fmt.verb_d n +:+ String c "") = (n * unit, None).
Proof. apply parseFileSize_decimal. Qed.

Lemma parseFileSize_whole_number_witness :
  parseFileSize (fmt.verb_d 700 +:+ "M") = (700 * MegaByte, None).
Proof.
  apply (parseFileSize_whole_number 700 "M"%char MegaByte); by vm_compute.
Defined.

(** X9.  A size that is a whole number of units is formatted as that
    number with [.00]: from 1 to 1023 kilobytes or megabytes, and from 1
    gigabyte up to [2^23] gigabytes, [FormatSize] prints the number of units,
    [.00], and [KB], [MB] or [GB]. *)
Theorem FormatSize_whole_units (q : Z) (c : ascii) (unit : Z) :
  unit_of_letter c = Some unit →
  1 <= q → q < 1024 ∨ (c = "G"%char ∧ q < 2 ^ 23) →
  tui_utils.FormatSize (q * unit) = fmt.verb_d q +:+ ".00" +:+ String c "B"
  ∧ tui_model.FormatSize (q * unit) = fmt.verb_d q +:+ ".00" +:+ String c "B".
Proof. intros Hc Hq Hlt. split; by apply FormatSize_unit_multiple. Qed.

Lemma FormatSize_whole_units_witness :
  tui_utils.FormatSize (3 * GigaByte) = fmt.verb_d 3 +:+ ".00" +:+ "GB"
  ∧ tui_model.FormatSize (3 * GigaByte) = fmt.verb_d 3 +:+ ".00" +:+ "GB".
Proof.
  apply (FormatSize_whole_units 3 "G"%char GigaByte);
    [by vm_compute|lia|left; lia].
Defined.

(** X10.  Parsing then formatting gives the size back: for a whole number
    of units in the ranges above, [FormatSize] of what [parseFileSize]
    returns for the number followed by the unit letter is the number,
    [.00], the unit letter and [B]. *)
Theorem FormatSize_parseFileSize (n : Z) (c : ascii) (unit : Z) :
  unit_of_letter c = Some unit →
  1 <= n → n < 1024 ∨ (c = "G"%char ∧ n < 2 ^ 23) →
  tui_utils.FormatSize (fst (parseFileSize (fmt.verb_d n +:+ String c "")))
  = fmt.verb_d n +:+ ".00" +:+ String c "B".
Proof.
  intros Hc Hn Hlt.
  rewrite (parseFileSize_decimal n c unit) by (done || lia).
  by apply FormatSize_unit_multiple.
Qed.

Lemma FormatSize_parseFileSize_witness :
  tui_utils.FormatSize (fst (parseFileSize (fmt.verb_d 700 +:+ "M")))
  = fmt.verb_d 700 +:+ ".00" +:+ "MB".
Proof.
  apply (FormatSize_parseFileSize 700 "M"%char MegaByte);
    [by vm_compute|lia|left; lia].
Defined.

(** ** The sequential aggregator *)

Lemma elems_append_all {A} (s : slice A) (xs : list A) :
  elems (sequential.append_all s xs) = elems s ++ xs.
Proof.
  destruct xs as [|x xs]; simpl; [by rewrite app_nil_r|].
  destruct s as [|l c]; [done|].
  by destruct (_ <=? _)%nat.
Qed.

Lemma append_all_nil_slice {A} (s : slice A) (xs : list A) :
  sequential.append_all s xs = nil_slice ↔ s = nil_slice ∧ xs = [].
Proof.
  destruct xs as [|x xs]; simpl; [tauto|].
  destruct s as [|l c]; [|destruct (_ <=? _)%nat]; split; (done || by intros []).
Qed.

Lemma batches_cons (p : sequential.Provider) (ps : list sequential.Provider)
    (keywords : list string) :
  sequential.batches (sequential.NewProviderAggregator (p :: ps)) keywords =
    match sequential.provider_Search p keywords with
    | (batch, None) => [batch]
    | (_, Some _) => []
    end ++ sequential.batches (sequential.NewProviderAggregator ps) keywords.
Proof.
  unfold sequential.batches. simpl.
  by destruct (sequential.provider_Search p keywords) as [batch [e|]].
Qed.

Lemma sequential_loop (keywords : list string)
    (providers : list sequential.Provider) (results : slice sequential.SearchResult) :
  let out := foldl (sequential.ask keywords) results providers in
  let batches := sequential.batches (sequential.NewProviderAggregator providers) keywords in
  elems out = elems results ++ concat batches
  ∧ (out = nil_slice ↔ results = nil_slice ∧ concat batches = []).
Proof.
  revert results. induction providers as [|p ps IH]; intros results.
  { simpl. rewrite app_nil_r. tauto. }
  destruct (IH (sequential.ask keywords results p)) as [IH1 IH2].
  cbn zeta. rewrite batches_cons. simpl foldl. rewrite IH1, IH2.
  unfold sequential.ask.
  destruct (sequential.provider_Search p keywords) as [batch [e|]]; simpl.
  - done.
  - rewrite elems_append_all, append_all_nil_slice, <- app_assoc.
    split; [done|]. split.
    + by intros [[-> ->] ->].
    + by intros [-> [-> ->]%app_eq_nil].
Qed.

(** X11.  The sequential aggregator returns, with a [nil] error, the
    batches of the providers that did not fail, one after the other in
    the order of registration: nothing is merged, sorted or cut.  The
    slice is [nil] exactly when these batches hold no record. *)
Theorem sequential_Search_result (a : sequential.ProviderAggregator)
    (keywords : list string) :
  let (results, err) := sequential.Search a keywords in
  err = None
  ∧ elems results = concat (sequential.batches a keywords)
  ∧ (results = nil_slice ↔ concat (sequential.batches a keywords) = []).
Proof.
  destruct a as [providers]. unfold sequential.Search. simpl.
  destruct (sequential_loop keywords providers nil_slice) as [H1 H2].
  simpl in *. split; [done|]. split; [done|]. rewrite H2. tauto.
Qed.


(** ** The list of results *)

Section tui_list_facts.
Import tui_list.

Lemma wrap_small (z : Z) : - 2 ^ 63 <= z < 2 ^ 63 → wrap z = z.
Proof.
  intros Hz. unfold wrap. rewrite Z.mod_small; lia.
Qed.

Lemma quot_pageSize (c : Z) :
  0 <= c → (c ÷ pageSize) * pageSize <= c < (c ÷ pageSize + 1) * pageSize.
Proof.
  intros Hc. unfold pageSize. rewrite Z.quot_div_nonneg by lia.
  pose proof (Z.mul_div_le c 20 ltac:(lia)).
  pose proof (Z.mul_succ_div_gt c 20 ltac:(lia)). lia.
Qed.

Lemma len_results_nonneg (m : Model) : 0 <= len_results m.
Proof. unfold len_results. lia. Qed.

Lemma set_cursor_page_ok (m : Model) (c p : Z) :
  list_ok m → 0 <= c → c < len_results m ∨ c = 0 →
  p * pageSize <= c < (p + 1) * pageSize →
  list_ok (set_cursor_page m c p).
Proof.
  intros (Hlen & _ & _ & _ & Hsel) Hc Hrow Hpage.
  unfold list_ok. simpl. tauto.
Qed.

Lemma key_left_ok (m : Model) : list_ok m → list_ok (key_left m).
Proof.
  intros Hm. pose proof Hm as (Hlen & Hc & Hrow & Hpage & Hsel).
  unfold key_left.
  destruct (is_viewSearch (currentView m)); [|done]. simpl.
  destruct (Z.ltb_spec 0 (cursor m)) as [Hpos|]; [|done].
  unfold pageSize in Hlen, Hpage.
  destruct (Z.leb_spec pageSize (cursor m)) as [Hge|Hlt];
    [unfold pageSize in Hge|unfold pageSize in Hlt].
  - change (cursor m - pageSize) with (cursor m - 20).
    rewrite !(wrap_small (cursor m - 20)) by lia.
    apply set_cursor_page_ok; [done|lia|lia|]. apply quot_pageSize. lia.
  - apply set_cursor_page_ok; [done|lia|lia|]. apply quot_pageSize. lia.
Qed.

Lemma key_right_ok (m : Model) : list_ok m → list_ok (key_right m).
Proof.
  intros Hm. pose proof Hm as (Hlen & Hc & Hrow & Hpage & Hsel).
  unfold key_right.
  pose proof (len_results_nonneg m).
  destruct (is_viewSearch (currentView m)); [|done]. simpl.
  unfold pageSize in Hlen, Hpage.
  rewrite !(wrap_small (len_results m - 1)) by lia.
  destruct (Z.ltb_spec (cursor m) (len_results m - 1)); [|done].
  change (cursor m + pageSize) with (cursor m + 20).
  rewrite !(wrap_small (cursor m + 20)) by lia.
  destruct (Z.ltb_spec (cursor m + 20) (len_results m)).
  - apply set_cursor_page_ok; [done|lia|lia|]. apply quot_pageSize. lia.
  - apply set_cursor_page_ok; [done|lia|lia|]. apply quot_pageSize. lia.
Qed.

Lemma key_up_ok (m : Model) : list_ok m → list_ok (key_up m).
Proof.
  intros Hm. pose proof Hm as (Hlen & Hc & Hrow & Hpage & Hsel).
  unfold key_up.
  pose proof (len_results_nonneg m).
  destruct (is_viewSearch (currentView m)); [|done]. simpl.
  destruct (Z.eqb_spec (len_results m) 0); [done|].
  unfold pageSize in *.
  rewrite !(wrap_small (page m * 20)) by lia.
  rewrite !(wrap_small (page m - 1)) by lia.
  rewrite !(wrap_small (cursor m - 1)) by lia.
  destruct (Z.ltb_spec 0 (cursor m));
    match goal with |- context [?a <? ?b] => destruct (Z.ltb_spec a b) end;
    (apply set_cursor_page_ok; [done|unfold pageSize; lia..]).
Qed.

Lemma key_down_ok (m : Model) : list_ok m → list_ok (key_down m).
Proof.
  intros Hm. pose proof Hm as (Hlen & Hc & Hrow & Hpage & Hsel).
  unfold key_down.
  pose proof (len_results_nonneg m).
  destruct (is_viewSearch (currentView m)); [|done]. simpl.
  destruct (Z.eqb_spec (len_results m) 0); [done|].
  unfold pageSize in *.
  rewrite !(wrap_small (len_results m - 1)) by lia.
  rewrite !(wrap_small (cursor m + 1)) by lia.
  rewrite !(wrap_small (page m + 1)) by lia.
  rewrite !(wrap_small ((page m + 1) * 20)) by lia.
  destruct (Z.ltb_spec (cursor m) (len_results m - 1));
    match goal with |- context [?a <=? ?b] => destruct (Z.leb_spec a b) end;
    (apply set_cursor_page_ok; [done|unfold pageSize; lia..]).
Qed.

Lemma set_selected_ok (m : Model) (s : gset Z) :
  list_ok m → (∀ i, i ∈ s → 0 <= i < len_results m) →
  list_ok (set_selected m s).
Proof.
  intros (Hlen & Hc & Hrow & Hpage & _) Hsel.
  unfold list_ok. simpl. tauto.
Qed.

Lemma key_space_ok (m : Model) : list_ok m → list_ok (key_space m).
Proof.
  intros Hm. pose proof Hm as (Hlen & Hc & Hrow & Hpage & Hsel).
  unfold key_space.
  pose proof (len_results_nonneg m).
  destruct (is_viewSearch (currentView m)); [|done]. simpl.
  destruct (Z.eqb_spec (len_results m) 0); [done|].
  destruct (decide (cursor m ∈ selected m));
    (apply set_selected_ok; [done|]); intros i Hi.
  - apply elem_of_difference in Hi as [Hi _]. by apply Hsel.
  - apply elem_of_union in Hi as [->%elem_of_singleton|Hi]; [lia|by apply Hsel].
Qed.

Ltac sample_list_ok :=
  unfold list_ok;
  split; [by vm_compute|]; split; [by vm_compute|];
  split; [left; by vm_compute|]; split; [by vm_compute|];
  intros i [->%elem_of_singleton| ->%elem_of_singleton]%elem_of_union;
  by vm_compute.

(** X12.  The keys of the result list (tab, the arrows, space) keep the
    list in order: the cursor stays on a row and on the page that is
    shown, and only rows are selected. *)
Theorem Update_key_keeps_list_ok (m : Model) (k : nav_key) :
  list_ok m → list_ok (Update_key m k).
Proof.
  intros Hm. unfold Update_key. destruct (busy m); [done|].
  destruct k.
  - done.
  - by apply key_left_ok.
  - by apply key_right_ok.
  - by apply key_up_ok.
  - by apply key_down_ok.
  - by apply key_space_ok.
Qed.

Lemma Update_key_keeps_list_ok_witness :
  list_ok (Update_key sample_list Down).
Proof.
  apply Update_key_keeps_list_ok. sample_list_ok.
Defined.

(** X13.  [View] draws rows that exist, and the row of the cursor is
    among them when there is a result. *)
Theorem View_rows_in_range (m : Model) :
  list_ok m →
  let (start, end_) := visible_rows m in
  0 <= start ∧ end_ <= len_results m
  ∧ (results m ≠ [] → start <= cursor m < end_).
Proof.
  intros (Hlen & Hc & Hrow & Hpage & Hsel). unfold visible_rows.
  pose proof (len_results_nonneg m). unfold pageSize in *.
  rewrite (wrap_small (page m * 20)) by lia.
  rewrite (wrap_small (page m * 20 + 20)) by lia.
  assert (results m ≠ [] → cursor m < len_results m).
  { intros Hne. destruct Hrow as [|Hrow]; [done|].
    unfold len_results. destruct (results m); [done|]. simpl length. lia. }
  destruct (Z.ltb_spec (len_results m) (page m * 20 + 20)); split_and!; try lia.
  all: intros Hne; specialize (H0 Hne); lia.
Qed.

Lemma View_rows_in_range_witness :
  0 <= 20 ∧ 40 <= len_results sample_list
  ∧ (results sample_list ≠ [] → 20 <= cursor sample_list < 40).
Proof.
  apply (View_rows_in_range sample_list). sample_list_ok.
Defined.


Lemma range_selected_Permutation (order : list Z) (s : gset Z) :
  range_selected order s ≡ₚ elements s.
Proof.
  unfold range_selected.
  set (first := filter (λ i, i ∈ s) (remove_dups order)).
  assert (NoDup first) as Hfirst
    by apply NoDup_filter, NoDup_remove_dups.
  apply NoDup_Permutation.
  - apply NoDup_app. split_and!; [done| |].
    + intros k Hk [Hnot _]%list_elem_of_filter. done.
    + apply NoDup_filter, NoDup_elements.
  - apply NoDup_elements.
  - intros k. rewrite elem_of_app, list_elem_of_filter. split.
    + intros [Hk|[_ Hk]]; [|done].
      apply list_elem_of_filter in Hk as [Hk _]. by apply elem_of_elements.
    + intros Hk. destruct (decide (k ∈ first)); [by left|by right].
Qed.

(** X14.  [indicesToDownload] returns [nil] exactly when there is no
    result; otherwise a non-empty list of distinct rows: the row of the
    cursor when nothing is selected, the selected rows (in some order)
    when something is. *)
Theorem indicesToDownload_rows (order : list Z) (m : Model) :
  list_ok m →
  match indicesToDownload order m with
  | None => results m = []
  | Some indices =>
      results m ≠ [] ∧ indices ≠ [] ∧ NoDup indices
      ∧ (∀ i, i ∈ indices → 0 <= i < len_results m)
      ∧ (selected m = ∅ → indices = [cursor m])
      ∧ (selected m ≠ ∅ → indices ≡ₚ elements (selected m))
  end.
Proof.
  intros (Hlen & Hc & Hrow & Hpage & Hsel). unfold indicesToDownload.
  destruct (Z.eqb_spec (len_results m) 0) as [Hnil|Hne].
  { unfold len_results in Hnil. by destruct (results m). }
  assert (results m ≠ []) as Hres.
  { intros Heq. unfold len_results in Hne. by rewrite Heq in Hne. }
  pose proof (len_results_nonneg m).
  destruct (decide (size (selected m) = 0%nat)) as [Hempty|Hsome].
  - apply size_empty_iff in Hempty. apply leibniz_equiv in Hempty.
    split_and!; [done|done|apply NoDup_singleton| |done|done].
    intros i ->%list_elem_of_singleton. lia.
  - pose proof (range_selected_Permutation order (selected m)) as Hperm.
    split_and!; [done| | | | |done].
    + intros Heq. rewrite Heq in Hperm.
      apply Permutation_nil in Hperm. apply elements_empty_iff in Hperm.
      apply Hsome, size_empty_iff. done.
    + rewrite Hperm. apply NoDup_elements.
    + intros i Hi. rewrite Hperm in Hi. apply Hsel. by apply elem_of_elements.
    + intros Heq. rewrite Heq in Hsome. done.
Qed.

Lemma indicesToDownload_rows_witness :
  results sample_list ≠ [] ∧ [41; 3] ≠ [] ∧ NoDup [41; 3]
  ∧ (∀ i, i ∈ [41; 3] → 0 <= i < len_results sample_list)
  ∧ (selected sample_list = ∅ → [41; 3] = [cursor sample_list])
  ∧ (selected sample_list ≠ ∅ → [41; 3] ≡ₚ elements (selected sample_list)).
Proof.
  apply (indicesToDownload_rows [41; 7; 3] sample_list). sample_list_ok.
Defined.

(** X15.  Pressing space twice leaves the model as it was. *)
Theorem key_space_twice (m : Model) :
  Update_key (Update_key m Space) Space = m.
Proof.
  destruct m as [results cursor selected page status busy searchDone currentView].
  unfold Update_key. destruct busy; [done|]. unfold key_space. simpl.
  destruct (is_viewSearch currentView) eqn:Hview; simpl; [|by rewrite Hview].
  unfold len_results. simpl.
  destruct (Z.eqb_spec (Z.of_nat (length results)) 0) as [Hz|Hz]; simpl.
  { rewrite Hview. simpl. by rewrite Hz. }
  destruct (decide (cursor ∈ selected)) as [Hin|Hout]; simpl; rewrite Hview; simpl;
    (destruct (Z.eqb_spec (Z.of_nat (length results)) 0); [done|]).
  - rewrite decide_False
      by (intros [_ Hn]%elem_of_difference; apply Hn; by apply elem_of_singleton).
    unfold set_selected. simpl. f_equal.
    apply leibniz_equiv. intros i.
    rewrite elem_of_union, elem_of_difference, elem_of_singleton.
    destruct (decide (i = cursor)) as [->|]; tauto.
  - rewrite decide_True by (apply elem_of_union; left; by apply elem_of_singleton).
    unfold set_selected. simpl. f_equal.
    apply leibniz_equiv. intros i.
    rewrite elem_of_difference, elem_of_union, elem_of_singleton.
    destruct (decide (i = cursor)) as [->|]; tauto.
Qed.

(** X16.  The message with the results of the first search leaves the
    list in order.  Without an error the results are the received ones
    sorted by descending size, the cursor is on the first row and nothing
    is selected; with an error the list is not touched. *)
Theorem Update_searchResults_first (Error : error_value → string)
    (m : Model) (msg_results : slice XdccFileInfo) (msg_err : error) :
  list_ok m → page m = 0 →
  Z.of_nat (len msg_results) + pageSize < 2 ^ 63 →
  let m' := Update_searchResults Error m msg_results msg_err in
  list_ok m' ∧ busy m' = false ∧ searchDone m' = true
  ∧ match msg_err with
    | Some _ =>
        results m' = results m ∧ cursor m' = cursor m
        ∧ selected m' = selected m
    | None =>
        results m' ≡ₚ elems msg_results
        ∧ StronglySorted descending_Size (results m')
        ∧ cursor m' = 0 ∧ selected m' = ∅
    end.
Proof.
  intros Hm Hpage Hfit. destruct msg_err as [e|]; simpl.
  { split; [|done]. exact Hm. }
  assert (elems (sort_Slice less_by_Size msg_results) =
          insertionSort less_by_Size (elems msg_results)) as Helems
    by by destruct msg_results.
  rewrite Helems. split; [|split_and!; try done].
  - unfold list_ok, len_results. simpl. rewrite Hpage.
    rewrite insertionSort_Permutation. unfold len in Hfit.
    split; [done|]. split; [done|]. split; [by right|]. split; [by vm_compute|].
    intros i Hi. by apply elem_of_empty in Hi.
  - apply insertionSort_Permutation.
  - apply insertionSort_descending.
Qed.

Lemma Update_searchResults_first_witness :
  let m' :=
    Update_searchResults (λ _, "error") NewModel
      (Slice [sample_record 1 "a" 10; sample_record 2 "b" 30] 1024) None in
  list_ok m' ∧ busy m' = false ∧ searchDone m' = true
  ∧ results m' ≡ₚ [sample_record 1 "a" 10; sample_record 2 "b" 30]
  ∧ StronglySorted descending_Size (results m')
  ∧ cursor m' = 0 ∧ selected m' = ∅.
Proof.
  apply (Update_searchResults_first (λ _, "error") NewModel
           (Slice [sample_record 1 "a" 10; sample_record 2 "b" 30] 1024) None).
  - unfold list_ok. split; [by vm_compute|]. split; [by vm_compute|].
    split; [by right|]. split; [by vm_compute|].
    intros i Hi. by apply elem_of_empty in Hi.
  - reflexivity.
  - by vm_compute.
Defined.

End tui_list_facts.

(** ** The filter of the result list *)

Section tui_filter_facts.
Import tui_filter.
Variables (TrimSpace ToLower : string → string) (Error : error_value → string).

Lemma List_filter_sublist {A} (f : A → bool) (l : list A) :
  sublist (List.filter f l) l.
Proof.
  induction l as [|x l IH]; simpl; [constructor|].
  destruct (f x); by constructor.
Qed.

Lemma filtered_by_sublist (filter : string) (results : list XdccFileInfo) :
  sublist (filtered_by TrimSpace ToLower Error filter results) results.
Proof.
  unfold filtered_by. destruct filter as [|c rest]; [apply sublist_nil_l|].
  destruct (Ascii.eqb c ">" || Ascii.eqb c "<").
  - destruct (parseSizeFilter _ _ _ _) as [size [err|]];
      [apply sublist_nil_l|apply List_filter_sublist].
  - destruct (strings.HasPrefix _ _); apply List_filter_sublist.
Qed.

Lemma applyFilter_fields (m : Model) :
  let m' := applyFilter TrimSpace ToLower Error m in
  sublist (filteredResults m') (results m)
  ∧ results m' = results m ∧ selected m' = selected m
  ∧ cursor m' = 0 ∧ page m' = 0.
Proof.
  unfold applyFilter. destruct (String.eqb _ ""); simpl.
  - split; [apply sublist_nil_l|done].
  - split; [apply filtered_by_sublist|done].
Qed.

(** X17.  Whatever is typed into the filter, the filtered results are
    results, in their order; the results and the selection are kept and
    the cursor goes back to the first row of the first page. *)
Theorem applyFilter_sublist (m : Model) :
  let m' := applyFilter TrimSpace ToLower Error m in
  sublist (filteredResults m') (results m)
  ∧ filteredResults m' ⊆ results m
  ∧ results m' = results m ∧ selected m' = selected m
  ∧ cursor m' = 0 ∧ page m' = 0.
Proof.
  destruct (applyFilter_fields m) as (Hsub & Hrest). simpl.
  split; [done|]. split; [|done].
  intros r Hr. by eapply elem_of_sublist.
Qed.

(** X18.  A filter never empties the list: after [applyFilter] the
    current results are a part of the results, and there is none only
    when there is no result at all.  A filter that matches nothing shows
    every result. *)
Theorem applyFilter_never_hides_everything (m : Model) :
  let shown := getCurrentResults (Some (applyFilter TrimSpace ToLower Error m)) in
  sublist shown (results m) ∧ (shown = [] ↔ results m = []).
Proof.
  destruct (applyFilter_fields m) as (Hsub & Hres & _).
  simpl. unfold len_of. rewrite Hres.
  destruct (filteredResults (applyFilter TrimSpace ToLower Error m)) as [|r l] eqn:Hf.
  - simpl. done.
  - change (0 <? Z.of_nat (length (r :: l))) with true. cbv iota.
    split; [done|]. split; [done|].
    intros Hnil. rewrite Hnil in Hsub. by apply sublist_nil_r in Hsub.
Qed.

End tui_filter_facts.

(** ** Sizes typed into the filter *)

Lemma to_int64_nonneg (x : float64) :
  nonneg_float x → 0 <= to_int64 x ∨ to_int64 x = int64_min.
Proof.
  destruct x as [|negative|m e]; simpl; [by right..|]. intros Hm.
  destruct (_ && _); [|by right]. left.
  unfold truncate. destruct (Z.leb_spec 0 e).
  - apply Z.mul_nonneg_nonneg; [done|]. apply Z.pow_nonneg. lia.
  - apply Z.quot_pos; [done|]. apply Z.pow_pos_nonneg; lia.
Qed.

Lemma of_int_1024 : of_int 1024 = Fin (2 ^ 52) (-42).
Proof. by vm_compute. Qed.

Lemma mul_1024_nonneg (x : float64) :
  nonneg_float x → nonneg_float (mul x (of_int 1024)).
Proof.
  rewrite of_int_1024. destruct x as [|negative|m e]; simpl; [done| |].
  - intros ->. done.
  - intros Hm. unfold round_to.
    destruct (nearest binary64 _ _) as [[m' e']|] eqn:Hnear.
    + apply nearest_nonneg in Hnear; [|by apply Z.mul_nonneg_nonneg;
        [apply Z.abs_nonneg|pose proof (pow2_pos (e + -42)); lia]|apply pow2_pos].
      simpl. by destruct (Z.ltb_spec m 0); [lia|].
    + simpl. by destruct (Z.ltb_spec m 0); [lia|].
Qed.

Lemma special_number_byte (c : ascii) (s : string) :
  tui_filter.is_number_byte c = true → strconv.special (String c s) = None.
Proof.
  unfold tui_filter.is_number_byte. intros [Hc|Hc]%orb_prop.
  - apply Ascii.eqb_eq in Hc as ->. done.
  - by apply special_digit.
Qed.

Lemma readFloat_unsigned (c : ascii) (s rest : string) (num : strconv.number) :
  tui_filter.is_number_byte c = true →
  strconv.readFloat (String c s) = Some (num, rest) →
  strconv.negative num = false.
Proof.
  intros Hc. unfold strconv.readFloat.
  assert (Ascii.eqb c "+" = false ∧ Ascii.eqb c "-" = false) as [-> ->].
  { unfold tui_filter.is_number_byte in Hc. apply orb_prop in Hc as [Hc|Hc].
    - apply Ascii.eqb_eq in Hc as ->. done.
    - destruct (is_digit_cases c Hc) as (H1 & H2 & _). done. }
  destruct (match String c s with
            | String z (String x (String c' r)) =>
                if Ascii.eqb z "0" && Ascii.eqb (strconv.lower x) "x"
                then (true, String c' r) else (false, String c s)
            | _ => (false, String c s)
            end) as [hex s2].
  destruct (strconv.read_digits hex _ s2) as [d s3].
  destruct (negb (strconv.sawdigits d)); [done|].
  assert (∀ exp us rest',
    (if us && negb (strconv.underscoreOK
                      (substring 0 (String.length (String c s) - String.length rest')
                         (String c s)))
     then None
     else Some (strconv.mkNumber false hex (strconv.mantissa d)
                  (strconv.fraction_digits d) exp, rest')) = Some (num, rest) →
    strconv.negative num = false) as Hfinish.
  { intros exp us rest'. destruct (_ && _); [done|]. by intros [= <- _]. }
  destruct s3 as [|c3 s4].
  { destruct hex; [done|]. apply Hfinish. }
  destruct (Ascii.eqb (strconv.lower c3) _).
  - destruct s4 as [|c' s5]; [done|].
    destruct (if Ascii.eqb c' "+" then (1, s5)
              else if Ascii.eqb c' "-" then (-1, s5) else (1, String c' s5))
      as [esign s6].
    destruct s6 as [|c'' s7]; [done|].
    destruct (strconv.is_digit c''); [|done].
    destruct (strconv.read_exponent 0 _ _) as [[e us] rest']. apply Hfinish.
  - destruct hex; [done|]. apply Hfinish.
Qed.

Lemma ParseFloat64_unsigned (c : ascii) (s : string) (x : float64) :
  tui_filter.is_number_byte c = true →
  strconv64.ParseFloat64 (String c s) = (x, None) →
  nonneg_float x.
Proof.
  intros Hc. unfold strconv64.ParseFloat64, strconv64.atof64.
  rewrite (special_number_byte c s Hc).
  destruct (strconv.readFloat (String c s)) as [[num rest]|] eqn:Hread.
  2:{ unfold strconv.syntaxError. cbv beta iota zeta.
      by rewrite andb_false_r. }
  pose proof (readFloat_unsigned c s rest num Hc Hread) as Hneg.
  pose proof (readFloat_fraction _ _ _ Hread) as [Ha Hb].
  destruct (strconv.number_fraction num) as [a b]. simpl in Ha, Hb.
  destruct (nearest binary64 a b) as [[m e]|] eqn:Hnear.
  - apply (nearest_nonneg _ _ _ _ _ Ha Hb) in Hnear. rewrite Hneg.
    destruct (_ && _); [done|]. intros [= <-]. done.
  - unfold strconv.rangeError. simpl. by destruct (negb _).
Qed.

Lemma number_length_first (s : string) :
  tui_filter.number_length s ≠ 0%nat →
  ∃ c s', substring 0 (tui_filter.number_length s) s = String c s'
          ∧ tui_filter.is_number_byte c = true.
Proof.
  destruct s as [|c s]; simpl; [done|].
  destruct (tui_filter.is_number_byte c) eqn:Hc; [|done].
  intros _. by eexists _, _.
Qed.

Lemma ParseFloat64_decimal (n : Z) :
  0 <= n → Z.log2 n < 53 →
  ∃ e, e <= 0 ∧ strconv64.ParseFloat64 (fmt.verb_d n) = (Fin (n * 2 ^ (0 - e)) e, None).
Proof.
  intros Hn Hlog.
  destruct (verb_d_uint n Hn) as (u & Hu & -> & Hval).
  pose proof (all_digits_string_of_uint u) as Hall.
  pose proof (read_digits_uint u 0 false false) as Hread. rewrite Hval in Hread.
  destruct (NilEmpty.string_of_uint u) as [|c s] eqn:Hstr.
  { by destruct u. }
  apply andb_prop in Hall as [Hc Hs].
  assert (match u with Nil => false | _ => true end = true) as Htrue
    by by destruct u.
  rewrite Htrue in Hread.
  unfold strconv64.ParseFloat64, strconv64.atof64.
  rewrite (special_digit c s Hc), (readFloat_digits c s n Hc Hs Hread).
  change (strconv.number_fraction (strconv.mkNumber false false n 0 0))
    with (n * 1, 1).
  rewrite Z.mul_1_r.
  destruct (Z.eq_dec n 0) as [->|Hne].
  - exists 0. change (nearest binary64 0 1) with (Some (0, 0)).
    cbv beta iota zeta. by rewrite Nat.sub_0_r, Nat.eqb_refl.
  - destruct (nearest_exact binary64 n 1 n 0) as (e & He & ->);
      [lia|lia|simpl; lia|simpl; lia|simpl; lia| |].
    { change (pow2 (- 0)) with 1. change (pow2 0) with 1. lia. }
    exists e. split; [done|].
    cbv beta iota zeta. by rewrite Nat.sub_0_r, Nat.eqb_refl.
Qed.

(** A whole number [n * 2^E] is multiplied by 1024 without rounding. *)
Lemma mul_1024_exact (n E e : Z) :
  0 <= n → Z.log2 n < 53 → 0 <= E <= 30 → e <= E →
  ∃ e', e' <= E + 10
        ∧ mul (Fin (n * 2 ^ (E - e)) e) (of_int 1024)
          = Fin (n * 2 ^ (E + 10 - e')) e'.
Proof.
  intros Hn Hlog HE He. rewrite of_int_1024. unfold mul, round_to.
  destruct (Z.eq_dec n 0) as [->|Hne].
  { exists 0. split; [lia|]. by rewrite !Z.mul_0_l. }
  assert (0 < 2 ^ (E - e)) by (apply Z.pow_pos_nonneg; lia).
  assert (0 < n * 2 ^ (E - e)) by nia.
  destruct (nearest_exact binary64
              (Z.abs (n * 2 ^ (E - e) * 2 ^ 52) * pow2 (e + -42))
              (pow2 (- (e + -42))) n (E + 10)) as (e' & He' & ->);
    [apply pow2_pos|lia|simpl; lia|simpl; lia|simpl; lia| |].
  { rewrite Z.abs_eq by lia.
    destruct (pow2_nonneg_exp (E + 10) ltac:(lia)) as [-> ->].
    destruct (pow2_neg_exp (e + -42) ltac:(lia)) as [-> ->].
    rewrite !Z.mul_1_r, <- !Z.mul_assoc. f_equal.
    rewrite <- !Z.pow_add_r by lia. f_equal. lia. }
  exists e'. split; [done|].
  by replace (xorb (n * 2 ^ (E - e) <? 0) (2 ^ 52 <? 0)) with false
    by (by destruct (Z.ltb_spec (n * 2 ^ (E - e)) 0); [lia|]).
Qed.

Lemma to_int64_whole (n E e : Z) :
  0 <= n → 0 <= E → e <= E → n * 2 ^ E < 2 ^ 63 →
  to_int64 (Fin (n * 2 ^ (E - e)) e) = n * 2 ^ E.
Proof.
  intros Hn HE He Hfit. unfold to_int64. rewrite truncate_exact by lia.
  assert (0 <= n * 2 ^ E) by (apply Z.mul_nonneg_nonneg; [done|apply Z.pow_nonneg; lia]).
  unfold int64_min, int64_max.
  destruct (Z.leb_spec (- 2 ^ 63) (n * 2 ^ E)); [|lia].
  by destruct (Z.leb_spec (n * 2 ^ E) (2 ^ 63 - 1)); [|lia].
Qed.

Lemma number_length_digits (d rest : string) :
  all_digits d = true → tui_filter.number_length rest = 0%nat →
  tui_filter.number_length (d +:+ rest) = String.length d.
Proof.
  intros Hd Hrest. induction d as [|c d IH]; simpl; [done|].
  apply andb_prop in Hd as [Hc Hd]. unfold tui_filter.is_number_byte.
  unfold strconv.is_digit in Hc. rewrite Hc, orb_true_r. by rewrite IH.
Qed.

Lemma substring_append_l (d rest : string) :
  substring 0 (String.length d) (d +:+ rest) = d.
Proof.
  induction d as [|c d IH]; simpl; [by destruct rest|]. by rewrite IH.
Qed.

Lemma substring_all (s : string) : substring 0 (String.length s) s = s.
Proof. induction s as [|c s IH]; simpl; [done|]. by rewrite IH. Qed.

Lemma substring_append_r (d rest : string) :
  substring (String.length d) (String.length (d +:+ rest) - String.length d)
    (d +:+ rest) = rest.
Proof.
  induction d as [|c d IH]; simpl; [|done].
  rewrite Nat.sub_0_r. apply substring_all.
Qed.

Lemma length_append (d rest : string) :
  String.length (d +:+ rest) = (String.length d + String.length rest)%nat.
Proof. induction d as [|c d IH]; simpl; [done|]. by rewrite IH. Qed.

Section parseSizeFilter_facts.
Import tui_filter.
Variables (TrimSpace ToLower : string → string) (Error : error_value → string).

(** X20.  A size typed into the filter is never read as a negative
    number: whatever [parseSizeFilter] returns is zero or more, unless
    the number is too large for [int64]; and beside an error it
    returns zero. *)
Theorem parseSizeFilter_never_negative (s : string) (n : Z) (err : error) :
  parseSizeFilter TrimSpace ToLower Error s = (n, err) →
  (err ≠ None → n = 0) ∧ (0 <= n ∨ n = int64_min).
Proof.
  unfold parseSizeFilter.
  set (t := TrimSpace (ToLower s)).
  destruct (String.eqb t ""); [intros [= <- <-]; split; [done|by left]|].
  destruct (Nat.eqb_spec (number_length t) 0) as [|Hi];
    [intros [= <- <-]; split; [done|by left]|].
  destruct (number_length_first t Hi) as (c & s' & -> & Hc).
  destruct (strconv64.ParseFloat64 (String c s')) as [size [e|]] eqn:Hparse;
    [intros [= <- <-]; split; [done|by left]|].
  apply (ParseFloat64_unsigned c s' size Hc) in Hparse.
  pose proof (mul_1024_nonneg _ Hparse) as Hk.
  pose proof (mul_1024_nonneg _ Hk) as Hm.
  pose proof (mul_1024_nonneg _ Hm) as Hg.
  destruct (_ <=? _)%nat;
    [intros [= <- <-]; split; [done|by apply to_int64_nonneg]|].
  repeat (destruct (strings.HasPrefix _ _);
    [intros [= <- <-]; split; [done|by apply to_int64_nonneg]|]).
  intros [= <- <-]. split; [done|by left].
Qed.

(** X21.  Whole numbers are read exactly.  When the text, in lower case
    and trimmed, is the decimal of a whole number below [2^33] followed by
    something that does not begin with a digit or a point,
    [parseSizeFilter] returns the number itself if nothing follows, the
    number times [1024], [1024^2] or [1024^3] if what follows begins,
    once trimmed, with [k], [m] or [g], and an error otherwise. *)
Theorem parseSizeFilter_whole_number (s rest : string) (n : Z) :
  TrimSpace (ToLower s) = fmt.verb_d n +:+ rest →
  0 <= n < 2 ^ 33 →
  number_length rest = 0%nat →
  parseSizeFilter TrimSpace ToLower Error s =
    if String.eqb rest "" then (n, None)
    else
      match unit_of_prefix (TrimSpace rest) with
      | Some unit => (n * unit, None)
      | None => (0, Some (errors_New ("unknown unit: " +:+ TrimSpace rest)))
      end.
Proof.
  intros Hs [Hn Hlt] Hrest. unfold parseSizeFilter. rewrite Hs.
  destruct (verb_d_digits n Hn) as [Hdigits Hne].
  assert (Z.log2 n < 53) as Hlog.
  { destruct (Z.eq_dec n 0) as [->|]; [done|].
    apply Z.log2_lt_pow2; [lia|]. eapply Z.lt_trans; [done|by vm_compute]. }
  rewrite (number_length_digits _ _ Hdigits Hrest).
  rewrite substring_append_l, substring_append_r, length_append.
  destruct (String.eqb_spec (fmt.verb_d n +:+ rest) "") as [Hnil|_].
  { destruct (fmt.verb_d n); [done|]. done. }
  destruct (Nat.eqb_spec (String.length (fmt.verb_d n)) 0) as [Hz|_].
  { destruct (fmt.verb_d n); [done|]. done. }
  destruct (ParseFloat64_decimal n Hn Hlog) as (e & He & ->).
  destruct (String.eqb_spec rest "") as [->|Hr].
  { simpl String.length. rewrite Nat.add_0_r, Nat.leb_refl. f_equal.
    rewrite to_int64_whole; lia. }
  destruct (Nat.leb_spec (String.length (fmt.verb_d n) + String.length rest)
              (String.length (fmt.verb_d n))) as [Hle|_].
  { destruct rest; [done|]. simpl in Hle. lia. }
  destruct (mul_1024_exact n 0 e Hn Hlog ltac:(lia) He) as (e1 & He1 & H1).
  destruct (mul_1024_exact n 10 e1 Hn Hlog ltac:(lia) He1) as (e2 & He2 & H2).
  destruct (mul_1024_exact n 20 e2 Hn Hlog ltac:(lia) He2) as (e3 & He3 & H3).
  change (0 + 10) with 10 in H1. change (10 + 10) with 20 in H2.
  change (20 + 10) with 30 in H3.
  unfold unit_of_prefix.
  destruct (strings.HasPrefix (TrimSpace rest) "k").
  { rewrite H1. f_equal. rewrite (to_int64_whole n 10); [done|lia..]. }
  destruct (strings.HasPrefix (TrimSpace rest) "m").
  { rewrite H1, H2. f_equal. rewrite (to_int64_whole n 20); [done|lia..]. }
  destruct (strings.HasPrefix (TrimSpace rest) "g").
  { rewrite H1, H2, H3. f_equal. rewrite (to_int64_whole n 30); [done|lia..]. }
  done.
Qed.

End parseSizeFilter_facts.

Lemma parseSizeFilter_never_negative_witness :
  ((None : error) ≠ None → 1610612736 = 0)
  ∧ (0 <= 1610612736 ∨ 1610612736 = int64_min).
Proof.
  apply (parseSizeFilter_never_negative strings.ascii_TrimSpace
           strings.ascii_ToLower (λ _, "") "1.5 GB" 1610612736 None).
  by vm_compute.
Defined.

Lemma parseSizeFilter_whole_number_witness :
  tui_filter.parseSizeFilter strings.ascii_TrimSpace strings.ascii_ToLower
    (λ _, "") " 500 MB " = (500 * MegaByte, None).
Proof.
  apply (parseSizeFilter_whole_number strings.ascii_TrimSpace
           strings.ascii_ToLower (λ _, "") " 500 MB " " mb" 500).
  - by vm_compute.
  - lia.
  - reflexivity.
Defined.

(** ** The list of items *)

Section tui_items_facts.
Import tui_items.

Lemma selectedCount_loop (items : list FileItem) (count : Z) :
  0 <= count → count + Z.of_nat (length items) < 2 ^ 63 →
  let count' :=
    foldl (λ count item, if selected item then tui_list.wrap (count + 1) else count)
      count items in
  count <= count' <= count + Z.of_nat (length items)
  ∧ (count' = count ↔ Forall (λ item, selected item = false) items).
Proof.
  revert count. induction items as [|item items IH]; intros count Hc Hlen; simpl.
  { split; [lia|]. split; [by constructor|done]. }
  simpl in Hlen.
  destruct (selected item) eqn:Hsel.
  - rewrite wrap_small by lia.
    destruct (IH (count + 1) ltac:(lia) ltac:(lia)) as [Hb _].
    simpl in Hb. split; [lia|]. split; [lia|].
    intros Hall. apply Forall_cons in Hall as [Hitem _]. congruence.
  - destruct (IH count Hc ltac:(lia)) as [Hb Hiff]. simpl in Hb, Hiff.
    split; [lia|]. rewrite Hiff. split.
    + intros Hall. by constructor.
    + by intros [_ Hall]%Forall_cons.
Qed.

Lemma selectedCount_pos (items : list FileItem) :
  Z.of_nat (length items) < 2 ^ 63 →
  (0 <? selectedCount items) = false
  ↔ Forall (λ item, selected item = false) items.
Proof.
  intros Hlen. destruct (selectedCount_loop items 0 ltac:(lia) ltac:(lia)) as [Hb Hiff].
  simpl in Hb, Hiff. fold (selectedCount items) in Hb, Hiff.
  rewrite <- Hiff. destruct (Z.ltb_spec 0 (selectedCount items)); split; (done || lia).
Qed.

Lemma add_selected_loop (items : list FileItem)
    (acc : list (option xdcc.IRCFile) * list string) :
  (foldl add_selected acc items).1 = acc.1 ++ (url <$> filter queued items).
Proof.
  revert acc. induction items as [|item items IH]; intros acc; simpl.
  { by rewrite app_nil_r. }
  rewrite IH, filter_cons. unfold add_selected.
  destruct (decide (queued item)) as [[Hsel Hurl]|Hnot].
  - destruct (url item) as [u|] eqn:Hu; [|done]. rewrite Hsel. simpl.
    by rewrite Hu, <- app_assoc.
  - destruct (url item) as [u|] eqn:Hu; [|done].
    destruct (selected item) eqn:Hsel; [|done].
    exfalso. apply Hnot. split; [done|]. by rewrite Hu.
Qed.

(** X22.  [AddSelectedFilesToQueue] panics exactly when no item is
    selected and the index under the cursor is negative.  Otherwise the
    queue it leaves is made anew: the locators of the selected items
    that have one, in the order of the list, when an item is selected;
    and when none is, the locator of the item under the cursor if there
    is such an item and it has one, and nothing otherwise. *)
Theorem AddSelectedFilesToQueue_queue (m : Model) :
  Z.of_nat (length (filteredResults m)) < 2 ^ 63 →
  let items := filteredResults m in
  let none_selected := Forall (λ item, selected item = false) items in
  let cursorIdx :=
    tui_list.wrap (tui_list.wrap (page m * itemsPerPage m) + cursor m) in
  (AddSelectedFilesToQueue m = tui_filter.panic ↔ none_selected ∧ cursorIdx < 0)
  ∧ ∀ m' lines,
      AddSelectedFilesToQueue m = tui_filter.ret (m', lines) →
      filteredResults m' = items
      ∧ (¬ none_selected → downloadQueue m' = url <$> filter queued items)
      ∧ (none_selected →
           downloadQueue m' =
             match items !! Z.to_nat cursorIdx with
             | Some item => if url item is Some u then [Some u] else []
             | None => []
             end).
Proof.
  intros Hlen items none_selected cursorIdx.
  pose proof (selectedCount_pos items Hlen) as Hcount.
  unfold AddSelectedFilesToQueue. fold items. fold cursorIdx.
  destruct (0 <? selectedCount items) eqn:Hpos.
  - assert (¬ none_selected) as Hsome.
    { intros Hnone. apply Hcount in Hnone. congruence. }
    pose proof (add_selected_loop items
      ([], ["Selection check: found " +:+ fmt.verb_d (selectedCount items)
              +:+ " explicitly selected files"])) as Hloop.
    destruct (foldl add_selected _ items) as [queue lines'].
    simpl in Hloop. split; [split; [done|tauto]|].
    intros m' lines [= <- <-]. simpl. split; [done|]. split; [done|tauto].
  - assert (none_selected) as Hnone by by apply Hcount.
    destruct (Z.ltb_spec cursorIdx (Z.of_nat (length items))) as [Hlt|Hge].
    + destruct (Z.ltb_spec cursorIdx 0) as [Hneg|Hnonneg].
      { split; [done|]. intros m' lines [=]. }
      destruct (lookup_lt_is_Some_2 items (Z.to_nat cursorIdx)) as [item Hitem];
        [lia|].
      rewrite Hitem. destruct (url item) as [u|]; (split; [split; [done|lia]|]);
        intros m' lines [= <- <-]; simpl; (split; [done|]); (split; [done|]);
        intros _; done.
    + split; [split; [done|lia]|].
      intros m' lines [= <- <-]. simpl. split; [done|]. split; [done|].
      intros _. rewrite (proj2 (lookup_ge_None items (Z.to_nat cursorIdx))); [done|].
      lia.
Qed.

(** X23.  [applyFilter] of [tui/filter.go] keeps the items whose name in
    lower case contains the filter text, in their order, and all of them
    when the text is empty; it goes back to the first page and leaves
    the cursor where it is. *)
Theorem applyFilter_items (ToLower : string → string) (m : Model) :
  let m' := applyFilter ToLower m in
  let filterText := ToLower (filterInput m) in
  sublist (filteredResults m') (searchResults m)
  ∧ (∀ item, item ∈ filteredResults m' ↔
       item ∈ searchResults m
       ∧ (filterText = ""
          ∨ strings.Contains (ToLower (name item)) filterText = true))
  ∧ searchResults m' = searchResults m
  ∧ page m' = 0 ∧ cursor m' = cursor m.
Proof.
  unfold applyFilter. destruct (String.eqb_spec (ToLower (filterInput m)) "") as [Heq|Hne]; simpl.
  - split; [done|]. split; [|done]. intros item. rewrite Heq. tauto.
  - split; [apply List_filter_sublist|]. split; [|done].
    intros item. rewrite !list_elem_of_In, filter_In. tauto.
Qed.

End tui_items_facts.

Lemma AddSelectedFilesToQueue_queue_witness :
  let items := tui_items.filteredResults sample_items in
  let none_selected := Forall (λ item, tui_items.selected item = false) items in
  let cursorIdx := 0 in
  (tui_items.AddSelectedFilesToQueue sample_items = tui_filter.panic
   ↔ none_selected ∧ cursorIdx < 0)
  ∧ ∀ m' lines,
      tui_items.AddSelectedFilesToQueue sample_items = tui_filter.ret (m', lines) →
      tui_items.filteredResults m' = items
      ∧ (¬ none_selected →
           tui_items.downloadQueue m' = [Some (sample_locator 1)])
      ∧ (none_selected →
           tui_items.downloadQueue m' = [Some (sample_locator 1)]).
Proof.
  apply (AddSelectedFilesToQueue_queue sample_items). by vm_compute.
Defined.

(** ** The keys of the filtered list *)

Section tui_filter_keys.
Import tui_filter.
Variables (TrimSpace ToLower : string → string) (Error : error_value → string).
Variable filterInput_Update : string → string → string.

Lemma len_of_nonneg {A} (l : list A) : 0 <= len_of l.
Proof. unfold len_of. lia. Qed.

Lemma len_of_sublist {A} (l k : list A) : sublist l k → len_of l <= len_of k.
Proof. intros H%sublist_length. unfold len_of. lia. Qed.

Lemma filter_set_cursor_page_ok (m : Model) (c p : Z) :
  list_ok m → 0 <= c → c < len_of (results m) ∨ c = 0 →
  p * pageSize <= c < (p + 1) * pageSize →
  list_ok (set_cursor_page m c p).
Proof.
  intros (Hlen & _ & _ & _ & Hsub & Hsel) Hc Hrow Hpage.
  unfold list_ok. simpl. tauto.
Qed.

Lemma filter_set_selected_ok (m : Model) (s : gset Z) :
  list_ok m → (∀ i, i ∈ s → 0 <= i < len_of (results m)) →
  list_ok (set_selected m s).
Proof.
  intros (Hlen & Hc & Hrow & Hpage & Hsub & _) Hsel.
  unfold list_ok. simpl. tauto.
Qed.

Lemma set_filter_ok (m : Model) (input status : string)
    (filtered : list XdccFileInfo) (c p : Z) (mode : bool) :
  list_ok m → sublist filtered (results m) →
  0 <= c → c < len_of (results m) ∨ c = 0 →
  p * pageSize <= c < (p + 1) * pageSize →
  list_ok (set_filter m input filtered c p status mode).
Proof.
  intros (Hlen & _ & _ & _ & _ & Hsel) Hsub Hc Hrow Hpage.
  unfold list_ok. simpl. tauto.
Qed.

Lemma applyFilter_ok (m : Model) :
  list_ok m → list_ok (applyFilter TrimSpace ToLower Error m).
Proof.
  intros (Hlen & _ & _ & _ & _ & Hsel).
  destruct (applyFilter_fields TrimSpace ToLower Error m)
    as (Hsub & Hres & Hs & Hc & Hp). simpl in *.
  unfold list_ok. rewrite Hres, Hs, Hc, Hp.
  split; [done|]. split; [done|]. split; [by right|]. split; [by vm_compute|].
  split; done.
Qed.

Lemma Update_filter_key_ok (m : Model) (key : string) :
  list_ok m → list_ok (Update_filter_key TrimSpace ToLower Error filterInput_Update m key).
Proof.
  intros Hm. pose proof Hm as (Hlen & Hc & Hrow & Hpage & Hsub & Hsel).
  unfold Update_filter_key.
  destruct (String.eqb key "enter").
  { apply applyFilter_ok. by apply set_filter_ok. }
  destruct (String.eqb key "esc").
  { apply set_filter_ok; [done|apply sublist_nil_l|done|by right|by vm_compute]. }
  destruct (String.eqb key "backspace" && String.eqb (filterInput m) "").
  { apply set_filter_ok; [done|apply sublist_nil_l|done..]. }
  destruct (String.eqb key "/"); [done|].
  apply applyFilter_ok. by apply set_filter_ok.
Qed.

Lemma current_le_results (m : Model) :
  list_ok m → len_of (getCurrentResults (Some m)) <= len_of (results m).
Proof.
  intros (_ & _ & _ & _ & Hsub & _). simpl.
  destruct (0 <? len_of (filteredResults m)); [by apply len_of_sublist|done].
Qed.

Lemma Update_list_key_ok (m m' : Model) (key : string) :
  list_ok m →
  Update_list_key TrimSpace ToLower Error m key = Some m' → list_ok m'.
Proof.
  intros Hm. pose proof Hm as (Hlen & Hc & Hrow & Hpage & Hsub & Hsel).
  pose proof (len_of_nonneg (results m)) as Hnn.
  pose proof (current_le_results m Hm) as Hcur.
  pose proof (len_of_nonneg (getCurrentResults (Some m))) as Hcurnn.
  unfold Update_list_key. unfold pageSize in Hlen, Hpage.
  remember (getCurrentResults (Some m)) as cur eqn:Hcureq.
  destruct (String.eqb key "tab"); [by intros [= <-]|].
  destruct (is_key key "ctrl+c" "q"); [by intros [= <-]|].
  destruct (String.eqb key "enter"); [done|].
  destruct (is_key key "left" "h").
  { destruct (tui_list.is_viewSearch (currentView m)); [|by intros [= <-]]. simpl.
    destruct (Z.ltb_spec 0 (cursor m)); [|by intros [= <-]].
    intros [= <-].
    destruct (Z.leb_spec pageSize (cursor m)) as [Hge|Hlt];
      [unfold pageSize in Hge|unfold pageSize in Hlt].
    - change (cursor m - pageSize) with (cursor m - 20).
      rewrite !(wrap_small (cursor m - 20)) by lia.
      apply filter_set_cursor_page_ok; [done|lia|lia|]. apply quot_pageSize. lia.
    - apply filter_set_cursor_page_ok; [done|lia|lia|]. apply quot_pageSize. lia. }
  destruct (is_key key "right" "l").
  { destruct (tui_list.is_viewSearch (currentView m)); [|by intros [= <-]]. simpl.
    rewrite !(wrap_small (len_of (results m) - 1)) by lia.
    destruct (Z.ltb_spec (cursor m) (len_of (results m) - 1)); [|by intros [= <-]].
    intros [= <-].
    change (cursor m + pageSize) with (cursor m + 20).
    rewrite !(wrap_small (cursor m + 20)) by lia.
    destruct (Z.ltb_spec (cursor m + 20) (len_of (results m))).
    - apply filter_set_cursor_page_ok; [done|lia|lia|]. apply quot_pageSize. lia.
    - apply filter_set_cursor_page_ok; [done|lia|lia|]. apply quot_pageSize. lia. }
  destruct (String.eqb key "/").
  { destruct (_ && _); intros [= <-]; [|done]. by apply set_filter_ok. }
  destruct (String.eqb key "esc").
  { destruct (filterMode m).
    { intros [= <-]. apply applyFilter_ok. by apply set_filter_ok. }
    destruct (searchDone m); intros [= <-]; [|done].
    unfold list_ok. simpl. split; [by vm_compute|]. split; [done|].
    split; [by right|]. split; [by vm_compute|]. split; [constructor|done]. }
  destruct (is_key key "up" "k").
  { destruct (_ || _); [by intros [= <-]|].
    destruct (searchDone m); [|by intros [= <-]].
    destruct (Z.eqb_spec (len_of cur) 0); [by intros [= <-]|].
    intros [= <-].
    change (page m * pageSize) with (page m * 20).
    rewrite !(wrap_small (page m * 20)) by lia.
    rewrite !(wrap_small (page m - 1)) by lia.
    rewrite !(wrap_small (cursor m - 1)) by lia.
    destruct (Z.ltb_spec 0 (cursor m));
      match goal with |- context [?a <? ?b] => destruct (Z.ltb_spec a b) end;
      (apply filter_set_cursor_page_ok; [done|unfold pageSize; lia..]). }
  destruct (is_key key "down" "j").
  { destruct (_ || _); [by intros [= <-]|].
    destruct (Z.eqb_spec (len_of cur) 0); [by intros [= <-]|].
    intros [= <-].
    rewrite !(wrap_small (len_of cur - 1)) by lia.
    rewrite !(wrap_small (cursor m + 1)) by lia.
    rewrite !(wrap_small (page m + 1)) by lia.
    change ((page m + 1) * pageSize) with ((page m + 1) * 20).
    rewrite !(wrap_small ((page m + 1) * 20)) by lia.
    destruct (Z.ltb_spec (cursor m) (len_of cur - 1));
      match goal with |- context [?a <=? ?b] => destruct (Z.leb_spec a b) end;
      (apply filter_set_cursor_page_ok; [done|unfold pageSize; lia..]). }
  destruct (String.eqb key " ").
  { destruct (negb _); [by intros [= <-]|].
    destruct (Z.eqb_spec (len_of (results m)) 0) as [|Hne]; [by intros [= <-]|].
    assert (results m ≠ []) as Hres.
    { intros Heq. by rewrite Heq in Hne. }
    specialize (Hsel Hres).
    destruct (decide (cursor m ∈ selected m)); intros [= <-];
      (apply filter_set_selected_ok; [done|]); intros i Hi.
    - apply elem_of_difference in Hi as [Hi _]. by apply Hsel.
    - apply elem_of_union in Hi as [->%elem_of_singleton|Hi]; [lia|by apply Hsel]. }
  destruct (String.eqb key "d"); [done|]. by intros [= <-].
Qed.

(** X24.  The keys handled by the later [Update], while the filter is
    typed and in the list, keep the list in order: the cursor stays on a
    row of the results and on the page that is shown, the filtered
    results stay results, and only rows are selected. *)
Theorem filter_Update_key_keeps_list_ok (m m' : Model) (key : string) :
  list_ok m →
  Update_key TrimSpace ToLower Error filterInput_Update m key = Some m' →
  list_ok m'.
Proof.
  intros Hm. unfold Update_key.
  destruct (busy m); [by intros [= <-]|].
  destruct (filterMode m).
  - intros [= <-]. by apply Update_filter_key_ok.
  - by apply Update_list_key_ok.
Qed.

(** X25.  The message with the results of a search leaves the list in
    order, whatever was shown before.  Without an error the results are
    the received ones sorted by descending size, the filter is dropped,
    the cursor is on the first row of the first page and nothing is
    selected; with an error the list is not touched. *)
Theorem filter_Update_searchResults (m : Model)
    (msg_results : slice XdccFileInfo) (msg_err : error) :
  list_ok m →
  Z.of_nat (len msg_results) + pageSize < 2 ^ 63 →
  let m' := Update_searchResults Error m msg_results msg_err in
  list_ok m' ∧ busy m' = false ∧ searchDone m' = true
  ∧ match msg_err with
    | Some _ =>
        results m' = results m ∧ filteredResults m' = filteredResults m
        ∧ cursor m' = cursor m ∧ page m' = page m ∧ selected m' = selected m
    | None =>
        results m' ≡ₚ elems msg_results
        ∧ StronglySorted descending_Size (results m')
        ∧ filteredResults m' = []
        ∧ cursor m' = 0 ∧ page m' = 0 ∧ selected m' = ∅
    end.
Proof.
  intros Hm Hfit. destruct msg_err as [e|]; simpl.
  { split; [|done]. exact Hm. }
  assert (elems (sort_Slice less_by_Size msg_results) =
          insertionSort less_by_Size (elems msg_results)) as Helems
    by by destruct msg_results.
  rewrite Helems. split; [|split_and!; try done].
  - assert (length (insertionSort less_by_Size (elems msg_results))
            = length (elems msg_results)) as Hlength
      by apply Permutation_length, insertionSort_Permutation.
    unfold list_ok, len_of. simpl. rewrite Hlength. unfold len in Hfit.
    split; [done|]. split; [done|]. split; [by right|]. split; [by vm_compute|].
    split; [apply sublist_nil_l|]. intros _ i Hi. by apply elem_of_empty in Hi.
  - apply insertionSort_Permutation.
  - apply insertionSort_descending.
Qed.

(** X26.  The rows that the later [View] draws are rows of the current
    results. *)
Theorem filter_View_rows_in_range (m : Model) :
  list_ok m →
  let (start, end_) := visible_rows m in
  0 <= start ∧ end_ <= len_of (getCurrentResults (Some m)).
Proof.
  intros Hm. pose proof Hm as (Hlen & Hc & Hrow & Hpage & Hsub & Hsel).
  pose proof (len_of_nonneg (results m)) as Hnn.
  unfold visible_rows. unfold pageSize in *.
  rewrite (wrap_small (page m * 20)) by lia.
  rewrite (wrap_small (page m * 20 + 20)) by lia.
  destruct (Z.ltb_spec (len_of (getCurrentResults (Some m))) (page m * 20 + 20));
    split; lia.
Qed.

(** X19.  On a list in order [indicesToDownload] does not panic and
    returns rows of the results.  With nothing selected and the cursor on
    a filtered row, it returns one row: the first result with the name
    and the size of the row under the cursor. *)
Theorem indicesToDownload_filtered (order : list Z) (m : Model) :
  list_ok m →
  ∃ indices,
    indicesToDownload order m = ret indices
    ∧ (∀ i, i ∈ default [] indices → 0 <= i < len_of (results m))
    ∧ (selected m = ∅ → ∀ row,
         filteredResults m !! Z.to_nat (cursor m) = Some row →
         ∃ i r, indices = Some [Z.of_nat i]
                ∧ results m !! i = Some r ∧ same_file row r
                ∧ ∀ j r', (j < i)%nat → results m !! j = Some r' →
                          ¬ same_file row r').
Proof.
  intros Hm. pose proof Hm as (_ & Hcursor & _ & _ & Hsub & Hsel).
  pose proof (current_le_results m Hm) as Hcur.
  unfold indicesToDownload.
  destruct (Z.eqb_spec (len_of (getCurrentResults (Some m))) 0) as [Hnone|Hsome].
  { eexists. split; [done|]. split; [by intros i Hi%elem_of_nil|].
    intros _ row Hrow. exfalso.
    simpl in Hnone. unfold len_of in *.
    apply lookup_lt_Some in Hrow.
    destruct (Z.ltb_spec 0 (Z.of_nat (length (filteredResults m)))); lia. }
  assert (results m ≠ []) as Hres.
  { intros Heq. rewrite Heq in Hcur. pose proof (len_of_nonneg (getCurrentResults (Some m))).
    change (len_of (@nil XdccFileInfo)) with 0 in Hcur. lia. }
  specialize (Hsel Hres).
  destruct (decide (size (selected m) = 0%nat)) as [Hempty|Hne].
  2:{ eexists. split; [done|]. split.
      - intros i Hi. simpl in Hi.
        rewrite range_selected_Permutation in Hi. apply Hsel. by apply elem_of_elements.
      - intros Heq. rewrite Heq in Hne. done. }
  destruct (Z.ltb_spec 0 (len_of (filteredResults m))) as [Hf|Hf]; simpl.
  2:{ assert (filteredResults m = []) as Hnil.
      { unfold len_of in Hf. destruct (filteredResults m); [done|simpl in Hf; lia]. }
      destruct (Z.ltb_spec (cursor m) (len_of (results m))).
      - eexists. split; [done|]. split.
        + intros i ->%list_elem_of_singleton. done.
        + intros _ row Hrow. by rewrite Hnil in Hrow.
      - eexists. split; [done|]. split; [by intros i Hi%elem_of_nil|].
        intros _ row Hrow. by rewrite Hnil in Hrow. }
  destruct (Z.ltb_spec (cursor m) (len_of (filteredResults m))) as [Hc|Hc].
  2:{ assert (filteredResults m !! Z.to_nat (cursor m) = None) as Hnone.
      { apply lookup_ge_None. unfold len_of in Hc. lia. }
      destruct (Z.ltb_spec (cursor m) (len_of (results m))).
      - eexists. split; [done|]. split.
        + intros i ->%list_elem_of_singleton. done.
        + intros _ row Hrow. by rewrite Hnone in Hrow.
      - eexists. split; [done|]. split; [by intros i Hi%elem_of_nil|].
        intros _ row Hrow. by rewrite Hnone in Hrow. }
  destruct (lookup_lt_is_Some_2 (filteredResults m) (Z.to_nat (cursor m)))
    as [row Hrow]; [unfold len_of in Hc; lia|].
  assert (row ∈ results m) as Hin.
  { eapply elem_of_sublist; [|done]. by eapply list_elem_of_lookup_2. }
  destruct (results m) as [|r0 rs] eqn:Hreseq; [by apply elem_of_nil in Hin|].
  destruct (Z.ltb_spec (cursor m) 0); [lia|]. rewrite Hrow.
  destruct (list_find (same_file row) (r0 :: rs)) as [[i r]|] eqn:Hfind.
  - apply list_find_Some in Hfind as (Hi & Hr & Hleast).
    eexists. split; [done|]. split.
    + intros j ->%list_elem_of_singleton. apply lookup_lt_Some in Hi.
      unfold len_of. lia.
    + intros _ row' [= <-]. exists i, r. split_and!; try done.
      intros j r' Hj Hr'. by eapply Hleast.
  - exfalso. apply list_find_None in Hfind.
    rewrite Forall_forall in Hfind. by apply (Hfind row Hin).
Qed.

End tui_filter_keys.

Ltac sample_filtered_ok :=
  unfold tui_filter.list_ok;
  split; [by vm_compute|]; split; [by vm_compute|];
  split; [left; by vm_compute|]; split; [by vm_compute|];
  split; [apply sublist_skip, sublist_cons, sublist_skip, sublist_nil|];
  intros _ i Hi; by apply elem_of_empty in Hi.

Lemma filter_Update_key_keeps_list_ok_witness :
  tui_filter.list_ok (tui_filter.set_cursor_page sample_filtered 2 0).
Proof.
  apply (filter_Update_key_keeps_list_ok strings.ascii_TrimSpace
           strings.ascii_ToLower (λ _, "") (λ value _, value)
           sample_filtered _ "right").
  - sample_filtered_ok.
  - reflexivity.
Defined.

Lemma filter_Update_searchResults_witness :
  let m' :=
    tui_filter.Update_searchResults (λ _, "error") sample_filtered
      (Slice [sample_record 1 "a" 10; sample_record 2 "b" 30] 1024) None in
  tui_filter.list_ok m' ∧ tui_filter.busy m' = false
  ∧ tui_filter.searchDone m' = true
  ∧ tui_filter.results m' ≡ₚ [sample_record 1 "a" 10; sample_record 2 "b" 30]
  ∧ StronglySorted descending_Size (tui_filter.results m')
  ∧ tui_filter.filteredResults m' = []
  ∧ tui_filter.cursor m' = 0 ∧ tui_filter.page m' = 0
  ∧ tui_filter.selected m' = ∅.
Proof.
  apply (filter_Update_searchResults (λ _, "error") sample_filtered
           (Slice [sample_record 1 "a" 10; sample_record 2 "b" 30] 1024) None).
  - sample_filtered_ok.
  - by vm_compute.
Defined.

Lemma filter_View_rows_in_range_witness :
  0 <= 0 ∧ 2 <= tui_filter.len_of (tui_filter.getCurrentResults (Some sample_filtered)).
Proof.
  apply (filter_View_rows_in_range sample_filtered). sample_filtered_ok.
Defined.

Lemma indicesToDownload_filtered_witness :
  ∃ indices,
    tui_filter.indicesToDownload [] sample_filtered = tui_filter.ret indices
    ∧ (∀ i, i ∈ default [] indices →
         0 <= i < tui_filter.len_of (tui_filter.results sample_filtered))
    ∧ (tui_filter.selected sample_filtered = ∅ → ∀ row,
         tui_filter.filteredResults sample_filtered !! 1%nat = Some row →
         ∃ i r, indices = Some [Z.of_nat i]
                ∧ tui_filter.results sample_filtered !! i = Some r
                ∧ tui_filter.same_file row r
                ∧ ∀ j r', (j < i)%nat →
                          tui_filter.results sample_filtered !! j = Some r' →
                          ¬ tui_filter.same_file row r').
Proof.
  apply (indicesToDownload_filtered [] sample_filtered). sample_filtered_ok.
Defined.
